(** * TransformationAddBitInstructionSynonym

    A shallow embedding of
    [source/fuzz/transformation_add_bit_instruction_synonym.cpp]
    (spirv-fuzz) and the properties its specification states about it.

    The transformation takes an [OpBitwiseOr], [OpBitwiseXor] or
    [OpBitwiseAnd] instruction and inserts, directly before it, a chain of
    bit-field extracts, one-bit bitwise operations and bit-field inserts
    that recomputes the same value; it then records that the last
    instruction of the chain is a synonym of the original one. *)

From Stdlib Require Import ZArith List Bool Lia.
From stdpp Require Import base option list gmap.

Local Open Scope Z_scope.

(** ** Data model *)

(** The opcodes the transformation reads or writes, and a few others. *)
Inductive SpvOp :=
| SpvOpNop
| SpvOpConstant
| SpvOpLoad
| SpvOpIAdd
| SpvOpShiftLeftLogical
| SpvOpBitwiseOr
| SpvOpBitwiseXor
| SpvOpBitwiseAnd
| SpvOpNot
| SpvOpBitFieldInsert
| SpvOpBitFieldSExtract
| SpvOpBitFieldUExtract.

#[global] Instance SpvOp_eq_dec : EqDecision SpvOp.
Proof. solve_decision. Defined.

Inductive spv_operand_type_t :=
| SPV_OPERAND_TYPE_ID
| SPV_OPERAND_TYPE_LITERAL_INTEGER.

#[global] Instance spv_operand_type_eq_dec : EqDecision spv_operand_type_t.
Proof. solve_decision. Defined.

(** [opt::Operand]: a kind and its words. *)
Record Operand := mkOperand {
  operand_type : spv_operand_type_t;
  words : list Z
}.

#[global] Instance Operand_eq_dec : EqDecision Operand.
Proof. solve_decision. Defined.

(** [opt::Instruction].  A [type_id] or [result_id] of 0 means that the
    instruction has none.  [in_operands] are the operands after the result
    type and the result id: for an instruction that has both, they are the
    range [begin() + 2 .. end()] the source iterates over. *)
Record Instruction := mkInstruction {
  opcode : SpvOp;
  type_id : Z;
  result_id : Z;
  in_operands : list Operand
}.

#[global] Instance Instruction_eq_dec : EqDecision Instruction.
Proof. solve_decision. Defined.

(** [opt::analysis::Type], as far as the transformation looks at it. *)
Inductive Type_ :=
| Bool_
| Integer (width : Z) (is_signed : bool)
| Float (width : Z)
| Vector (element_type : Type_) (element_count : Z).

#[global] Instance Type_eq_dec : EqDecision Type_.
Proof. solve_decision. Defined.

Definition AsVector (t : Type_) : option (Type_ * Z) :=
  match t with
  | Vector e n => Some (e, n)
  | _ => None
  end.

Definition AsInteger (t : Type_) : option (Z * bool) :=
  match t with
  | Integer w sg => Some (w, sg)
  | _ => None
  end.

(** A declared constant: its id, the id of its type and its literal words. *)
Record Constant := mkConstant {
  constant_id : Z;
  constant_type : Z;
  constant_words : list Z
}.

Inductive Analysis :=
| kAnalysisDefUse
| kAnalysisTypes
| kAnalysisConstants.

#[global] Instance Analysis_eq_dec : EqDecision Analysis.
Proof. solve_decision. Defined.

(** [opt::IRContext]: the ordered instruction list the transformation edits,
    the module's id bound, the declarations the type and constant managers
    answer from, and the set of analyses that are currently valid. *)
Record IRContext := mkIRContext {
  module_insts : list Instruction;
  module_id_bound : Z;
  type_mgr : gmap Z Type_;
  constant_mgr : list Constant;
  valid_analyses : list Analysis
}.

(** [protobufs::DataDescriptor]: an id and an access path into it. *)
Record DataDescriptor := mkDataDescriptor {
  object : Z;
  index : list Z
}.

Definition MakeDataDescriptor (obj : Z) (idx : list Z) : DataDescriptor :=
  mkDataDescriptor obj idx.

(** [TransformationContext]: the fact manager's synonym facts, oldest
    first. *)
Record TransformationContext := mkTransformationContext {
  synonym_facts : list (DataDescriptor * DataDescriptor)
}.

(** [protobufs::TransformationAddBitInstructionSynonym]. *)
Record Message := mkMessage {
  instruction_result_id : Z;
  fresh_ids : list Z
}.

(** The calls that change the module or the facts, in call order.  An
    [EvUpdateModuleIdBound] carries the id that was passed and the bound
    the module has after the call. *)
Inductive Event :=
| EvInsertBefore (inst : Instruction)
| EvUpdateModuleIdBound (id : Z) (bound_after : Z)
| EvInvalidateAnalyses
| EvAddFactDataSynonym (d1 d2 : DataDescriptor).

(** What the C++ methods work on: the two contexts they are handed, the
    iterator [fresh_id] over [message_.fresh_ids()], and the log of the
    mutating calls made so far. *)
Record State := mkState {
  ir_context : IRContext;
  transformation_context : TransformationContext;
  fresh_id : list Z;
  log : list Event
}.

(** ** A state and fault monad *)

(** The ways the C++ code leaves defined behaviour. *)
Inductive fault :=
| NullDereference
| OutOfRange
| AssertionFailure.

Inductive result (A : Type) :=
| Ok (a : A)
| Fault (f : fault).
Arguments Ok {A} a.
Arguments Fault {A} f.

Definition M (A : Type) : Type := State -> result (A * State).

Definition ret {A} (a : A) : M A := fun s => Ok (a, s).

Definition bind {A B} (c : M A) (k : A -> M B) : M B :=
  fun s => match c s with
           | Ok (a, s') => k a s'
           | Fault f => Fault f
           end.

Definition fail {A} (f : fault) : M A := fun _ => Fault f.

Notation "x <- c1 ;; c2" := (bind c1 (fun x => c2))
  (at level 100, c1 at next level, right associativity).
Notation "c1 ;; c2" := (bind c1 (fun _ => c2))
  (at level 100, right associativity).

(** Dereferencing a pointer that may be null. *)
Definition deref {A} (o : option A) : M A :=
  match o with
  | Some a => ret a
  | None => fail NullDereference
  end.

(** [v[i]] on a [std::vector]. *)
Definition at_index (v : list Z) (i : Z) : M Z :=
  match v !! Z.to_nat i with
  | Some x => ret x
  | None => fail OutOfRange
  end.

(** [v[i] = x] on a [std::vector]. *)
Definition assign_index (v : list Z) (i : Z) (x : Z) : M (list Z) :=
  if bool_decide (Z.to_nat i < length v)%nat
  then ret (<[Z.to_nat i := x]> v)
  else fail OutOfRange.

(** [for (uint32_t i = lo; i < hi; i++) acc = body(i, acc)], with
    [n = hi - lo] iterations left. *)
Fixpoint for_range {A} (n : nat) (i : Z) (body : Z -> A -> M A) (acc : A)
  : M A :=
  match n with
  | O => ret acc
  | S n' => acc' <- body i acc ;; for_range n' (i + 1) body acc'
  end.

(** A range-for over a container, threading an accumulator. *)
Fixpoint for_each {A B} (l : list B) (body : B -> A -> M A) (acc : A) : M A :=
  match l with
  | [] => ret acc
  | x :: l' => acc' <- body x acc ;; for_each l' body acc'
  end.

(** [for (i = lo; i < hi; i++) if (!p(i)) return false;]: the answer is
    whether the loop ran to its end. *)
Fixpoint all_in_range (n : nat) (i : Z) (p : Z -> M bool) : M bool :=
  match n with
  | O => ret true
  | S n' => b <- p i ;; if b then all_in_range n' (i + 1) p else ret false
  end.

(** [for (x : l) if (!p(x)) return false;] *)
Fixpoint all_of {B} (l : list B) (p : B -> M bool) : M bool :=
  match l with
  | [] => ret true
  | x :: l' => b <- p x ;; if b then all_of l' p else ret false
  end.

(** Unsigned 32-bit wrap-around. *)
Definition wrap32 (z : Z) : Z := z mod 2 ^ 32.

(** ** The collaborators

    The transformation calls into the IR context, its managers and
    [fuzzerutil]; their sources are not part of this unit. *)

(** A pointer to an instruction of the module is the number of instructions
    from it to the end of the list, itself included.  Like the C++ pointer,
    it keeps denoting the same instruction when instructions are inserted
    before that one. *)
Definition InstructionPtr := nat.

(** The pointer to the first instruction of the list whose result id is
    [id]. *)
Fixpoint find_def (l : list Instruction) (id : Z) : option InstructionPtr :=
  match l with
  | [] => None
  | i :: l' =>
      if bool_decide (result_id i = id) then Some (length l)
      else find_def l' id
  end.

(** The instruction a pointer denotes; none for a pointer that does not
    point into the list. *)
Definition instruction_at (l : list Instruction) (p : InstructionPtr)
  : option Instruction :=
  if bool_decide (0 < p <= length l)%nat then l !! (length l - p)%nat
  else None.

(** The list with [new] put directly before the instruction [p] denotes. *)
Definition insert_before (p : InstructionPtr) (new : Instruction)
    (l : list Instruction) : list Instruction :=
  take (length l - p)%nat l ++ new :: drop (length l - p)%nat l.

(** Modelled from the spec: [DefUseManager::GetDef], "look up an
    instruction by result identifier"; null when no instruction defines
    the id. *)
Definition GetDef (id : Z) : M (option InstructionPtr) :=
  fun s => Ok (find_def (module_insts (ir_context s)) id, s).

(** Reading through an instruction pointer. *)
Definition load (p : InstructionPtr) : M Instruction :=
  fun s => match instruction_at (module_insts (ir_context s)) p with
           | Some i => Ok (i, s)
           | None => Fault NullDereference
           end.

(** Modelled from the spec: [TypeManager::GetType], "look up a type by type
    identifier"; null when the id declares no type. *)
Definition GetType (id : Z) : M (option Type_) :=
  fun s => Ok (type_mgr (ir_context s) !! id, s).

(** [c] is declared with the integer type of the given width and
    signedness and has the words [ws]. *)
Definition is_integer_constant (ir : IRContext) (ws : list Z) (width : Z)
    (is_signed : bool) (c : Constant) : bool :=
  bool_decide (type_mgr ir !! constant_type c = Some (Integer width is_signed))
  && bool_decide (constant_words c = ws).

(** The id of the first such constant, and 0 when there is none. *)
Definition find_integer_constant (ir : IRContext) (ws : list Z) (width : Z)
    (is_signed : bool) : Z :=
  match List.find (is_integer_constant ir ws width is_signed)
          (constant_mgr ir) with
  | Some c => constant_id c
  | None => 0
  end.

(** Modelled from the spec: [fuzzerutil::MaybeGetIntegerConstant], "look
    up-or-fail a 32-bit unsigned integer constant with a given literal
    value": the id of a declared constant of the integer type of the given
    width and signedness with the given words, and 0 when there is none.
    The spec says nothing about the last argument, [is_irrelevant]; the
    transformation always passes [false]. *)
Definition MaybeGetIntegerConstant (ws : list Z) (width : Z)
    (is_signed is_irrelevant : bool) : M Z :=
  fun s => Ok (find_integer_constant (ir_context s) ws width is_signed, s).

(** The ids an operand, an instruction and a constant refer to. *)
Definition operand_ids (o : Operand) : list Z :=
  match operand_type o with
  | SPV_OPERAND_TYPE_ID => words o
  | SPV_OPERAND_TYPE_LITERAL_INTEGER => []
  end.

Definition instruction_ids (i : Instruction) : list Z :=
  result_id i :: type_id i :: flat_map operand_ids (in_operands i).

Definition constant_ids (c : Constant) : list Z :=
  [constant_id c; constant_type c].

(** Every id some entity of the module uses: the declared types, the
    constants, and the result ids, type ids and id operands of the
    instructions. *)
Definition ids_in_use (ir : IRContext) : list Z :=
  elements (dom (type_mgr ir))
  ++ flat_map constant_ids (constant_mgr ir)
  ++ flat_map instruction_ids (module_insts ir).

(** Modelled from the spec: [fuzzerutil::IsFreshId], "test whether an
    identifier is unused": "not currently used by any entity in the
    module". *)
Definition IsFreshId (id : Z) : M bool :=
  fun s => Ok (bool_decide (id ∉ ids_in_use (ir_context s)), s).

(** Field updates of the IR context. *)
Definition set_module_insts (l : list Instruction) (ir : IRContext)
  : IRContext :=
  mkIRContext l (module_id_bound ir) (type_mgr ir) (constant_mgr ir)
    (valid_analyses ir).

Definition set_module_id_bound (b : Z) (ir : IRContext) : IRContext :=
  mkIRContext (module_insts ir) b (type_mgr ir) (constant_mgr ir)
    (valid_analyses ir).

Definition set_valid_analyses (a : list Analysis) (ir : IRContext)
  : IRContext :=
  mkIRContext (module_insts ir) (module_id_bound ir) (type_mgr ir)
    (constant_mgr ir) a.

(** Modelled from the spec: [Instruction::InsertBefore], which puts the new
    instruction into the module's list directly before the one pointed
    to. *)
Definition InsertBefore (p : InstructionPtr) (new : Instruction) : M unit :=
  fun s =>
    Ok (tt, mkState
              (set_module_insts
                 (insert_before p new (module_insts (ir_context s)))
                 (ir_context s))
              (transformation_context s) (fresh_id s)
              (log s ++ [EvInsertBefore new])).

(** Modelled from the spec: [fuzzerutil::UpdateModuleIdBound], "advance the
    module's identifier bound": the bound is a high-water mark, raised to
    lie above the id it is given.  The spec gives the bound no width; it is
    an integer here. *)
Definition UpdateModuleIdBound (id : Z) : M unit :=
  fun s =>
    let b := Z.max (module_id_bound (ir_context s)) (id + 1) in
    Ok (tt, mkState (set_module_id_bound b (ir_context s))
              (transformation_context s) (fresh_id s)
              (log s ++ [EvUpdateModuleIdBound id b])).

(** [kAnalysisNone]: no analysis is preserved. *)
Definition kAnalysisNone : list Analysis := [].

(** Modelled from the spec: [IRContext::InvalidateAnalysesExceptFor],
    "invalidate cached analyses": only the preserved ones stay valid. *)
Definition InvalidateAnalysesExceptFor (preserved : list Analysis) : M unit :=
  fun s =>
    Ok (tt, mkState
              (set_valid_analyses
                 (filter (fun a => a ∈ preserved)
                    (valid_analyses (ir_context s)))
                 (ir_context s))
              (transformation_context s) (fresh_id s)
              (log s ++ [EvInvalidateAnalyses])).

(** Modelled from the spec: [FactManager::AddFactDataSynonym], "append a
    synonym fact"; the store only grows. *)
Definition AddFactDataSynonym (d1 d2 : DataDescriptor) : M unit :=
  fun s =>
    Ok (tt, mkState (ir_context s)
              (mkTransformationContext
                 (synonym_facts (transformation_context s) ++ [(d1, d2)]))
              (fresh_id s)
              (log s ++ [EvAddFactDataSynonym d1 d2])).

(** [auto fresh_id = message_.fresh_ids().begin();] *)
Definition begin_fresh_ids (message_ : Message) : M unit :=
  fun s => Ok (tt, mkState (ir_context s) (transformation_context s)
                     (fresh_ids message_) (log s)).

(** [*fresh_id++]; reading past the end of the sequence is a fault. *)
Definition next_fresh_id : M Z :=
  fun s => match fresh_id s with
           | id :: rest =>
               Ok (id, mkState (ir_context s) (transformation_context s)
                         rest (log s))
           | [] => Fault OutOfRange
           end.

(** ** The transformation *)

(** [{SPV_OPERAND_TYPE_ID, ws}]. *)
Definition IdOperand (ws : list Z) : Operand :=
  mkOperand SPV_OPERAND_TYPE_ID ws.

(** [TransformationAddBitInstructionSynonym::GetRequiredFreshIdCount].  The
    arithmetic is the source's, on [uint32_t]. *)
Definition GetRequiredFreshIdCount (bit_instruction : InstructionPtr) : M Z :=
  inst <- load bit_instruction ;;
  match opcode inst with
  | SpvOpBitwiseOr | SpvOpBitwiseXor | SpvOpBitwiseAnd =>
      ty <- GetType (type_id inst) ;;
      ty <- deref ty ;;
      int <- deref (AsInteger ty) ;;
      ret (wrap32 (wrap32 (4 * fst int) - 1))
  | _ => fail AssertionFailure
  end.

(** The [return false] statements of [IsApplicable], in source order.  The
    first two label the two operands of the [||] of the first test. *)
Inductive Rejection :=
| UndefinedInstruction
| UnsupportedOpcode
| VectorResultType
| MissingBitIndexConstant
| WrongFreshIdCount
| NonFreshId.

#[global] Instance Rejection_eq_dec : EqDecision Rejection.
Proof. solve_decision. Defined.

(** The body of [TransformationAddBitInstructionSynonym::IsApplicable],
    answering with the [return false] that was taken, or [None] for the
    final [return true].  [size()] of a repeated field is a non-negative
    [int], which the cast to [uint32_t] leaves as it is. *)
Definition IsApplicable_verdict (message_ : Message) : M (option Rejection) :=
  instruction <- GetDef (instruction_result_id message_) ;;
  match instruction with
  | None => ret (Some UndefinedInstruction)
  | Some instruction =>
      inst <- load instruction ;;
      if bool_decide (opcode inst <> SpvOpBitwiseOr)
         && bool_decide (opcode inst <> SpvOpBitwiseXor)
         && bool_decide (opcode inst <> SpvOpBitwiseAnd)
      then ret (Some UnsupportedOpcode)
      else
        ty <- GetType (type_id inst) ;;
        ty <- deref ty ;;
        if bool_decide (is_Some (AsVector ty))
        then ret (Some VectorResultType)
        else
          ty <- GetType (type_id inst) ;;
          ty <- deref ty ;;
          int <- deref (AsInteger ty) ;;
          let width := fst int in
          found <- all_in_range (Z.to_nat width) 0
                     (fun i =>
                        c <- MaybeGetIntegerConstant [i] 32 false false ;;
                        ret (negb (c =? 0))) ;;
          if negb found then ret (Some MissingBitIndexConstant)
          else
            required <- GetRequiredFreshIdCount instruction ;;
            if negb (Z.of_nat (length (fresh_ids message_)) =? required)
            then ret (Some WrongFreshIdCount)
            else
              fresh <- all_of (fresh_ids message_) IsFreshId ;;
              if negb fresh then ret (Some NonFreshId) else ret None
  end.

(** [TransformationAddBitInstructionSynonym::IsApplicable]. *)
Definition IsApplicable (message_ : Message) : M bool :=
  v <- IsApplicable_verdict message_ ;;
  ret (bool_decide (v = None)).

(** [TransformationAddBitInstructionSynonym::AddBitwiseSynonym].  The
    target instruction is read once through [bit_instruction]; nothing the
    function does changes it. *)
Definition AddBitwiseSynonym (message_ : Message)
    (bit_instruction : InstructionPtr) : M unit :=
  begin_fresh_ids message_ ;;
  target <- load bit_instruction ;;
  ty <- GetType (type_id target) ;;
  ty <- deref ty ;;
  int <- deref (AsInteger ty) ;;
  let width := fst int in
  count <- MaybeGetIntegerConstant [1] 32 false false ;;
  bitwise_ids <-
    for_range (Z.to_nat width) 0
      (fun i bitwise_ids =>
         offset <- MaybeGetIntegerConstant [i] 32 false false ;;
         bit_extract_ids <-
           for_each (in_operands target)
             (fun operand bit_extract_ids =>
                id <- next_fresh_id ;;
                let bit_extract :=
                  mkInstruction SpvOpBitFieldUExtract (type_id target) id
                    [IdOperand (words operand); IdOperand [offset];
                     IdOperand [count]] in
                InsertBefore bit_instruction bit_extract ;;
                UpdateModuleIdBound (result_id bit_extract) ;;
                ret (bit_extract_ids ++ [result_id bit_extract]))
             [] ;;
         e0 <- at_index bit_extract_ids 0 ;;
         e1 <- at_index bit_extract_ids 1 ;;
         id <- next_fresh_id ;;
         let bitwise :=
           mkInstruction (opcode target) (type_id target) id
             [IdOperand [e0]; IdOperand [e1]] in
         InsertBefore bit_instruction bitwise ;;
         UpdateModuleIdBound (result_id bitwise) ;;
         assign_index bitwise_ids i (result_id bitwise))
      (replicate (Z.to_nat width) 0) ;;
  offset <- MaybeGetIntegerConstant [1] 32 false false ;;
  b0 <- at_index bitwise_ids 0 ;;
  b1 <- at_index bitwise_ids 1 ;;
  id <- next_fresh_id ;;
  let bit_insert :=
    mkInstruction SpvOpBitFieldInsert (type_id target) id
      [IdOperand [b0]; IdOperand [b1]; IdOperand [offset];
       IdOperand [count]] in
  InsertBefore bit_instruction bit_insert ;;
  UpdateModuleIdBound (result_id bit_insert) ;;
  bit_insert <-
    for_range (Z.to_nat (width - 2)) 2
      (fun i bit_insert =>
         offset <- MaybeGetIntegerConstant [i] 32 false false ;;
         bi <- at_index bitwise_ids i ;;
         id <- next_fresh_id ;;
         let bit_insert' :=
           mkInstruction SpvOpBitFieldInsert (type_id target) id
             [IdOperand [result_id bit_insert]; IdOperand [bi];
              IdOperand [offset]; IdOperand [count]] in
         InsertBefore bit_instruction bit_insert' ;;
         UpdateModuleIdBound (result_id bit_insert') ;;
         ret bit_insert')
      bit_insert ;;
  InvalidateAnalysesExceptFor kAnalysisNone ;;
  AddFactDataSynonym
    (MakeDataDescriptor (result_id bit_insert) [])
    (MakeDataDescriptor (result_id target) []).

(** [TransformationAddBitInstructionSynonym::Apply]. *)
Definition Apply (message_ : Message) : M unit :=
  bit_instruction <- GetDef (instruction_result_id message_) ;;
  bit_instruction <- deref bit_instruction ;;
  inst <- load bit_instruction ;;
  match opcode inst with
  | SpvOpBitwiseOr | SpvOpBitwiseXor | SpvOpBitwiseAnd =>
      AddBitwiseSynonym message_ bit_instruction
  | _ => fail AssertionFailure
  end ;;
  InvalidateAnalysesExceptFor kAnalysisNone.

(** ** The conditions [IsApplicable] tests *)

(** The three opcodes the transformation supports. *)
Definition supported_opcode (op : SpvOp) : Prop :=
  op = SpvOpBitwiseOr \/ op = SpvOpBitwiseXor \/ op = SpvOpBitwiseAnd.

(** The instruction the message names, if any. *)
Definition target_of (ir : IRContext) (message_ : Message)
  : option Instruction :=
  match find_def (module_insts ir) (instruction_result_id message_) with
  | Some p => instruction_at (module_insts ir) p
  | None => None
  end.

(** The condition each [return false] of [IsApplicable] stands for. *)
Definition fails_check (s : State) (message_ : Message) (r : Rejection)
  : Prop :=
  let ir := ir_context s in
  match r with
  | UndefinedInstruction =>
      find_def (module_insts ir) (instruction_result_id message_) = None
  | UnsupportedOpcode =>
      exists inst, target_of ir message_ = Some inst /\
                   ~ supported_opcode (opcode inst)
  | VectorResultType =>
      exists inst e n, target_of ir message_ = Some inst /\
                       type_mgr ir !! type_id inst = Some (Vector e n)
  | MissingBitIndexConstant =>
      exists inst w sg i,
        target_of ir message_ = Some inst /\
        type_mgr ir !! type_id inst = Some (Integer w sg) /\
        0 <= i < w /\
        MaybeGetIntegerConstant [i] 32 false false s = Ok (0, s)
  | WrongFreshIdCount =>
      exists p n,
        find_def (module_insts ir) (instruction_result_id message_) = Some p /\
        GetRequiredFreshIdCount p s = Ok (n, s) /\
        Z.of_nat (length (fresh_ids message_)) <> n
  | NonFreshId =>
      exists id, id ∈ fresh_ids message_ /\ IsFreshId id s = Ok (false, s)
  end.

(** The position of a check in the order of the spec's list. *)
Definition check_order (r : Rejection) : nat :=
  match r with
  | UndefinedInstruction => 0
  | UnsupportedOpcode => 1
  | VectorResultType => 2
  | MissingBitIndexConstant => 3
  | WrongFreshIdCount => 4
  | NonFreshId => 5
  end.

(** [r] fails and no check before it does. *)
Definition first_failure (s : State) (message_ : Message) (r : Rejection)
  : Prop :=
  fails_check s message_ r /\
  forall r', (check_order r' < check_order r)%nat -> ~ fails_check s message_ r'.

(** The result type of a supported target is declared, and is a vector or
    an integer: what SPIR-V requires of the three bitwise instructions. *)
Definition result_type_known (ir : IRContext) (message_ : Message) : Prop :=
  forall inst,
    target_of ir message_ = Some inst ->
    supported_opcode (opcode inst) ->
    exists t, type_mgr ir !! type_id inst = Some t /\
              (is_Some (AsVector t) \/ is_Some (AsInteger t)).

(** [reads c]: whenever [c] returns, the state is the one it started in. *)
Definition reads {A} (c : M A) : Prop :=
  forall s a s', c s = Ok (a, s') -> s' = s.

(** ** The chain, as the spec describes it *)

(** The three kinds of instruction of the chain: all have the result type
    of the target. *)
Definition bit_extract_inst (target : Instruction) (id : Z) (operand : Operand)
    (offset count : Z) : Instruction :=
  mkInstruction SpvOpBitFieldUExtract (type_id target) id
    [IdOperand (words operand); IdOperand [offset]; IdOperand [count]].

Definition bitwise_inst (target : Instruction) (id e0 e1 : Z) : Instruction :=
  mkInstruction (opcode target) (type_id target) id
    [IdOperand [e0]; IdOperand [e1]].

Definition bit_insert_inst (target : Instruction) (id base insert : Z)
    (offset count : Z) : Instruction :=
  mkInstruction SpvOpBitFieldInsert (type_id target) id
    [IdOperand [base]; IdOperand [insert]; IdOperand [offset];
     IdOperand [count]].

(** The id of the 32-bit unsigned constant [i], or 0. *)
Definition index_constant (ir : IRContext) (i : Z) : Z :=
  find_integer_constant ir [i] 32 false.

(** The chain as the spec describes it, for a target with the operands
    [opx] and [opy] and the width [w].  [f j] is the [j]-th fresh id.

    Phase A: for each offset, one extract per operand and one instruction
    with the original opcode on the two extracted values.  The id of that
    instruction, [f (3 * k + 2)], is [bitwise_ids[k]]. *)
Definition spec_triple (ir : IRContext) (target : Instruction)
    (opx opy : Operand) (f : nat -> Z) (k : nat) : list Instruction :=
  [bit_extract_inst target (f (3 * k)%nat) opx
     (index_constant ir (Z.of_nat k)) (index_constant ir 1);
   bit_extract_inst target (f (3 * k + 1)%nat) opy
     (index_constant ir (Z.of_nat k)) (index_constant ir 1);
   bitwise_inst target (f (3 * k + 2)%nat) (f (3 * k)%nat)
     (f (3 * k + 1)%nat)].

Definition spec_phase_A (ir : IRContext) (target : Instruction)
    (opx opy : Operand) (f : nat -> Z) (w : nat) : list Instruction :=
  flat_map (spec_triple ir target opx opy f) (seq 0 w).

(** Phase B: the first insert has [bitwise_ids[0]] as base and puts
    [bitwise_ids[1]] at offset 1; the insert for each offset from 2 on has
    the previous insert as base. *)
Definition spec_first_insert (ir : IRContext) (target : Instruction)
    (f : nat -> Z) (w : nat) : Instruction :=
  bit_insert_inst target (f (3 * w)%nat) (f 2%nat) (f 5%nat)
    (index_constant ir 1) (index_constant ir 1).

Definition spec_next_insert (ir : IRContext) (target : Instruction)
    (f : nat -> Z) (w : nat) (k : nat) : Instruction :=
  bit_insert_inst target (f (3 * w + k - 1)%nat) (f (3 * w + k - 2)%nat)
    (f (3 * k + 2)%nat) (index_constant ir (Z.of_nat k))
    (index_constant ir 1).

Definition spec_phase_B (ir : IRContext) (target : Instruction)
    (f : nat -> Z) (w : nat) : list Instruction :=
  spec_first_insert ir target f w
  :: map (spec_next_insert ir target f w) (seq 2 (w - 2)).

Definition spec_chain (ir : IRContext) (target : Instruction)
    (opx opy : Operand) (fresh : list Z) (w : nat) : list Instruction :=
  spec_phase_A ir target opx opy (fun j => nth j fresh 0) w
  ++ spec_phase_B ir target (fun j => nth j fresh 0) w.

(** ** The state after creating instructions *)

(** The bound after [UpdateModuleIdBound] was called for each of the ids. *)
Definition bound_after (b : Z) (ids : list Z) : Z :=
  foldl (fun b id => Z.max b (id + 1)) b ids.

(** The state after [*fresh_id++], [InsertBefore] of [inst] and
    [UpdateModuleIdBound] of its result id. *)
Definition emit1 (p : InstructionPtr) (s : State) (inst : Instruction)
  : State :=
  let b := Z.max (module_id_bound (ir_context s)) (result_id inst + 1) in
  mkState
    (mkIRContext
       (insert_before p inst (module_insts (ir_context s)))
       b (type_mgr (ir_context s)) (constant_mgr (ir_context s))
       (valid_analyses (ir_context s)))
    (transformation_context s)
    (tail (fresh_id s))
    (log s ++ [EvInsertBefore inst; EvUpdateModuleIdBound (result_id inst) b]).

Definition emitted (p : InstructionPtr) (insts : list Instruction) (s : State)
  : State :=
  foldl (emit1 p) s insts.

(** The log entries of creating the instructions, from the bound [b]. *)
Fixpoint emit_log (b : Z) (insts : list Instruction) : list Event :=
  match insts with
  | [] => []
  | inst :: rest =>
      let b' := Z.max b (result_id inst + 1) in
      EvInsertBefore inst :: EvUpdateModuleIdBound (result_id inst) b'
      :: emit_log b' rest
  end.

(** The state [Apply] ends in when it has created [chain] before the
    target. *)
Definition applied (message_ : Message) (p : InstructionPtr)
    (target : Instruction) (chain : list Instruction) (s : State) : State :=
  let s0 := mkState (ir_context s) (transformation_context s)
              (fresh_ids message_) (log s) in
  let se := emitted p chain s0 in
  let last_id := result_id (List.last chain target) in
  let d1 := MakeDataDescriptor last_id [] in
  let d2 := MakeDataDescriptor (result_id target) [] in
  mkState
    (set_valid_analyses [] (ir_context se))
    (mkTransformationContext
       (synonym_facts (transformation_context se) ++ [(d1, d2)]))
    (fresh_id se)
    (log se ++ [EvInvalidateAnalyses; EvAddFactDataSynonym d1 d2;
                EvInvalidateAnalyses]).

(** The state [AddBitwiseSynonym] ends in when it has created [chain]
    before the target. *)
Definition synonym_added (message_ : Message) (p : InstructionPtr)
    (target : Instruction) (chain : list Instruction) (s : State) : State :=
  let s0 := mkState (ir_context s) (transformation_context s)
              (fresh_ids message_) (log s) in
  let se := emitted p chain s0 in
  let last_id := result_id (List.last chain target) in
  let d1 := MakeDataDescriptor last_id [] in
  let d2 := MakeDataDescriptor (result_id target) [] in
  mkState
    (set_valid_analyses [] (ir_context se))
    (mkTransformationContext
       (synonym_facts (transformation_context se) ++ [(d1, d2)]))
    (fresh_id se)
    (log se ++ [EvInvalidateAnalyses; EvAddFactDataSynonym d1 d2]).

(** The target the message names is a binary instruction on two ids whose
    result type is an integer of width [w].  The widths of the data model,
    8, 16, 32 and 64, lie in the range; up to [2 ^ 30] the count
    [4 * w - 1] does not wrap. *)
Definition binary_integer_target (ir : IRContext) (message_ : Message)
    (target : Instruction) (x y : Z) (w : Z) : Prop :=
  target_of ir message_ = Some target /\
  in_operands target = [IdOperand [x]; IdOperand [y]] /\
  (exists sg, type_mgr ir !! type_id target = Some (Integer w sg)) /\
  2 <= w <= 2 ^ 30.

(** ** Operands, the log and the id bound *)

(** An operand id of a new instruction that [n] new instructions precede
    is given, being an operand of the target or one of the index
    constants, or is the result id of one of those [n]. *)
Definition given_or_earlier (ir : IRContext) (x y : Z) (fresh : list Z)
    (W : nat) (n : nat) (id : Z) : Prop :=
  id = x \/ id = y \/
  (exists k, (k < W)%nat /\ id = index_constant ir (Z.of_nat k)) \/
  (exists j, (j < n)%nat /\ (j < length fresh)%nat /\ nth j fresh 0 = id).

Definition operands_defined (ir : IRContext) (x y : Z) (fresh : list Z)
    (W : nat) (start : nat) (l : list Instruction) : Prop :=
  forall i inst id,
    l !! i = Some inst ->
    id ∈ flat_map operand_ids (in_operands inst) ->
    given_or_earlier ir x y fresh W (start + i) id.

(** The instructions the [InsertBefore] calls of a log inserted, in call
    order. *)
Fixpoint inserted_instructions (l : list Event) : list Instruction :=
  match l with
  | [] => []
  | EvInsertBefore inst :: rest => inst :: inserted_instructions rest
  | _ :: rest => inserted_instructions rest
  end.

(** Every [InsertBefore] of a log is directly followed by the
    [UpdateModuleIdBound] for the result id of the inserted instruction,
    after which the bound lies above that id. *)
Fixpoint bound_follows_insert (l : list Event) : bool :=
  match l with
  | [] => true
  | EvInsertBefore inst :: EvUpdateModuleIdBound id b :: rest =>
      (id =? result_id inst) && (id <? b) && bound_follows_insert rest
  | EvInsertBefore _ :: _ => false
  | _ :: rest => bound_follows_insert rest
  end.

(** The bound lies above every id in use. *)
Definition id_bound_ok (ir : IRContext) : Prop :=
  forall id, id ∈ ids_in_use ir -> id < module_id_bound ir.

(** ** Evaluating the chain *)

(** Modelled from the spec: "bit-field extract/insert: instructions that
    read or write a contiguous run of bits within an integer value at a
    given offset and width"; the extract is "unsigned, no sign-extension".
    The run of [count] bits of [base] from bit [offset] on, in the low bits
    of the result. *)
Definition bit_field_u_extract (base offset count : Z) : Z :=
  Z.land (Z.shiftr base offset) (Z.ones count).

(** [base] with the run of [count] bits from bit [offset] on replaced by
    the low [count] bits of [insert]. *)
Definition bit_field_insert (base insert offset count : Z) : Z :=
  let mask := Z.shiftl (Z.ones count) offset in
  Z.lor (Z.land base (Z.lnot mask)) (Z.land (Z.shiftl insert offset) mask).

(** The operation of a supported opcode. *)
Definition bitwise_op (op : SpvOp) : option (Z -> Z -> Z) :=
  match op with
  | SpvOpBitwiseOr => Some Z.lor
  | SpvOpBitwiseXor => Some Z.lxor
  | SpvOpBitwiseAnd => Some Z.land
  | _ => None
  end.

(** The low [w] bits of [v]: a value of an integer type of width [w] is
    kept as the unsigned number of its bit pattern. *)
Definition truncate (w v : Z) : Z := Z.land v (Z.ones w).

(** The value an environment gives the id of an id operand. *)
Definition operand_value (env : gmap Z Z) (o : Operand) : option Z :=
  match operand_type o, words o with
  | SPV_OPERAND_TYPE_ID, [id] => env !! id
  | _, _ => None
  end.

(** The value an instruction computes from the values of its operands. *)
Definition instruction_value (env : gmap Z Z) (inst : Instruction)
  : option Z :=
  match opcode inst, in_operands inst with
  | SpvOpBitFieldUExtract, [base; offset; count] =>
      vb ← operand_value env base;
      vo ← operand_value env offset;
      vc ← operand_value env count;
      Some (bit_field_u_extract vb vo vc)
  | SpvOpBitFieldInsert, [base; insert; offset; count] =>
      vb ← operand_value env base;
      vi ← operand_value env insert;
      vo ← operand_value env offset;
      vc ← operand_value env count;
      Some (bit_field_insert vb vi vo vc)
  | op, [a; b] =>
      f ← bitwise_op op;
      va ← operand_value env a;
      vb ← operand_value env b;
      Some (f va vb)
  | _, _ => None
  end.

(** One instruction of integer result type, run in an environment that
    gives the ids defined so far their values: it defines its result id.
    Other instructions are not given a meaning. *)
Definition eval_instruction (ir : IRContext) (env : gmap Z Z)
    (inst : Instruction) : option (gmap Z Z) :=
  match type_mgr ir !! type_id inst with
  | Some (Integer w _) =>
      v ← instruction_value env inst;
      Some (<[result_id inst := truncate w v]> env)
  | _ => None
  end.

(** A list of instructions, run in order. *)
Fixpoint eval_instructions (ir : IRContext) (env : gmap Z Z)
    (l : list Instruction) : option (gmap Z Z) :=
  match l with
  | [] => Some env
  | inst :: rest =>
      env' ← eval_instruction ir env inst;
      eval_instructions ir env' rest
  end.

(** The environment gives every declared one-word constant its value. *)
Definition env_has_constants (ir : IRContext) (env : gmap Z Z) : Prop :=
  forall c v, c ∈ constant_mgr ir -> constant_words c = [v] ->
              env !! constant_id c = Some v.

(** Bit [k] of [v], as 0 or 1. *)
Definition bit_value (v k : Z) : Z := Z.land (Z.shiftr v k) (Z.ones 1).

(** The environment after part of phase A, for the chain on the ids
    [fresh] run from [env]: the ids that are not fresh are as they were,
    and [bitwise_ids[j]] holds bit [j] of the result [r] for the offsets
    below [k]. *)
Definition phase_A_done (fresh : list Z) (env : gmap Z Z) (r : Z) (k : nat)
    (envA : gmap Z Z) : Prop :=
  (forall id, id ∉ fresh -> envA !! id = env !! id) /\
  (forall j, (j < k)%nat ->
             envA !! nth (3 * j + 2)%nat fresh 0
             = Some (bit_value r (Z.of_nat j))).

(** The environment after the first insert and [j] more, for a width of
    [W]: the insert done last holds the low [2 + j] bits of [r]. *)
Definition phase_B_done (fresh : list Z) (env : gmap Z Z) (r : Z) (W j : nat)
    (envB : gmap Z Z) : Prop :=
  (forall id, id ∉ fresh -> envB !! id = env !! id) /\
  (forall i, (i < W)%nat ->
             envB !! nth (3 * i + 2)%nat fresh 0
             = Some (bit_value r (Z.of_nat i))) /\
  envB !! nth (3 * W + j)%nat fresh 0
  = Some (Z.land r (Z.ones (Z.of_nat (2 + j)))).

(** ** A small module to run the definitions on

    [%5 = OpBitwiseXor %1 %3 %4] on 8-bit unsigned integers, between a load
    and an addition; the index constants 0..7 have ids 10..17. *)

Definition example_types : gmap Z Type_ :=
  <[1 := Integer 8 false]> (<[2 := Integer 32 false]> ∅).

Definition example_constants : list Constant :=
  map (fun i => mkConstant (10 + i) 2 [i]) [0; 1; 2; 3; 4; 5; 6; 7].

Definition example_target : Instruction :=
  mkInstruction SpvOpBitwiseXor 1 5 [IdOperand [3]; IdOperand [4]].

Definition example_ir : IRContext :=
  mkIRContext
    [mkInstruction SpvOpLoad 1 3 [IdOperand [8]];
     mkInstruction SpvOpLoad 1 4 [IdOperand [9]];
     example_target;
     mkInstruction SpvOpIAdd 1 6 [IdOperand [5]; IdOperand [3]]]
    18 example_types example_constants
    [kAnalysisDefUse; kAnalysisTypes].

Definition example_state : State :=
  mkState example_ir (mkTransformationContext []) [] [].

Definition example_message : Message :=
  mkMessage 5 (map (fun i => 100 + i)
                 [0; 1; 2; 3; 4; 5; 6; 7; 8; 9; 10; 11; 12; 13; 14; 15; 16;
                  17; 18; 19; 20; 21; 22; 23; 24; 25; 26; 27; 28; 29; 30]).

(** The environment the example module is run in: [%3] and [%4] hold the
    two inputs, and the index constants hold their values. *)
Definition example_env : gmap Z Z :=
  list_to_map
    [(3, 178); (4, 102); (10, 0); (11, 1); (12, 2); (13, 3); (14, 4);
     (15, 5); (16, 6); (17, 7)].

(** A descriptor for the same target that gives one unused id, 100, 31
    times. *)
Definition repeated_message : Message := mkMessage 5 (replicate 31 100).

(** ** A target whose result type is a float

    [%5 = OpBitwiseOr %1 %3 %4] where [%1] is a 32-bit float type. *)

Definition float_state : State :=
  mkState
    (mkIRContext
       [mkInstruction SpvOpBitwiseOr 1 5 [IdOperand [3]; IdOperand [4]]]
       6 (<[1 := Float 32]> ∅) [] [])
    (mkTransformationContext []) [] [].

Definition float_message : Message := mkMessage 5 [].

(** ** A result type [IsApplicable] cannot use *)

(** The result type of the target is not declared, or is neither a vector
    nor an integer. *)
Definition result_type_unusable (ir : IRContext) (inst : Instruction) : Prop :=
  forall t, type_mgr ir !! type_id inst = Some t ->
            AsVector t = None /\ AsInteger t = None.

(** ** Faults a computation cannot end in *)

(** [never_ends_in f c]: [c] does not end in the fault [f], whatever state
    it starts in. *)
Definition never_ends_in {A} (f : fault) (c : M A) : Prop :=
  forall s, c s <> Fault f.

(** ** What a run leaves in place *)

(** [extends s s']: the state [s'] has what [s] has and possibly more.  The
    declared types and constants are the same, the id bound is no lower,
    the instructions of [s] are still there in their order, and the facts
    and the log of [s] are the beginning of those of [s']. *)
Definition extends (s s' : State) : Prop :=
  type_mgr (ir_context s') = type_mgr (ir_context s) /\
  constant_mgr (ir_context s') = constant_mgr (ir_context s) /\
  module_id_bound (ir_context s) <= module_id_bound (ir_context s') /\
  module_insts (ir_context s) `sublist_of` module_insts (ir_context s') /\
  synonym_facts (transformation_context s)
    `prefix_of` synonym_facts (transformation_context s') /\
  log s `prefix_of` log s'.

(** [only_adds c]: whenever [c] returns, the state it ends in extends the
    one it started in. *)
Definition only_adds {A} (c : M A) : Prop :=
  forall s a s', c s = Ok (a, s') -> extends s s'.

(** ** Ids beyond the ones a run takes *)

(** The state with the ids [extra] put behind those the iterator
    [fresh_id] still has to give. *)
Definition with_surplus (extra : list Z) (s : State) : State :=
  mkState (ir_context s) (transformation_context s) (fresh_id s ++ extra)
    (log s).

(** [ignores_surplus c]: a run of [c] that returns does the same, and
    leaves the same ids over, when more ids follow. *)
Definition ignores_surplus {A} (c : M A) : Prop :=
  forall extra s a s',
    c s = Ok (a, s') ->
    c (with_surplus extra s) = Ok (a, with_surplus extra s').

(** * Proofs *)

(** ** Instruction pointers *)

Lemma find_def_split l id p :
  find_def l id = Some p ->
  exists pre bi post,
    l = pre ++ bi :: post /\ p = S (length post) /\ result_id bi = id.
Proof.
  induction l as [|i l IH]; simpl; [discriminate|].
  case_bool_decide as Hid.
  - intros [= <-]. exists [], i, l. auto.
  - intros Hp. destruct (IH Hp) as (pre & bi & post & -> & -> & Hr).
    exists (i :: pre), bi, post. auto.
Qed.

Lemma find_def_None l id :
  find_def l id = None -> forall i, i ∈ l -> result_id i <> id.
Proof.
  induction l as [|i l IH]; simpl; intros H j Hj.
  - inversion Hj.
  - case_bool_decide; [discriminate|].
    apply elem_of_cons in Hj as [Hj | Hj]; [by subst | auto].
Qed.

Lemma instruction_at_split pre bi post :
  instruction_at (pre ++ bi :: post) (S (length post)) = Some bi.
Proof.
  unfold instruction_at. rewrite length_app. simpl.
  rewrite bool_decide_eq_true_2 by lia.
  replace (length pre + S (length post) - S (length post))%nat
    with (length pre + 0)%nat by lia.
  by rewrite lookup_app_r, Nat.add_0_r, Nat.sub_diag by lia.
Qed.

Lemma insert_before_split pre bi post new :
  insert_before (S (length post)) new (pre ++ bi :: post)
  = (pre ++ [new]) ++ bi :: post.
Proof.
  unfold insert_before. rewrite length_app. simpl.
  replace (length pre + S (length post) - S (length post))%nat
    with (length pre + 0)%nat by lia.
  rewrite take_app_add, drop_app_add. simpl.
  by rewrite app_nil_r, <- app_assoc.
Qed.

Lemma find_def_instruction_at l id p :
  find_def l id = Some p -> is_Some (instruction_at l p).
Proof.
  intros H. destruct (find_def_split _ _ _ H) as (pre & bi & post & -> & -> & _).
  rewrite instruction_at_split. eauto.
Qed.

Lemma find_def_result_id l id p target :
  find_def l id = Some p -> instruction_at l p = Some target ->
  result_id target = id.
Proof.
  intros Hdef Hat.
  destruct (find_def_split _ _ _ Hdef) as (pre & bi & post & -> & -> & Hid).
  rewrite instruction_at_split in Hat. by injection Hat as <-.
Qed.

(** ** Operations that only read *)

Lemma reads_ret {A} (a : A) : reads (ret a).
Proof. intros s b s'. unfold ret. congruence. Qed.

Lemma reads_fail {A} f : reads (@fail A f).
Proof. intros s b s'. unfold fail. congruence. Qed.

Lemma reads_bind {A B} (c : M A) (k : A -> M B) :
  reads c -> (forall a, reads (k a)) -> reads (bind c k).
Proof.
  intros Hc Hk s b s'. unfold bind.
  destruct (c s) as [[a s1]|f] eqn:E; [|discriminate].
  intros H. apply Hk in H. apply Hc in E. congruence.
Qed.

Lemma reads_deref {A} (o : option A) : reads (deref o).
Proof. destruct o; [apply reads_ret | apply reads_fail]. Qed.

Lemma reads_GetDef id : reads (GetDef id).
Proof. intros s a s'. unfold GetDef. congruence. Qed.

Lemma reads_load p : reads (load p).
Proof.
  intros s a s'. unfold load.
  destruct (instruction_at _ _); congruence.
Qed.

Lemma reads_GetType id : reads (GetType id).
Proof. intros s a s'. unfold GetType. congruence. Qed.

Lemma reads_MaybeGetIntegerConstant ws w sg irr :
  reads (MaybeGetIntegerConstant ws w sg irr).
Proof. intros s a s'. unfold MaybeGetIntegerConstant. congruence. Qed.

Lemma reads_IsFreshId id : reads (IsFreshId id).
Proof. intros s a s'. unfold IsFreshId. congruence. Qed.

Lemma reads_if {A} (b : bool) (c1 c2 : M A) :
  reads c1 -> reads c2 -> reads (if b then c1 else c2).
Proof. by destruct b. Qed.

Lemma reads_all_in_range n i p :
  (forall j, reads (p j)) -> reads (all_in_range n i p).
Proof.
  intros Hp. revert i. induction n as [|n IH]; intros i; simpl.
  - apply reads_ret.
  - apply reads_bind; [apply Hp|]. intros b.
    apply reads_if; [apply IH | apply reads_ret].
Qed.

Lemma reads_all_of {B} (l : list B) p :
  (forall x, reads (p x)) -> reads (all_of l p).
Proof.
  intros Hp. induction l as [|x l IH]; simpl.
  - apply reads_ret.
  - apply reads_bind; [apply Hp|]. intros b.
    apply reads_if; [apply IH | apply reads_ret].
Qed.

Create HintDb reads discriminated.
#[local] Hint Resolve reads_ret reads_fail reads_deref reads_GetDef
  reads_load reads_GetType reads_MaybeGetIntegerConstant reads_IsFreshId
  : reads.

Ltac reads_step :=
  first
    [ solve [auto with reads]
    | apply reads_bind; [|intros ?]
    | apply reads_if
    | apply reads_all_in_range; intros ?
    | apply reads_all_of; intros ? ].

Lemma reads_GetRequiredFreshIdCount p : reads (GetRequiredFreshIdCount p).
Proof.
  unfold GetRequiredFreshIdCount.
  apply reads_bind; [auto with reads|]. intros inst.
  destruct (opcode inst); repeat reads_step.
Qed.
#[local] Hint Resolve reads_GetRequiredFreshIdCount : reads.

Lemma reads_IsApplicable_verdict message_ :
  reads (IsApplicable_verdict message_).
Proof.
  unfold IsApplicable_verdict.
  apply reads_bind; [auto with reads|]. intros [p|]; [|auto with reads].
  repeat reads_step.
Qed.

Lemma reads_IsApplicable message_ : reads (IsApplicable message_).
Proof.
  unfold IsApplicable.
  apply reads_bind; [apply reads_IsApplicable_verdict|].
  intros v. apply reads_ret.
Qed.

(** ** Running the reading loops *)

Lemma all_in_range_spec n i p (g : Z -> bool) s :
  (forall j, p j s = Ok (g j, s)) ->
  exists b, all_in_range n i p s = Ok (b, s) /\
            (b = true <-> forall j, i <= j < i + Z.of_nat n -> g j = true).
Proof.
  intros Hp. revert i. induction n as [|n IH]; intros i; simpl.
  - exists true. split; [done|]. split; [lia | done].
  - unfold bind at 1. rewrite Hp. destruct (g i) eqn:Hgi.
    + destruct (IH (i + 1)) as (b & Hb & Hiff). exists b. split; [done|].
      rewrite Hiff. split; intros H j Hj.
      * destruct (decide (j = i)) as [Hji|]; [by subst | apply H; lia].
      * apply H; lia.
    + exists false. split; [done|]. split; [done|].
      intros H. rewrite H in Hgi by lia. done.
Qed.

Lemma all_of_spec {B} (l : list B) p (g : B -> bool) s :
  (forall x, p x s = Ok (g x, s)) ->
  exists b, all_of l p s = Ok (b, s) /\
            (b = true <-> forall x, x ∈ l -> g x = true).
Proof.
  intros Hp. induction l as [|x l IH]; simpl.
  - exists true. split; [done|]. split; [|done]. intros _ y Hy. inversion Hy.
  - unfold bind at 1. rewrite Hp. destruct (g x) eqn:Hgx.
    + destruct IH as (b & Hb & Hiff). exists b. split; [done|].
      rewrite Hiff. split; intros H y Hy.
      * apply elem_of_cons in Hy as [Hy|Hy]; [by subst | auto].
      * apply H. by apply elem_of_cons; right.
    + exists false. split; [done|]. split; [done|].
      intros H. rewrite H in Hgx; [done | by apply elem_of_cons; left].
Qed.

Lemma unsupported_test op :
  bool_decide (op <> SpvOpBitwiseOr) && bool_decide (op <> SpvOpBitwiseXor)
  && bool_decide (op <> SpvOpBitwiseAnd)
  = bool_decide (~ supported_opcode op).
Proof.
  unfold supported_opcode. destruct op; reflexivity.
Qed.

Lemma first_failure_unique s message_ r1 r2 :
  first_failure s message_ r1 -> first_failure s message_ r2 -> r1 = r2.
Proof.
  intros [H1 L1] [H2 L2].
  destruct (lt_eq_lt_dec (check_order r1) (check_order r2)) as [[Hlt|Heq]|Hlt].
  - destruct (L2 _ Hlt H1).
  - destruct r1, r2; simpl in Heq; congruence.
  - destruct (L1 _ Hlt H2).
Qed.

Lemma GetRequiredFreshIdCount_supported s p inst w sg :
  instruction_at (module_insts (ir_context s)) p = Some inst ->
  supported_opcode (opcode inst) ->
  type_mgr (ir_context s) !! type_id inst = Some (Integer w sg) ->
  GetRequiredFreshIdCount p s = Ok (wrap32 (wrap32 (4 * w) - 1), s).
Proof.
  intros Hat Hop Hty. unfold GetRequiredFreshIdCount, bind, load.
  rewrite Hat.
  destruct Hop as [Hop | [Hop | Hop]]; rewrite Hop; unfold GetType; rewrite Hty; reflexivity.
Qed.

(** What [IsApplicable_verdict] answers, for a target whose result type is
    known: the first check that fails, in the order of the source. *)
Lemma IsApplicable_verdict_spec message_ s :
  result_type_known (ir_context s) message_ ->
  exists v, IsApplicable_verdict message_ s = Ok (v, s) /\
            match v with
            | Some r => first_failure s message_ r
            | None => forall r, ~ fails_check s message_ r
            end.
Proof.
  intros Hknown. unfold IsApplicable_verdict.
  unfold bind at 1, GetDef at 1.
  destruct (find_def _ _) as [p|] eqn:Hdef.
  2: { exists (Some UndefinedInstruction). split; [done|]. split; [done|].
       intros r' Hr'. destruct r'; simpl in Hr'; lia. }
  destruct (find_def_instruction_at _ _ _ Hdef) as [inst Hinst].
  assert (Htgt : target_of (ir_context s) message_ = Some inst).
  { unfold target_of. by rewrite Hdef. }
  assert (Hno1 : ~ fails_check s message_ UndefinedInstruction).
  { simpl. congruence. }
  unfold bind at 1, load at 1. rewrite Hinst, unsupported_test.
  case_bool_decide as Hop.
  { exists (Some UnsupportedOpcode). split; [done|]. split.
    - exists inst. done.
    - intros r' Hr'. destruct r'; simpl in Hr'; try lia. done. }
  assert (Hno2 : ~ fails_check s message_ UnsupportedOpcode).
  { intros (inst' & Ht' & Hn). rewrite Htgt in Ht'. by simplify_eq. }
  destruct (Hknown inst Htgt Hop) as (t & Ht & Hkind).
  unfold bind at 1, GetType at 1. rewrite Ht. unfold bind at 1. simpl deref.
  unfold ret at 1.
  case_bool_decide as Hvec.
  { exists (Some VectorResultType). split; [done|]. split.
    - destruct t; try (destruct Hvec; discriminate).
      exists inst. eauto.
    - intros r' Hr'. destruct r'; simpl in Hr'; try lia; done. }
  destruct Hkind as [Hv|[[w sg] Hi]]; [done|].
  destruct t; try discriminate. simpl in Hi. simplify_eq.
  assert (Hno3 : ~ fails_check s message_ VectorResultType).
  { intros (inst' & e & n & Ht' & Hv). rewrite Htgt in Ht'. simplify_eq. }
  unfold bind at 1, GetType at 1. rewrite Ht. unfold bind at 1. simpl deref.
  unfold ret at 1. unfold bind at 1. simpl deref. unfold ret at 1.
  cbv zeta. simpl fst.
  destruct (all_in_range_spec (Z.to_nat w) 0
              (fun i => c <- MaybeGetIntegerConstant [i] 32 false false ;;
                        ret (negb (c =? 0)))
              (fun i => negb (find_integer_constant (ir_context s) [i] 32 false
                              =? 0)) s) as (found & Hfound & Hiff).
  { intros j. reflexivity. }
  unfold bind at 1. rewrite Hfound. destruct found; cbn [negb].
  2: { exists (Some MissingBitIndexConstant). split; [done|]. split.
       - destruct (decide (Forall (fun j =>
                     negb (find_integer_constant (ir_context s) [j] 32 false
                           =? 0) = true) (seqZ 0 w))) as [Hall|Hex].
         + assert (false = true); [|done]. apply Hiff. intros j Hj.
           rewrite Forall_forall in Hall.
           apply Hall. apply elem_of_seqZ. lia.
         + apply not_Forall_Exists in Hex; [|apply _].
           apply Exists_exists in Hex as (i & Hin & Hi).
           apply elem_of_seqZ in Hin.
           exists inst, w, sg, i. repeat split; [done|done|lia|lia|].
           unfold MaybeGetIntegerConstant.
           destruct (Z.eqb_spec (find_integer_constant (ir_context s) [i] 32
                                   false) 0) as [Hz|Hz];
             [by rewrite Hz|].
           apply Z.eqb_neq in Hz. simpl in Hi. rewrite Hz in Hi.
           by destruct Hi.
       - intros r' Hr'. destruct r'; simpl in Hr'; try lia; done. }
  assert (Hno4 : ~ fails_check s message_ MissingBitIndexConstant).
  { intros (inst' & w' & sg' & i & Ht' & Hty' & Hi & Hc).
    rewrite Htgt in Ht'. simplify_eq.
    assert (Hg : negb (find_integer_constant (ir_context s) [i] 32 false
                       =? 0) = true) by (apply Hiff; [done | lia]).
    unfold MaybeGetIntegerConstant in Hc. injection Hc as Hc.
    rewrite Hc in Hg. done. }
  unfold bind at 1.
  rewrite (GetRequiredFreshIdCount_supported s p inst w sg Hinst Hop Ht).
  destruct (Z.eqb_spec (Z.of_nat (length (fresh_ids message_)))
              (wrap32 (wrap32 (4 * w) - 1))) as [Hlen|Hlen];
    cbn [negb].
  2: { exists (Some WrongFreshIdCount). split; [done|]. split.
       - exists p, (wrap32 (wrap32 (4 * w) - 1)). repeat split; [done| |done].
         by apply GetRequiredFreshIdCount_supported with inst sg.
       - intros r' Hr'. destruct r'; simpl in Hr'; try lia; done. }
  assert (Hno5 : ~ fails_check s message_ WrongFreshIdCount).
  { intros (p' & n & Hd & Hreq & Hne). rewrite Hdef in Hd. simplify_eq.
    rewrite (GetRequiredFreshIdCount_supported s p' inst w sg Hinst Hop Ht)
      in Hreq. simplify_eq. }
  destruct (all_of_spec (fresh_ids message_) IsFreshId
              (fun id => bool_decide (id ∉ ids_in_use (ir_context s))) s)
    as (fresh & Hfresh & Hfiff).
  { intros x. reflexivity. }
  unfold bind at 1. rewrite Hfresh. destruct fresh; cbn [negb].
  - exists None. split; [done|].
    assert (Hno6 : ~ fails_check s message_ NonFreshId).
    { intros (id & Hin & Hf). unfold IsFreshId in Hf. injection Hf as Hf.
      destruct Hfiff as [Hall _]. rewrite Hall in Hf; done. }
    intros r. destruct r; done.
  - exists (Some NonFreshId). split; [done|]. split.
    + destruct (decide (Forall (fun id => bool_decide
                          (id ∉ ids_in_use (ir_context s))  = true)
                          (fresh_ids message_))) as [Hall|Hex].
      * assert (false = true); [|done]. apply Hfiff.
        by apply Forall_forall.
      * apply not_Forall_Exists in Hex; [|apply _].
        apply Exists_exists in Hex as (id & Hin & Hid).
        exists id. split; [done|]. unfold IsFreshId.
        by apply not_true_is_false in Hid as ->.
    + intros r' Hr'. destruct r'; simpl in Hr'; try lia; done.
Qed.

Lemma example_result_type_known :
  result_type_known (ir_context example_state) example_message.
Proof.
  intros inst Htgt _. vm_compute in Htgt. injection Htgt as <-.
  exists (Integer 8 false). split; [reflexivity|]. right. simpl. eauto.
Qed.

(** C2.  For an instruction with one of the three supported opcodes whose
    result type is an integer of width [w], [GetRequiredFreshIdCount]
    returns [4 * w - 1].  The widths of the data model, 8, 16, 32 and 64,
    all lie in the stated range, in which the [uint32_t] arithmetic does
    not wrap. *)
Theorem GetRequiredFreshIdCount_is_4w_minus_1 s p inst w sg :
  instruction_at (module_insts (ir_context s)) p = Some inst ->
  supported_opcode (opcode inst) ->
  type_mgr (ir_context s) !! type_id inst = Some (Integer w sg) ->
  1 <= w <= 2 ^ 30 ->
  GetRequiredFreshIdCount p s = Ok (4 * w - 1, s).
Proof.
  intros Hat Hop Hty Hw.
  rewrite (GetRequiredFreshIdCount_supported s p inst w sg Hat Hop Hty).
  do 2 f_equal. unfold wrap32.
  rewrite Zminus_mod_idemp_l. apply Z.mod_small. lia.
Qed.

Lemma GetRequiredFreshIdCount_is_4w_minus_1_witness :
  GetRequiredFreshIdCount 2%nat example_state = Ok (4 * 8 - 1, example_state).
Proof.
  apply (GetRequiredFreshIdCount_is_4w_minus_1
           example_state 2%nat example_target 8 false).
  - reflexivity.
  - right. left. reflexivity.
  - reflexivity.
  - lia.
Defined.

(** C3, as the code has it.  When the result type of a supported target
    is known to the type manager as a vector or an integer, [IsApplicable]
    returns false exactly when one of the six conditions holds and true
    exactly when none does, and the [return false] it takes is that of the
    first condition, in the order of the list, that fails. *)
Theorem IsApplicable_false_iff_a_check_fails message_ s :
  result_type_known (ir_context s) message_ ->
  (IsApplicable message_ s = Ok (false, s)
   <-> exists r, fails_check s message_ r) /\
  (IsApplicable message_ s = Ok (true, s)
   <-> forall r, ~ fails_check s message_ r) /\
  (forall r, IsApplicable_verdict message_ s = Ok (Some r, s)
             <-> first_failure s message_ r).
Proof.
  intros Hknown.
  destruct (IsApplicable_verdict_spec message_ s Hknown) as (v & Hv & Hspec).
  unfold IsApplicable, bind. rewrite Hv. unfold ret.
  destruct v as [r0|].
  - rewrite bool_decide_eq_false_2 by done. split; [|split].
    + split; [|done]. intros _. exists r0. apply Hspec.
    + split; [done|]. intros Hall. destruct (Hall r0). apply Hspec.
    + intros r. split.
      * intros Hr. by simplify_eq.
      * intros Hr. do 3 f_equal.
        by apply (first_failure_unique s message_).
  - rewrite bool_decide_eq_true_2 by done. split; [|split].
    + split; [done|]. intros [r Hr]. destruct (Hspec r Hr).
    + done.
    + intros r. split; [done|]. intros [Hr _]. destruct (Hspec r Hr).
Qed.

Lemma IsApplicable_false_iff_a_check_fails_witness :
  IsApplicable example_message example_state = Ok (true, example_state)
  <-> forall r, ~ fails_check example_state example_message r.
Proof.
  apply (IsApplicable_false_iff_a_check_fails example_message example_state).
  exact example_result_type_known.
Defined.

(** C3 does not hold for every module.  On the target whose result type
    is a float none of the six conditions holds, and yet [IsApplicable]
    does not return true: it returns nothing. *)
Lemma IsApplicable_no_answer_though_no_check_fails :
  (forall r, ~ fails_check float_state float_message r) /\
  IsApplicable float_message float_state <> Ok (true, float_state) /\
  IsApplicable float_message float_state <> Ok (false, float_state).
Proof.
  split; [|split; vm_compute; discriminate].
  intros r. destruct r; cbn [fails_check].
  - vm_compute. discriminate.
  - intros (inst & Hi & Hn). vm_compute in Hi. injection Hi as <-.
    apply Hn. by left.
  - intros (inst & e & n & Hi & Hv). vm_compute in Hi. injection Hi as <-.
    vm_compute in Hv. discriminate.
  - intros (inst & w & sg & i & Hi & Hv & _). vm_compute in Hi.
    injection Hi as <-. vm_compute in Hv. discriminate.
  - intros (p & n & Hd & Hn & _). vm_compute in Hd. injection Hd as <-.
    vm_compute in Hn. discriminate.
  - intros (id & Hid & _). by apply elem_of_nil in Hid.
Qed.

(** C8, as the code has it.  [IsApplicable] returns a boolean, and false
    for a vector, when the result type of a supported target is known to
    the type manager as a vector or an integer. *)
Theorem IsApplicable_returns_for_integer_or_vector message_ s :
  result_type_known (ir_context s) message_ ->
  exists b,
    IsApplicable message_ s = Ok (b, s) /\
    (forall inst e n,
        target_of (ir_context s) message_ = Some inst ->
        type_mgr (ir_context s) !! type_id inst = Some (Vector e n) ->
        b = false).
Proof.
  intros Hknown.
  destruct (IsApplicable_verdict_spec message_ s Hknown) as (v & Hv & Hspec).
  unfold IsApplicable, bind. rewrite Hv. unfold ret.
  eexists. split; [reflexivity|].
  intros inst e n Htgt Hty. destruct v as [r|]; [by apply bool_decide_eq_false_2|].
  destruct (Hspec VectorResultType). exists inst, e, n. done.
Qed.

Lemma IsApplicable_returns_for_integer_or_vector_witness :
  exists b,
    IsApplicable example_message example_state = Ok (b, example_state) /\
    (forall inst e n,
        target_of (ir_context example_state) example_message = Some inst ->
        type_mgr (ir_context example_state) !! type_id inst
        = Some (Vector e n) ->
        b = false).
Proof.
  apply (IsApplicable_returns_for_integer_or_vector
           example_message example_state).
  exact example_result_type_known.
Defined.

(** C8, as stated, fails: on a target whose result type is a float,
    [AsInteger()] is null and [IsApplicable] dereferences it. *)
Lemma IsApplicable_faults_on_float :
  IsApplicable float_message float_state = Fault NullDereference /\
  ~ exists b s', IsApplicable float_message float_state = Ok (b, s').
Proof.
  assert (H : IsApplicable float_message float_state = Fault NullDereference)
    by (vm_compute; reflexivity).
  split; [exact H|]. intros (b & s' & Hb). rewrite H in Hb. discriminate.
Qed.

(** C9.  [IsApplicable] leaves the state it runs in as it is: the module
    with its id bound and its valid analyses, the facts, the iterator and
    the log of mutating calls.  Run twice in succession it answers the same
    both times, and the state after the second run is still the first
    one. *)
Theorem IsApplicable_has_no_side_effects message_ s :
  match IsApplicable message_ s with
  | Ok (b, s') =>
      s' = s /\
      (b1 <- IsApplicable message_ ;; b2 <- IsApplicable message_ ;;
       ret (b1, b2)) s = Ok ((b, b), s)
  | Fault f =>
      (b1 <- IsApplicable message_ ;; b2 <- IsApplicable message_ ;;
       ret (b1, b2)) s = Fault f
  end.
Proof.
  destruct (IsApplicable message_ s) as [[b s']|f] eqn:E.
  - assert (s' = s) as -> by (eapply reads_IsApplicable; eauto).
    split; [done|]. unfold bind. rewrite E, E. done.
  - unfold bind. by rewrite E.
Qed.

(** ** Facts about [emitted] *)

Lemma emitted_app p l1 l2 s :
  emitted p (l1 ++ l2) s = emitted p l2 (emitted p l1 s).
Proof. apply foldl_app. Qed.

Lemma emitted_snoc p l inst s :
  emitted p (l ++ [inst]) s = emit1 p (emitted p l s) inst.
Proof. by rewrite emitted_app. Qed.

Lemma type_mgr_emitted p l s :
  type_mgr (ir_context (emitted p l s)) = type_mgr (ir_context s).
Proof.
  revert s. induction l as [|i l IH]; intros s; [done|].
  unfold emitted in *. simpl. by rewrite IH.
Qed.

Lemma constant_mgr_emitted p l s :
  constant_mgr (ir_context (emitted p l s)) = constant_mgr (ir_context s).
Proof.
  revert s. induction l as [|i l IH]; intros s; [done|].
  unfold emitted in *. simpl. by rewrite IH.
Qed.

Lemma valid_analyses_emitted p l s :
  valid_analyses (ir_context (emitted p l s)) = valid_analyses (ir_context s).
Proof.
  revert s. induction l as [|i l IH]; intros s; [done|].
  unfold emitted in *. simpl. by rewrite IH.
Qed.

Lemma transformation_context_emitted p l s :
  transformation_context (emitted p l s) = transformation_context s.
Proof.
  revert s. induction l as [|i l IH]; intros s; [done|].
  unfold emitted in *. simpl. by rewrite IH.
Qed.

Lemma fresh_id_emitted p l s :
  fresh_id (emitted p l s) = drop (length l) (fresh_id s).
Proof.
  revert s. induction l as [|i l IH]; intros s; [done|].
  unfold emitted in *. simpl. rewrite IH. simpl.
  destruct (fresh_id s); [|done]. simpl. by rewrite drop_nil.
Qed.

Lemma module_id_bound_emitted p l s :
  module_id_bound (ir_context (emitted p l s))
  = bound_after (module_id_bound (ir_context s)) (map result_id l).
Proof.
  revert s. induction l as [|i l IH]; intros s; [done|].
  unfold emitted in *. simpl. by rewrite IH.
Qed.

Lemma log_emitted p l s :
  log (emitted p l s)
  = log s ++ emit_log (module_id_bound (ir_context s)) l.
Proof.
  revert s. induction l as [|i l IH]; intros s.
  - simpl. by rewrite app_nil_r.
  - unfold emitted in *. simpl. rewrite IH. simpl. by rewrite <- app_assoc.
Qed.

Lemma module_insts_emitted p l s pre target post :
  module_insts (ir_context s) = pre ++ target :: post ->
  p = S (length post) ->
  module_insts (ir_context (emitted p l s)) = pre ++ l ++ target :: post.
Proof.
  intros Hs ->. revert s pre Hs.
  induction l as [|i l IH]; intros s pre Hs; [done|].
  unfold emitted in *. simpl.
  rewrite (IH _ (pre ++ [i])).
  - by rewrite <- app_assoc.
  - simpl. rewrite Hs. apply insert_before_split.
Qed.

Lemma find_integer_constant_emitted p l s ws w sg :
  find_integer_constant (ir_context (emitted p l s)) ws w sg
  = find_integer_constant (ir_context s) ws w sg.
Proof.
  unfold find_integer_constant, is_integer_constant.
  by rewrite type_mgr_emitted, constant_mgr_emitted.
Qed.

Lemma instruction_at_inv l p target :
  instruction_at l p = Some target ->
  exists pre post, l = pre ++ target :: post /\ p = S (length post).
Proof.
  unfold instruction_at. case_bool_decide as Hp; [|discriminate].
  intros Hl. exists (take (length l - p) l), (drop (S (length l - p)) l).
  split.
  - rewrite <- (take_drop (length l - p) l) at 1. f_equal.
    by apply drop_S.
  - rewrite length_drop. lia.
Qed.

(** ** A loop rule for [for_range] *)

Lemma for_range_invariant {A} (I : nat -> A -> State -> Prop) n i0
    (body : Z -> A -> M A) acc s :
  I 0%nat acc s ->
  (forall k acc s, (k < n)%nat -> I k acc s ->
     exists acc' s', body (i0 + Z.of_nat k) acc s = Ok (acc', s') /\
                     I (S k) acc' s') ->
  exists acc' s', for_range n i0 body acc s = Ok (acc', s') /\ I n acc' s'.
Proof.
  revert I i0 acc s. induction n as [|n IH]; intros I i0 acc s H0 Hstep.
  - exists acc, s. done.
  - simpl. unfold bind at 1.
    destruct (Hstep 0%nat acc s) as (acc1 & s1 & Hrun & H1); [lia|done|].
    rewrite Z.add_0_r in Hrun. rewrite Hrun.
    destruct (IH (fun k => I (S k)) (i0 + 1) acc1 s1 H1) as (acc' & s' & Hr & Hn).
    + intros k acc2 s2 Hk Hk2.
      destruct (Hstep (S k) acc2 s2) as (acc3 & s3 & Hrun3 & H3); [lia|done|].
      exists acc3, s3. split; [|done]. rewrite <- Hrun3. f_equal. lia.
    + exists acc', s'. done.
Qed.

(** ** Running monadic code step by step *)

Lemma run_bind {A B} (c : M A) (k : A -> M B) s a s' :
  c s = Ok (a, s') -> bind c k s = k a s'.
Proof. intros H. unfold bind. by rewrite H. Qed.

Lemma run_bind_assoc {A B C} (c : M A) (k1 : A -> M B) (k2 : B -> M C) s :
  bind (bind c k1) k2 s = bind c (fun a => bind (k1 a) k2) s.
Proof. unfold bind. by destruct (c s) as [[a s']|]. Qed.

Lemma run_emit {A} p (mk : Z -> Instruction) (k : Z -> M A) s f fs :
  fresh_id s = f :: fs ->
  (forall id, result_id (mk id) = id) ->
  bind next_fresh_id
    (fun id => bind (InsertBefore p (mk id))
       (fun _ => bind (UpdateModuleIdBound (result_id (mk id)))
          (fun _ => k id))) s
  = k f (emit1 p s (mk f)).
Proof.
  intros Hf Hid. unfold bind, next_fresh_id, InsertBefore, UpdateModuleIdBound.
  rewrite Hf. simpl. unfold emit1. rewrite Hf, !Hid. simpl.
  by rewrite <- app_assoc.
Qed.

Lemma run_emit_ret {A B} p (mk : Z -> Instruction) (r : Z -> B)
    (k : B -> M A) s f fs :
  fresh_id s = f :: fs ->
  (forall id, result_id (mk id) = id) ->
  bind next_fresh_id
    (fun id => bind (bind (InsertBefore p (mk id))
                       (fun _ => bind (UpdateModuleIdBound (result_id (mk id)))
                                   (fun _ => ret (r id)))) k) s
  = k (r f) (emit1 p s (mk f)).
Proof.
  intros Hf Hid. unfold bind, next_fresh_id, InsertBefore, UpdateModuleIdBound.
  rewrite Hf. simpl. unfold emit1. rewrite Hf, !Hid. simpl.
  by rewrite <- app_assoc.
Qed.

Lemma run_at_index {A} (v : list Z) i x (k : Z -> M A) s :
  v !! Z.to_nat i = Some x -> bind (at_index v i) k s = k x s.
Proof. intros H. unfold bind, at_index. by rewrite H. Qed.

Lemma last_app_cons {A} (l1 : list A) x l2 d :
  List.last (l1 ++ x :: l2) d = List.last (x :: l2) d.
Proof.
  induction l1 as [|a l1 IH]; [done|].
  rewrite <- IH. simpl.
  destruct (l1 ++ x :: l2) eqn:E; [destruct l1; discriminate | done].
Qed.

Lemma drop_nth_cons (l : list Z) j :
  (j < length l)%nat -> drop j l = nth j l 0 :: drop (S j) l.
Proof.
  intros Hj. destruct (lookup_lt_is_Some_2 l j Hj) as [x Hx].
  rewrite (drop_S l x j Hx). f_equal.
  by rewrite nth_lookup, Hx.
Qed.

Lemma filter_none_preserved (l : list Analysis) :
  filter (fun a => a ∈ kAnalysisNone) l = [].
Proof.
  induction l as [|a l IH]; [done|].
  rewrite filter_cons_False; [done|]. unfold kAnalysisNone. apply not_elem_of_nil.
Qed.

Lemma spec_phase_A_S ir target opx opy f k :
  spec_phase_A ir target opx opy f (S k)
  = spec_phase_A ir target opx opy f k ++ spec_triple ir target opx opy f k.
Proof.
  unfold spec_phase_A. rewrite seq_S, flat_map_app. done.
Qed.

Lemma length_spec_phase_A ir target opx opy f k :
  length (spec_phase_A ir target opx opy f k) = (3 * k)%nat.
Proof.
  induction k as [|k IH]; [done|].
  rewrite spec_phase_A_S, length_app, IH. simpl. lia.
Qed.

Section Run.
Context (message_ : Message) (s : State) (p : InstructionPtr).
Context (target : Instruction) (opx opy : Operand) (w : Z) (sg : bool).
Hypothesis Hat :
  instruction_at (module_insts (ir_context s)) p = Some target.
Hypothesis Hops : in_operands target = [opx; opy].
Hypothesis Hty :
  type_mgr (ir_context s) !! type_id target = Some (Integer w sg).
Hypothesis Hw : 2 <= w.
Hypothesis Hlen : Z.of_nat (length (fresh_ids message_)) = 4 * w - 1.

Let W := Z.to_nat w.
Let f := fun j => nth j (fresh_ids message_) 0.
Let ir := ir_context s.
Let s0 := mkState (ir_context s) (transformation_context s)
            (fresh_ids message_) (log s).

Lemma AddBitwiseSynonym_run :
  AddBitwiseSynonym message_ p s
  = Ok (tt, synonym_added message_ p target
              (spec_chain ir target opx opy (fresh_ids message_) W) s).
Proof.
  unfold AddBitwiseSynonym.
  rewrite (run_bind _ _ s tt s0) by reflexivity.
  rewrite (run_bind _ _ s0 target s0)
    by (unfold load; simpl; by rewrite Hat).
  rewrite (run_bind _ _ s0 (Some (Integer w sg)) s0)
    by (unfold GetType; simpl; by rewrite Hty).
  rewrite (run_bind _ _ s0 (Integer w sg) s0) by reflexivity.
  rewrite (run_bind _ _ s0 (w, sg) s0) by reflexivity.
  cbv zeta. simpl fst.
  rewrite (run_bind _ _ s0 (index_constant ir 1) s0) by reflexivity.
  assert (HW : Z.of_nat W = w) by (unfold W; lia).
  assert (Hfresh1 : forall l,
             (length l < length (fresh_ids message_))%nat ->
             fresh_id (emitted p l s0)
             = f (length l) :: drop (S (length l)) (fresh_ids message_)).
  { intros l Hl. rewrite fresh_id_emitted. simpl fresh_id.
    by rewrite drop_nth_cons by lia. }
  assert (Hfresh3 : forall l,
             (length l + 3 <= length (fresh_ids message_))%nat ->
             fresh_id (emitted p l s0)
             = f (length l) :: f (length l + 1)%nat :: f (length l + 2)%nat
               :: drop (length l + 3)%nat (fresh_ids message_)).
  { intros l Hl. rewrite fresh_id_emitted. simpl fresh_id.
    rewrite !drop_nth_cons by lia. unfold f.
    by replace (S (length l)) with (length l + 1)%nat by lia;
       replace (S (length l + 1)) with (length l + 2)%nat by lia;
       replace (S (length l + 2)) with (length l + 3)%nat by lia. }
  (* Phase A *)
  match goal with
  | |- context [for_range ?n ?i ?body ?acc] =>
      destruct (for_range_invariant
                  (fun k bws sk =>
                     sk = emitted p (spec_phase_A ir target opx opy f k) s0
                     /\ length bws = W
                     /\ forall j, (j < k)%nat ->
                                  bws !! j = Some (f (3 * j + 2)%nat))
                  n i body acc s0)
        as (bitwise_ids & sA & HrunA & -> & HlenA & HidsA)
  end.
  { split; [done|]. split; [apply length_replicate|]. lia. }
  { intros k bws sk Hk (Hsk & Hlb & Hb).
    assert (Hfr := Hfresh3 (spec_phase_A ir target opx opy f k)).
    rewrite length_spec_phase_A, <- Hsk in Hfr.
    specialize (Hfr ltac:(lia)).
    exists (<[k := f (3 * k + 2)%nat]> bws),
      (emitted p (spec_triple ir target opx opy f k) sk).
    split.
    - rewrite Z.add_0_l.
      rewrite (run_bind _ _ sk (index_constant ir (Z.of_nat k)) sk)
        by (unfold MaybeGetIntegerConstant; subst sk;
            by rewrite find_integer_constant_emitted).
      rewrite Hops. cbn [for_each].
      rewrite !run_bind_assoc.
      etrans; [eapply (run_emit_ret p); [apply Hfr | done] |].
      cbv beta.
      rewrite !run_bind_assoc.
      etrans; [eapply (run_emit_ret p);
               [simpl; rewrite Hfr; reflexivity | done] |].
      cbv beta.
      rewrite (run_bind _ _ _ _ _ eq_refl).
      rewrite (run_bind _ _ _ _ _ eq_refl).
      rewrite (run_bind _ _ _ _ _ eq_refl).
      etrans; [eapply (run_emit p);
               [simpl; rewrite Hfr; reflexivity | done] |].
      cbv beta.
      unfold assign_index. rewrite Nat2Z.id.
      rewrite bool_decide_eq_true_2 by lia. reflexivity.
    - split; [|split].
      + by rewrite spec_phase_A_S, emitted_app, <- Hsk.
      + by rewrite length_insert.
      + intros j Hj. destruct (decide (j = k)) as [->|Hne].
        * apply list_lookup_insert_eq. lia.
        * rewrite list_lookup_insert_ne by done. apply Hb. lia. }
  rewrite (run_bind _ _ _ _ _ HrunA).
  set (A := spec_phase_A ir target opx opy f W).
  rewrite (run_bind _ _ _ (index_constant ir 1) (emitted p A s0))
    by (unfold MaybeGetIntegerConstant;
        by rewrite find_integer_constant_emitted).
  rewrite (run_at_index bitwise_ids 0 (f 2%nat))
    by (apply (HidsA 0%nat); lia).
  rewrite (run_at_index bitwise_ids 1 (f 5%nat))
    by (apply (HidsA 1%nat); lia).
  assert (HlenAi : length A = (3 * W)%nat) by apply length_spec_phase_A.
  etrans; [eapply (run_emit p); [apply Hfresh1; lia | done] |].
  cbv beta.
  (* Phase B *)
  match goal with
  | |- context [for_range ?n ?i ?body ?acc] =>
      destruct (for_range_invariant
                  (fun j bit_insert sk =>
                     let B := spec_first_insert ir target f W
                              :: map (spec_next_insert ir target f W)
                                   (seq 2 j) in
                     sk = emitted p (A ++ B) s0
                     /\ bit_insert = List.last B target
                     /\ result_id bit_insert = f (3 * W + j)%nat)
                  n i body acc (emit1 p (emitted p A s0) acc))
        as (bit_insert & sB & HrunB & HsB & HlastB & HidB)
  end.
  { cbv zeta. rewrite HlenAi. cbn [seq map]. split; [|split].
    - by rewrite emitted_snoc.
    - reflexivity.
    - simpl. f_equal. lia. }
  { intros j acc sk Hj (Hsk & Hacc & Hid). cbv zeta in Hsk, Hacc.
    set (B := spec_first_insert ir target f W
              :: map (spec_next_insert ir target f W) (seq 2 j)) in *.
    set (new := spec_next_insert ir target f W (2 + j)).
    assert (HlenB : length (A ++ B) = (3 * W + 1 + j)%nat).
    { rewrite length_app, HlenAi. unfold B. simpl.
      rewrite length_map, length_seq. lia. }
    assert (Hfr := Hfresh1 (A ++ B)). rewrite HlenB, <- Hsk in Hfr.
    specialize (Hfr ltac:(lia)).
    exists new, (emit1 p sk new). split.
    - rewrite (run_bind _ _ sk (index_constant ir (2 + Z.of_nat j)) sk)
        by (unfold MaybeGetIntegerConstant; subst sk;
            by rewrite find_integer_constant_emitted).
      rewrite (run_at_index bitwise_ids _ (f (3 * (2 + j) + 2)%nat))
        by (replace (Z.to_nat (2 + Z.of_nat j)) with (2 + j)%nat by lia;
            apply HidsA; lia).
      etrans; [eapply (run_emit p); [apply Hfr | done] |].
      cbv beta. unfold ret. do 2 f_equal.
      + unfold new, spec_next_insert, bit_insert_inst. rewrite Hid.
        repeat (f_equal; try lia).
      + f_equal. unfold new, spec_next_insert, bit_insert_inst.
        rewrite Hid. repeat (f_equal; try lia).
    - cbv zeta. rewrite seq_S, map_app. cbn [map].
      change (spec_next_insert ir target f W (2 + j)) with new.
      change (spec_first_insert ir target f W
              :: map (spec_next_insert ir target f W) (seq 2 j) ++ [new])
        with (B ++ [new]).
      split; [|split].
      + by rewrite Hsk, app_assoc, emitted_snoc.
      + by rewrite last_last.
      + unfold new. simpl. f_equal. lia. }
  cbv zeta in HsB, HlastB.
  rewrite (run_bind _ _ _ _ _ HrunB).
  replace (Z.to_nat (w - 2)) with (W - 2)%nat in * by lia.
  fold (spec_phase_B ir target f W) in HsB, HlastB.
  assert (Hlast : List.last (spec_chain ir target opx opy (fresh_ids message_) W)
                    target = bit_insert).
  { unfold spec_chain. fold f. fold A. rewrite HlastB.
    unfold spec_phase_B. apply last_app_cons. }
  unfold InvalidateAnalysesExceptFor, AddFactDataSynonym, bind.
  unfold synonym_added. cbv zeta. rewrite Hlast.
  subst sB. simpl. rewrite filter_none_preserved, <- app_assoc.
  reflexivity.
Qed.
End Run.

(** ** What a true answer of [IsApplicable] means *)

Lemma IsApplicable_true_inv message_ s s' :
  IsApplicable message_ s = Ok (true, s') ->
  exists p target w sg,
    find_def (module_insts (ir_context s)) (instruction_result_id message_)
    = Some p /\
    instruction_at (module_insts (ir_context s)) p = Some target /\
    supported_opcode (opcode target) /\
    type_mgr (ir_context s) !! type_id target = Some (Integer w sg) /\
    (forall i, 0 <= i < w -> index_constant (ir_context s) i <> 0) /\
    Z.of_nat (length (fresh_ids message_)) = wrap32 (wrap32 (4 * w) - 1) /\
    (forall id, id ∈ fresh_ids message_ -> id ∉ ids_in_use (ir_context s)).
Proof.
  unfold IsApplicable. unfold bind at 1.
  destruct (IsApplicable_verdict message_ s) as [[v s1]|] eqn:Hv;
    [|discriminate].
  unfold ret. intros [= Hb _]. apply bool_decide_eq_true_1 in Hb. subst v.
  revert Hv. unfold IsApplicable_verdict.
  unfold bind at 1, GetDef at 1.
  destruct (find_def _ _) as [p|] eqn:Hdef; [|discriminate].
  unfold bind at 1, load at 1.
  destruct (instruction_at _ _) as [target|] eqn:Hat; [|discriminate].
  rewrite unsupported_test. case_bool_decide as Hop; [discriminate|].
  unfold bind at 1, GetType at 1.
  destruct (type_mgr (ir_context s) !! type_id target) as [t|] eqn:Ht;
    [|discriminate].
  unfold bind at 1. simpl deref. unfold ret at 1.
  case_bool_decide as Hvec; [discriminate|].
  unfold bind at 1, GetType at 1. rewrite Ht.
  unfold bind at 1. simpl deref. unfold ret at 1. unfold bind at 1.
  destruct t as [|w sg| |]; try discriminate.
  simpl deref. unfold ret at 1. cbv zeta. simpl fst.
  destruct (all_in_range_spec (Z.to_nat w) 0
              (fun i => c <- MaybeGetIntegerConstant [i] 32 false false ;;
                        ret (negb (c =? 0)))
              (fun i => negb (find_integer_constant (ir_context s) [i] 32 false
                              =? 0)) s) as (found & Hfound & Hiff).
  { intros j. reflexivity. }
  unfold bind at 1. rewrite Hfound. destruct found; [|discriminate].
  cbn [negb]. unfold bind at 1.
  rewrite (GetRequiredFreshIdCount_supported s p target w sg Hat Hop Ht).
  destruct (Z.eqb_spec (Z.of_nat (length (fresh_ids message_)))
              (wrap32 (wrap32 (4 * w) - 1))) as [Hlen|Hlen];
    [|discriminate].
  cbn [negb].
  destruct (all_of_spec (fresh_ids message_) IsFreshId
              (fun id => bool_decide (id ∉ ids_in_use (ir_context s))) s)
    as (fresh & Hfresh & Hfiff).
  { intros x. reflexivity. }
  unfold bind at 1. rewrite Hfresh. destruct fresh; [|discriminate].
  intros _. exists p, target, w, sg. repeat split; try done.
  - intros i Hi Hc.
    assert (Hg : negb (find_integer_constant (ir_context s) [i] 32 false
                       =? 0) = true) by (apply Hiff; [done | lia]).
    unfold index_constant in Hc. rewrite Hc in Hg. done.
  - intros id Hid. destruct Hfiff as [Hall _].
    specialize (Hall eq_refl id Hid). by apply bool_decide_eq_true_1 in Hall.
Qed.

Lemma wrap32_required w :
  1 <= w <= 2 ^ 30 -> wrap32 (wrap32 (4 * w) - 1) = 4 * w - 1.
Proof.
  intros Hw. unfold wrap32.
  rewrite Zminus_mod_idemp_l. apply Z.mod_small. lia.
Qed.

(** ** Running [Apply] *)

Lemma Apply_run message_ s p target opx opy w sg :
  find_def (module_insts (ir_context s)) (instruction_result_id message_)
  = Some p ->
  instruction_at (module_insts (ir_context s)) p = Some target ->
  supported_opcode (opcode target) ->
  in_operands target = [opx; opy] ->
  type_mgr (ir_context s) !! type_id target = Some (Integer w sg) ->
  2 <= w ->
  Z.of_nat (length (fresh_ids message_)) = 4 * w - 1 ->
  Apply message_ s
  = Ok (tt, applied message_ p target
              (spec_chain (ir_context s) target opx opy (fresh_ids message_)
                 (Z.to_nat w)) s).
Proof.
  intros Hdef Hat Hop Hops Hty Hw Hlen. unfold Apply.
  rewrite (run_bind _ _ s (Some p) s) by (unfold GetDef; by rewrite Hdef).
  rewrite (run_bind _ _ s p s) by reflexivity.
  rewrite (run_bind _ _ s target s) by (unfold load; by rewrite Hat).
  assert (Hrun := AddBitwiseSynonym_run message_ s p target opx opy w sg
                    Hat Hops Hty Hw Hlen).
  assert (Hmatch :
            match opcode target with
            | SpvOpBitwiseOr | SpvOpBitwiseXor | SpvOpBitwiseAnd =>
                AddBitwiseSynonym message_ p
            | _ => fail AssertionFailure
            end = AddBitwiseSynonym message_ p).
  { by destruct Hop as [Ho|[Ho|Ho]]; rewrite Ho. }
  rewrite Hmatch. rewrite (run_bind _ _ _ _ _ Hrun).
  unfold InvalidateAnalysesExceptFor, synonym_added, applied. cbv zeta.
  simpl. rewrite <- app_assoc. reflexivity.
Qed.

(** ** The shape of the chain *)

Lemma map_nth_seq (l : list Z) :
  map (fun j => nth j l 0) (seq 0 (length l)) = l.
Proof.
  induction l as [|a l IH]; [done|].
  simpl. f_equal. rewrite <- seq_shift, map_map. exact IH.
Qed.

Section ChainFacts.
Context (ir : IRContext) (target : Instruction) (opx opy : Operand).
Context (fresh : list Z) (W : nat).
Hypothesis HW : (2 <= W)%nat.
Hypothesis Hlen : length fresh = (4 * W - 1)%nat.

Let f := fun j => nth j fresh 0.
Let A := spec_phase_A ir target opx opy f W.
Let B := spec_phase_B ir target f W.
Let chain := spec_chain ir target opx opy fresh W.

Lemma length_spec_phase_B : length B = (W - 1)%nat.
Proof.
  unfold B, spec_phase_B. simpl. rewrite length_map, length_seq. lia.
Qed.

Lemma length_spec_chain : length chain = (4 * W - 1)%nat.
Proof.
  unfold chain, spec_chain. rewrite length_app, length_spec_phase_A.
  fold f. fold B. rewrite length_spec_phase_B. lia.
Qed.

Lemma result_ids_spec_phase_A k :
  map result_id (spec_phase_A ir target opx opy f k)
  = map f (seq 0 (3 * k)).
Proof.
  induction k as [|k IH]; [done|].
  rewrite spec_phase_A_S, map_app, IH.
  replace (3 * S k)%nat with (3 * k + 3)%nat by lia.
  rewrite seq_app, map_app. simpl.
  by replace (k + (k + (k + 0)) + 1)%nat with (S (k + (k + (k + 0))))
       by lia;
     replace (k + (k + (k + 0)) + 2)%nat with (S (S (k + (k + (k + 0)))))
       by lia.
Qed.

Lemma result_ids_spec_phase_B :
  map result_id B = map f (seq (3 * W) (W - 1)).
Proof.
  unfold B, spec_phase_B.
  replace (W - 1)%nat with (S (W - 2)) by lia.
  simpl. f_equal. rewrite map_map.
  replace (S (W + (W + (W + 0)))) with (3 * W - 1 + 2)%nat by lia.
  rewrite <- (fmap_add_seq (3 * W - 1) 2 (W - 2)).
  rewrite <- list_fmap_compose.
  apply map_ext_in. intros k Hk. apply in_seq in Hk.
  simpl. f_equal. lia.
Qed.

Lemma result_ids_spec_chain : map result_id chain = fresh.
Proof.
  unfold chain, spec_chain. rewrite map_app. fold f. fold B.
  rewrite result_ids_spec_phase_A, result_ids_spec_phase_B.
  rewrite <- map_app, <- seq_app.
  replace (3 * W + (W - 1))%nat with (length fresh) by lia.
  apply map_nth_seq.
Qed.

Lemma last_spec_chain :
  result_id (List.last chain target) = f (4 * W - 2)%nat /\
  opcode (List.last chain target) = SpvOpBitFieldInsert.
Proof.
  unfold chain, spec_chain, spec_phase_B. rewrite last_app_cons.
  destruct (W - 2)%nat as [|n] eqn:E.
  - cbn [seq map List.last]. split; [|done].
    unfold spec_first_insert, bit_insert_inst, f. cbn [result_id].
    f_equal. lia.
  - rewrite seq_S, map_app. cbn [map].
    rewrite app_comm_cons, last_last. split; [|done].
    unfold spec_next_insert, bit_insert_inst, f. cbn [result_id].
    f_equal. lia.
Qed.

Lemma type_ids_spec_chain :
  Forall (fun inst => type_id inst = type_id target) chain.
Proof.
  unfold chain, spec_chain, spec_phase_A, spec_phase_B.
  apply Forall_app. split.
  - apply Forall_forall. intros inst Hin.
    apply list_elem_of_In, in_flat_map in Hin as (k & _ & Hin).
    simpl in Hin. by destruct Hin as [<-|[<-|[<-|[]]]].
  - apply Forall_cons. split; [done|].
    apply Forall_forall. intros inst Hin.
    by apply list_elem_of_In, in_map_iff in Hin as (k & <- & _).
Qed.
End ChainFacts.

(** ** Applying to a validated descriptor *)

Lemma Apply_of_applicable message_ s target x y w :
  IsApplicable message_ s = Ok (true, s) ->
  binary_integer_target (ir_context s) message_ target x y w ->
  exists p pre post,
    find_def (module_insts (ir_context s)) (instruction_result_id message_)
    = Some p /\
    module_insts (ir_context s) = pre ++ target :: post /\
    p = S (length post) /\
    result_id target = instruction_result_id message_ /\
    length (fresh_ids message_) = (4 * Z.to_nat w - 1)%nat /\
    supported_opcode (opcode target) /\
    (forall i, 0 <= i < w -> index_constant (ir_context s) i <> 0) /\
    (forall id, id ∈ fresh_ids message_ -> id ∉ ids_in_use (ir_context s)) /\
    Apply message_ s
    = Ok (tt, applied message_ p target
                (spec_chain (ir_context s) target (IdOperand [x])
                   (IdOperand [y]) (fresh_ids message_) (Z.to_nat w)) s).
Proof.
  intros Happ (Htgt & Hops & [sg Hty] & Hw).
  destruct (IsApplicable_true_inv _ _ _ Happ)
    as (p & target' & w' & sg' & Hdef & Hat & Hop & Hty' & Hc & Hlen & Hfr).
  unfold target_of in Htgt. rewrite Hdef, Hat in Htgt.
  injection Htgt as ->. rewrite Hty in Hty'. injection Hty' as <- <-.
  rewrite wrap32_required in Hlen by lia.
  destruct (instruction_at_inv _ _ _ Hat) as (pre & post & Hsplit & Hp).
  exists p, pre, post. repeat split; try done.
  - by apply (find_def_result_id (module_insts (ir_context s)) _ p).
  - lia.
  - apply (Apply_run message_ s p target _ _ w sg); try done. lia.
Qed.

Section Applied.
Context (message_ : Message) (s : State) (p : InstructionPtr).
Context (target : Instruction) (chain : list Instruction).

Let s' := applied message_ p target chain s.

Lemma module_insts_applied pre post :
  module_insts (ir_context s) = pre ++ target :: post ->
  p = S (length post) ->
  module_insts (ir_context s') = pre ++ chain ++ target :: post.
Proof.
  intros Hs Hp. unfold s', applied. simpl.
  by apply module_insts_emitted.
Qed.

Lemma type_mgr_applied :
  type_mgr (ir_context s') = type_mgr (ir_context s).
Proof. unfold s', applied. simpl. by rewrite type_mgr_emitted. Qed.

Lemma constant_mgr_applied :
  constant_mgr (ir_context s') = constant_mgr (ir_context s).
Proof. unfold s', applied. simpl. by rewrite constant_mgr_emitted. Qed.

Lemma module_id_bound_applied :
  module_id_bound (ir_context s')
  = bound_after (module_id_bound (ir_context s)) (map result_id chain).
Proof. unfold s', applied. simpl. by rewrite module_id_bound_emitted. Qed.

Lemma synonym_facts_applied :
  synonym_facts (transformation_context s')
  = synonym_facts (transformation_context s)
    ++ [(MakeDataDescriptor (result_id (List.last chain target)) [],
         MakeDataDescriptor (result_id target) [])].
Proof.
  unfold s', applied. simpl. by rewrite transformation_context_emitted.
Qed.

Lemma fresh_id_applied :
  fresh_id s' = drop (length chain) (fresh_ids message_).
Proof. unfold s', applied. simpl. by rewrite fresh_id_emitted. Qed.

Lemma log_applied :
  log s'
  = log s
    ++ emit_log (module_id_bound (ir_context s)) chain
    ++ [EvInvalidateAnalyses;
        EvAddFactDataSynonym
          (MakeDataDescriptor (result_id (List.last chain target)) [])
          (MakeDataDescriptor (result_id target) []);
        EvInvalidateAnalyses].
Proof.
  unfold s', applied. simpl. by rewrite log_emitted, <- app_assoc.
Qed.
End Applied.

(** C4.  For a descriptor [IsApplicable] accepts, [Apply] returns and has
    put the chain of the spec directly before the target: [3 * w]
    instructions of phase A, then [w - 1] inserts.  The [j]-th new
    instruction has the [j]-th fresh id as its result id, and the iterator
    ends at the end of the sequence. *)
Theorem Apply_emits_the_chain message_ s target x y w :
  IsApplicable message_ s = Ok (true, s) ->
  binary_integer_target (ir_context s) message_ target x y w ->
  let f := fun j => nth j (fresh_ids message_) 0 in
  let A := spec_phase_A (ir_context s) target (IdOperand [x]) (IdOperand [y])
             f (Z.to_nat w) in
  let B := spec_phase_B (ir_context s) target f (Z.to_nat w) in
  exists s' pre post,
    Apply message_ s = Ok (tt, s') /\
    module_insts (ir_context s) = pre ++ target :: post /\
    module_insts (ir_context s') = pre ++ (A ++ B) ++ target :: post /\
    Z.of_nat (length A) = 3 * w /\
    Z.of_nat (length B) = w - 1 /\
    Z.of_nat (length (fresh_ids message_)) = 4 * w - 1 /\
    map result_id (A ++ B) = fresh_ids message_ /\
    fresh_id s' = [].
Proof.
  intros Happ Htgt f A B.
  destruct (Apply_of_applicable _ _ _ _ _ _ Happ Htgt)
    as (p & pre & post & Hdef & Hsplit & Hp & Hrid & Hlen & Hop & Hc & Hfr
         & Hrun).
  destruct Htgt as (_ & _ & _ & Hw).
  eexists _, pre, post. split; [exact Hrun|].
  assert (HW : (2 <= Z.to_nat w)%nat) by lia.
  repeat split.
  - done.
  - by apply module_insts_applied.
  - unfold A. rewrite length_spec_phase_A. lia.
  - unfold B, f. rewrite length_spec_phase_B by done. lia.
  - lia.
  - by apply result_ids_spec_chain.
  - rewrite fresh_id_applied, length_spec_chain by done.
    rewrite <- Hlen. apply drop_all.
Qed.

Section ChainOperands.
Context (ir : IRContext) (target : Instruction) (x y : Z).
Context (fresh : list Z) (W : nat).
Hypothesis HW : (2 <= W)%nat.
Hypothesis Hlen : length fresh = (4 * W - 1)%nat.

Let f := fun j => nth j fresh 0.
Let opx := IdOperand [x].
Let opy := IdOperand [y].

Lemma operands_defined_app start l1 l2 :
  operands_defined ir x y fresh W start l1 ->
  operands_defined ir x y fresh W (start + length l1) l2 ->
  operands_defined ir x y fresh W start (l1 ++ l2).
Proof.
  intros H1 H2 i inst id Hi Hid.
  apply lookup_app_Some in Hi as [Hi|[Hge Hi]].
  - by apply (H1 i inst).
  - replace (start + i)%nat
      with (start + length l1 + (i - length l1))%nat by lia.
    by apply (H2 _ inst).
Qed.

Ltac operand_cases H :=
  simpl in H;
  repeat (apply elem_of_cons in H as [H|H]; [subst|]);
  [..|by apply not_elem_of_nil in H].

Lemma operands_defined_triple k :
  (k < W)%nat ->
  operands_defined ir x y fresh W (3 * k) (spec_triple ir target opx opy f k).
Proof.
  intros Hk i inst id Hi Hid.
  destruct i as [|[|[|i]]]; simpl in Hi; [| | |done];
    injection Hi as <-; operand_cases Hid.
  - by left.
  - right; right; left. eauto.
  - right; right; left. exists 1%nat. split; [lia|done].
  - by right; left.
  - right; right; left. eauto.
  - right; right; left. exists 1%nat. split; [lia|done].
  - right; right; right. exists (3 * k)%nat. repeat split; lia.
  - right; right; right. exists (3 * k + 1)%nat. repeat split; lia.
Qed.

Lemma operands_defined_phase_A k :
  (k <= W)%nat ->
  operands_defined ir x y fresh W 0 (spec_phase_A ir target opx opy f k).
Proof.
  induction k as [|k IH]; intros Hk.
  - intros i inst id Hi. done.
  - rewrite spec_phase_A_S. apply operands_defined_app; [apply IH; lia|].
    rewrite length_spec_phase_A. apply operands_defined_triple. lia.
Qed.

Lemma operands_defined_phase_B :
  operands_defined ir x y fresh W (3 * W) (spec_phase_B ir target f W).
Proof.
  intros i inst id Hi Hid. unfold spec_phase_B in Hi.
  destruct i as [|i]; simpl in Hi.
  - injection Hi as <-. operand_cases Hid.
    + right; right; right. exists 2%nat. repeat split; lia.
    + right; right; right. exists 5%nat. repeat split; lia.
    + right; right; left. exists 1%nat. split; [lia|done].
    + right; right; left. exists 1%nat. split; [lia|done].
  - change (map ?g ?l) with (g <$> l) in Hi.
    apply list_lookup_fmap_Some in Hi as (k & -> & Hk).
    apply lookup_seq in Hk as [-> Hi]. operand_cases Hid.
    + right; right; right. exists (3 * W + (2 + i) - 2)%nat.
      repeat split; lia.
    + right; right; right. exists (3 * (2 + i) + 2)%nat.
      repeat split; lia.
    + right; right; left. exists (2 + i)%nat. split; [lia|done].
    + right; right; left. exists 1%nat. split; [lia|done].
Qed.

Lemma operands_defined_chain :
  operands_defined ir x y fresh W 0 (spec_chain ir target opx opy fresh W).
Proof.
  unfold spec_chain. apply operands_defined_app.
  - by apply operands_defined_phase_A.
  - rewrite length_spec_phase_A. apply operands_defined_phase_B.
Qed.
End ChainOperands.

(** ** The log and the id bound *)

Lemma inserted_instructions_emit_log b chain tail :
  inserted_instructions (emit_log b chain ++ tail)
  = chain ++ inserted_instructions tail.
Proof.
  revert b. induction chain as [|i chain IH]; intros b; [done|].
  simpl. by rewrite IH.
Qed.

Lemma bound_follows_insert_emit_log b chain tail :
  bound_follows_insert (emit_log b chain ++ tail) = bound_follows_insert tail.
Proof.
  revert b. induction chain as [|i chain IH]; intros b; [done|].
  simpl. rewrite IH, Z.eqb_refl.
  by rewrite (proj2 (Z.ltb_lt _ _)) by lia.
Qed.

Lemma bound_after_ge b ids : b <= bound_after b ids.
Proof.
  revert b. induction ids as [|id ids IH]; intros b; simpl; [lia|].
  etrans; [|apply IH]. lia.
Qed.

Lemma bound_after_gt b ids id : id ∈ ids -> id < bound_after b ids.
Proof.
  revert b. induction ids as [|id' ids IH]; intros b Hin.
  - by apply not_elem_of_nil in Hin.
  - simpl. apply elem_of_cons in Hin as [->|Hin]; [|by apply IH].
    eapply Z.lt_le_trans; [|apply bound_after_ge]. lia.
Qed.

Lemma index_constant_in_use ir i :
  index_constant ir i <> 0 -> index_constant ir i ∈ ids_in_use ir.
Proof.
  unfold index_constant, find_integer_constant.
  destruct (List.find _ _) as [c|] eqn:Hfind; [|done].
  intros _. apply find_some in Hfind as [Hin _].
  unfold ids_in_use. apply elem_of_app. right. apply elem_of_app. left.
  apply list_elem_of_In, in_flat_map. exists c. split; [done|by left].
Qed.

Lemma instruction_ids_in_use ir inst id :
  inst ∈ module_insts ir -> id ∈ instruction_ids inst -> id ∈ ids_in_use ir.
Proof.
  intros Hinst Hid. unfold ids_in_use. do 2 (apply elem_of_app; right).
  apply list_elem_of_In, in_flat_map. exists inst.
  by split; apply list_elem_of_In.
Qed.

(** C5.  After [Apply], the fact store is the old one with one fact
    added at its end: the result id of the last instruction of the chain,
    a bit-field insert standing directly before the target, is synonymous
    with the result id of the target, the id the message names; both are
    referenced with an empty access path. *)
Theorem Apply_records_the_synonym message_ s target x y w :
  IsApplicable message_ s = Ok (true, s) ->
  binary_integer_target (ir_context s) message_ target x y w ->
  exists s' pre rest last,
    Apply message_ s = Ok (tt, s') /\
    module_insts (ir_context s') = pre ++ last :: target :: rest /\
    opcode last = SpvOpBitFieldInsert /\
    result_id last = List.last (fresh_ids message_) 0 /\
    result_id target = instruction_result_id message_ /\
    synonym_facts (transformation_context s')
    = synonym_facts (transformation_context s)
      ++ [(MakeDataDescriptor (result_id last) [],
           MakeDataDescriptor (result_id target) [])] /\
    (forall fact, fact ∈ synonym_facts (transformation_context s) ->
                  fact ∈ synonym_facts (transformation_context s')).
Proof.
  intros Happ Htgt.
  destruct (Apply_of_applicable _ _ _ _ _ _ Happ Htgt)
    as (p & pre & post & Hdef & Hsplit & Hp & Hrid & Hlen & Hop & Hc & Hfr
         & Hrun).
  destruct Htgt as (_ & _ & _ & Hw).
  assert (HW : (2 <= Z.to_nat w)%nat) by lia.
  set (chain := spec_chain (ir_context s) target (IdOperand [x])
                  (IdOperand [y]) (fresh_ids message_) (Z.to_nat w)) in *.
  set (last := List.last chain target).
  destruct (last_spec_chain (ir_context s) target (IdOperand [x])
              (IdOperand [y]) (fresh_ids message_) (Z.to_nat w))
    as [Hlast_id Hlast_op]; [done|done|].
  assert (Hne : chain <> []).
  { intros Hnil.
    assert (Hl := length_spec_chain (ir_context s) target (IdOperand [x])
                    (IdOperand [y]) (fresh_ids message_) (Z.to_nat w) HW).
    fold chain in Hl. rewrite Hnil in Hl. simpl in Hl. lia. }
  eexists _, (pre ++ removelast chain), post, last.
  split; [exact Hrun|]. repeat split.
  - rewrite (module_insts_applied _ _ _ _ _ pre post Hsplit Hp).
    rewrite (app_removelast_last target Hne) at 1.
    fold last. by rewrite <- !app_assoc.
  - exact Hlast_op.
  - assert (Hfr_eq : fresh_ids message_
                     = map result_id (removelast chain) ++ [result_id last]).
    { rewrite <- (result_ids_spec_chain (ir_context s) target (IdOperand [x])
                    (IdOperand [y]) (fresh_ids message_) (Z.to_nat w) HW Hlen)
        at 1.
      fold chain. rewrite (app_removelast_last target Hne) at 1.
      by rewrite map_app. }
    by rewrite Hfr_eq, last_last.
  - exact Hrid.
  - apply synonym_facts_applied.
  - intros fact Hfact. rewrite synonym_facts_applied.
    apply elem_of_app. by left.
Qed.

(** C10.  Every instruction [Apply] creates has the result type id of the
    target, which the type manager still knows as the integer type of the
    full width [w]. *)
Theorem Apply_types_the_chain_like_the_target message_ s target x y w sg :
  IsApplicable message_ s = Ok (true, s) ->
  binary_integer_target (ir_context s) message_ target x y w ->
  type_mgr (ir_context s) !! type_id target = Some (Integer w sg) ->
  exists s' pre post chain,
    Apply message_ s = Ok (tt, s') /\
    module_insts (ir_context s) = pre ++ target :: post /\
    module_insts (ir_context s') = pre ++ chain ++ target :: post /\
    Z.of_nat (length chain) = 4 * w - 1 /\
    Forall (fun inst =>
              type_id inst = type_id target /\
              type_mgr (ir_context s') !! type_id inst = Some (Integer w sg))
      chain.
Proof.
  intros Happ Htgt Hty.
  destruct (Apply_of_applicable _ _ _ _ _ _ Happ Htgt)
    as (p & pre & post & Hdef & Hsplit & Hp & Hrid & Hlen & Hop & Hc & Hfr
         & Hrun).
  destruct Htgt as (_ & _ & _ & Hw).
  assert (HW : (2 <= Z.to_nat w)%nat) by lia.
  eexists _, pre, post, _. split; [exact Hrun|]. repeat split.
  - done.
  - by apply module_insts_applied.
  - rewrite length_spec_chain by done. lia.
  - eapply Forall_impl; [apply type_ids_spec_chain|].
    intros inst Hinst. simpl in Hinst. split; [done|].
    by rewrite type_mgr_applied, Hinst.
Qed.

(** C7.  [Apply] puts the new instructions, in the order it creates them,
    directly before the target and leaves every instruction that was there,
    the target included, as it was and where it was.  An id operand of a
    new instruction is an operand of the target, one of the index
    constants, or the result id of a new instruction that stands before
    it. *)
Theorem Apply_inserts_before_the_target message_ s target x y w :
  IsApplicable message_ s = Ok (true, s) ->
  binary_integer_target (ir_context s) message_ target x y w ->
  exists s' pre post chain,
    Apply message_ s = Ok (tt, s') /\
    module_insts (ir_context s) = pre ++ target :: post /\
    module_insts (ir_context s') = pre ++ chain ++ target :: post /\
    Z.of_nat (length chain) = 4 * w - 1 /\
    inserted_instructions (drop (length (log s)) (log s')) = chain /\
    type_mgr (ir_context s') = type_mgr (ir_context s) /\
    constant_mgr (ir_context s') = constant_mgr (ir_context s) /\
    (forall i inst id,
        chain !! i = Some inst ->
        id ∈ flat_map operand_ids (in_operands inst) ->
        id = x \/ id = y \/
        (exists k, 0 <= k < w /\ id = index_constant (ir_context s) k) \/
        (exists j earlier, (j < i)%nat /\ chain !! j = Some earlier /\
                           result_id earlier = id)).
Proof.
  intros Happ Htgt.
  destruct (Apply_of_applicable _ _ _ _ _ _ Happ Htgt)
    as (p & pre & post & Hdef & Hsplit & Hp & Hrid & Hlen & Hop & Hc & Hfr
         & Hrun).
  destruct Htgt as (_ & _ & _ & Hw).
  assert (HW : (2 <= Z.to_nat w)%nat) by lia.
  set (chain := spec_chain (ir_context s) target (IdOperand [x])
                  (IdOperand [y]) (fresh_ids message_) (Z.to_nat w)) in *.
  assert (Hids := result_ids_spec_chain (ir_context s) target (IdOperand [x])
                    (IdOperand [y]) (fresh_ids message_) (Z.to_nat w) HW Hlen).
  fold chain in Hids.
  eexists _, pre, post, chain. split; [exact Hrun|]. repeat split.
  - done.
  - by apply module_insts_applied.
  - unfold chain. rewrite length_spec_chain by done. lia.
  - rewrite log_applied, drop_app_length.
    rewrite inserted_instructions_emit_log. simpl. apply app_nil_r.
  - apply type_mgr_applied.
  - apply constant_mgr_applied.
  - intros i inst id Hi Hid.
    destruct (operands_defined_chain (ir_context s) target x y
                (fresh_ids message_) (Z.to_nat w) HW Hlen i inst id Hi Hid)
      as [Hx|[Hy|[(k & Hk & Hid')|(j & Hj & Hjl & Hid')]]].
    + by left.
    + by right; left.
    + right; right; left. exists (Z.of_nat k). split; [lia|done].
    + right; right; right.
      assert (Hj' : (j < length chain)%nat).
      { by rewrite <- (length_map result_id), Hids. }
      destruct (lookup_lt_is_Some_2 chain j Hj') as [earlier He].
      exists j, earlier. repeat split; [done|done|].
      rewrite <- Hid', <- Hids.
      change (map result_id chain) with (result_id <$> chain).
      by rewrite nth_lookup, list_lookup_fmap, He.
Qed.

(** C6.  In the log of [Apply], every [InsertBefore] is directly followed
    by the [UpdateModuleIdBound] for the new result id, which leaves the
    bound above that id; the instructions inserted are those of the chain.
    If the bound lay above every id in use before [Apply], it does so
    afterwards. *)
Theorem Apply_keeps_the_id_bound message_ s target x y w :
  IsApplicable message_ s = Ok (true, s) ->
  binary_integer_target (ir_context s) message_ target x y w ->
  id_bound_ok (ir_context s) ->
  exists s' pre post chain events,
    Apply message_ s = Ok (tt, s') /\
    module_insts (ir_context s') = pre ++ chain ++ target :: post /\
    log s' = log s ++ events /\
    inserted_instructions events = chain /\
    bound_follows_insert events = true /\
    Forall (fun inst => result_id inst < module_id_bound (ir_context s'))
      chain /\
    id_bound_ok (ir_context s').
Proof.
  intros Happ Htgt Hok.
  destruct (Apply_of_applicable _ _ _ _ _ _ Happ Htgt)
    as (p & pre & post & Hdef & Hsplit & Hp & Hrid & Hlen & Hop & Hc & Hfr
         & Hrun).
  destruct Htgt as (_ & Hops & _ & Hw).
  assert (HW : (2 <= Z.to_nat w)%nat) by lia.
  set (chain := spec_chain (ir_context s) target (IdOperand [x])
                  (IdOperand [y]) (fresh_ids message_) (Z.to_nat w)) in *.
  assert (Hids := result_ids_spec_chain (ir_context s) target (IdOperand [x])
                    (IdOperand [y]) (fresh_ids message_) (Z.to_nat w) HW Hlen).
  fold chain in Hids.
  set (s' := applied message_ p target chain s) in *.
  assert (Hb : module_id_bound (ir_context s')
               = bound_after (module_id_bound (ir_context s))
                   (fresh_ids message_)).
  { unfold s'. by rewrite module_id_bound_applied, Hids. }
  assert (Hnew : forall inst, inst ∈ chain ->
                   result_id inst < module_id_bound (ir_context s')).
  { intros inst Hinst. rewrite Hb. apply bound_after_gt.
    rewrite <- Hids. apply list_elem_of_In, in_map.
    by apply list_elem_of_In. }
  assert (Hold : forall id, id ∈ ids_in_use (ir_context s) ->
                   id < module_id_bound (ir_context s')).
  { intros id Hid. rewrite Hb.
    eapply Z.lt_le_trans; [by apply Hok | apply bound_after_ge]. }
  assert (Htarget : target ∈ module_insts (ir_context s)).
  { rewrite Hsplit. apply elem_of_app. right. by left. }
  exists s', pre, post, chain. eexists. split; [exact Hrun|].
  split; [by apply module_insts_applied|].
  split; [apply log_applied|].
  split; [rewrite inserted_instructions_emit_log; simpl; apply app_nil_r|].
  split; [by rewrite bound_follows_insert_emit_log|].
  split; [by apply Forall_forall|].
  intros id Hid. unfold ids_in_use in Hid.
  unfold s' in Hid.
  rewrite type_mgr_applied, constant_mgr_applied in Hid.
  rewrite (module_insts_applied _ _ _ _ _ pre post Hsplit Hp) in Hid.
  fold s'.
  apply elem_of_app in Hid as [Hid|Hid];
    [apply Hold; unfold ids_in_use; apply elem_of_app; by left|].
  apply elem_of_app in Hid as [Hid|Hid];
    [apply Hold; unfold ids_in_use; apply elem_of_app; right;
     apply elem_of_app; by left|].
  rewrite !flat_map_app in Hid.
  apply elem_of_app in Hid as [Hid|Hid].
  { apply Hold. unfold ids_in_use. do 2 (apply elem_of_app; right).
    rewrite Hsplit, flat_map_app. apply elem_of_app. by left. }
  apply elem_of_app in Hid as [Hid|Hid].
  2: { apply Hold. unfold ids_in_use. do 2 (apply elem_of_app; right).
       rewrite Hsplit, flat_map_app. apply elem_of_app. by right. }
  apply list_elem_of_In, in_flat_map in Hid as (inst & Hinst & Hid).
  apply list_elem_of_In in Hinst. apply list_elem_of_In in Hid.
  unfold instruction_ids in Hid.
  apply elem_of_cons in Hid as [->|Hid]; [by apply Hnew|].
  apply elem_of_cons in Hid as [->|Hid].
  { apply Hold. apply (instruction_ids_in_use _ target); [done|].
    assert (Hty := type_ids_spec_chain (ir_context s) target (IdOperand [x])
                     (IdOperand [y]) (fresh_ids message_) (Z.to_nat w)).
    rewrite Forall_forall in Hty. rewrite (Hty inst Hinst).
    unfold instruction_ids. apply elem_of_cons. right. by left. }
  apply list_elem_of_lookup in Hinst as [i Hi].
  destruct (operands_defined_chain (ir_context s) target x y
              (fresh_ids message_) (Z.to_nat w) HW Hlen i inst id Hi Hid)
    as [Hx|[Hy|[(k & Hk & Hid')|(j & Hj & Hjl & Hid')]]].
  - apply Hold. apply (instruction_ids_in_use _ target); [done|].
    unfold instruction_ids. rewrite Hops, Hx. simpl.
    do 2 (apply elem_of_cons; right). by left.
  - apply Hold. apply (instruction_ids_in_use _ target); [done|].
    unfold instruction_ids. rewrite Hops, Hy. simpl.
    do 3 (apply elem_of_cons; right). by left.
  - apply Hold. rewrite Hid'. apply index_constant_in_use. apply Hc. lia.
  - rewrite Hb. apply bound_after_gt. rewrite <- Hid'.
    apply list_elem_of_In, nth_In. done.
Qed.

(** ** Bit arithmetic *)

Lemma testbit_above a w n :
  0 <= a < 2 ^ w -> w <= n -> Z.testbit a n = false.
Proof.
  intros Ha Hn. destruct (Z.eq_dec a 0) as [->|Hne]; [apply Z.bits_0|].
  apply Z.bits_above_log2; [lia|].
  assert (Z.log2 a < w); [|lia]. apply Z.log2_lt_pow2; lia.
Qed.

Lemma testbit_ones_1 n : 0 <= n -> Z.testbit (Z.ones 1) n = (n =? 0).
Proof.
  intros Hn. rewrite Z.testbit_ones_nonneg by lia.
  destruct (Z.ltb_spec n 1), (Z.eqb_spec n 0); lia || done.
Qed.

Lemma truncate_small w v : 0 <= w -> 0 <= v < 2 ^ w -> truncate w v = v.
Proof.
  intros Hw Hv. unfold truncate. rewrite Z.land_ones by done.
  by apply Z.mod_small.
Qed.

Lemma truncate_bit_value w v k :
  1 <= w -> 0 <= k -> truncate w (bit_value v k) = bit_value v k.
Proof.
  intros Hw Hk. unfold truncate, bit_value. apply Z.bits_inj'. intros n Hn.
  rewrite !Z.land_spec, Z.shiftr_spec, testbit_ones_1 by lia.
  rewrite Z.testbit_ones_nonneg by lia.
  destruct (Z.eqb_spec n 0) as [->|]; [|by rewrite !andb_false_r].
  by rewrite (proj2 (Z.ltb_lt 0 w)) by lia; rewrite !andb_true_r.
Qed.

Lemma extract_one_bit v k : bit_field_u_extract v k 1 = bit_value v k.
Proof. reflexivity. Qed.

Lemma bitwise_op_bit_value op f a b k :
  bitwise_op op = Some f -> 0 <= k ->
  f (bit_value a k) (bit_value b k) = bit_value (f a b) k.
Proof.
  intros Hop Hk. unfold bit_value. apply Z.bits_inj'. intros n Hn.
  destruct op; try discriminate; injection Hop as <-;
    rewrite ?Z.lor_spec, ?Z.lxor_spec, ?Z.land_spec, !Z.shiftr_spec by lia;
    rewrite ?Z.lor_spec, ?Z.lxor_spec, ?Z.land_spec;
    destruct (Z.testbit a (n + k)), (Z.testbit b (n + k)),
      (Z.testbit (Z.ones 1) n); reflexivity.
Qed.

Lemma bit_value_0 v : bit_value v 0 = Z.land v (Z.ones 1).
Proof. unfold bit_value. by rewrite Z.shiftr_0_r. Qed.

Lemma insert_next_bit w r k :
  1 <= k < w ->
  truncate w (bit_field_insert (Z.land r (Z.ones k)) (bit_value r k) k 1)
  = Z.land r (Z.ones (k + 1)).
Proof.
  intros Hk. unfold truncate, bit_field_insert, bit_value.
  apply Z.bits_inj'. intros n Hn.
  rewrite !Z.land_spec, Z.lor_spec, !Z.land_spec, Z.lnot_spec by lia.
  rewrite !Z.shiftl_spec by lia.
  rewrite !(Z.testbit_ones_nonneg k), (Z.testbit_ones_nonneg w),
    (Z.testbit_ones_nonneg (k + 1)) by lia.
  destruct (Z.lt_trichotomy n k) as [Hlt|[->|Hgt]].
  - rewrite !(Z.testbit_neg_r _ (n - k)) by lia.
    rewrite (proj2 (Z.ltb_lt n k)), (proj2 (Z.ltb_lt n w)),
      (proj2 (Z.ltb_lt n (k + 1))) by lia.
    by destruct (Z.testbit r n).
  - rewrite Z.sub_diag, Z.land_spec, Z.shiftr_spec, testbit_ones_1 by lia.
    rewrite Z.ltb_irrefl, (proj2 (Z.ltb_lt k w)),
      (proj2 (Z.ltb_lt k (k + 1))) by lia.
    rewrite Z.add_0_l. simpl. by destruct (Z.testbit r k).
  - rewrite testbit_ones_1 by lia.
    rewrite (proj2 (Z.eqb_neq (n - k) 0)) by lia.
    rewrite (proj2 (Z.ltb_ge n k)), (proj2 (Z.ltb_ge n (k + 1))) by lia.
    by rewrite !andb_false_r.
Qed.

Lemma bitwise_op_in_range op f a b w :
  bitwise_op op = Some f -> 0 <= w ->
  0 <= a < 2 ^ w -> 0 <= b < 2 ^ w ->
  Z.land (f a b) (Z.ones w) = f a b.
Proof.
  intros Hop Hw Ha Hb. apply Z.bits_inj'. intros n Hn.
  rewrite Z.land_spec, Z.testbit_ones_nonneg by lia.
  destruct (Z.ltb_spec n w) as [Hlt|Hge]; [by rewrite andb_true_r|].
  rewrite andb_false_r.
  destruct op; try discriminate; injection Hop as <-;
    rewrite ?Z.lor_spec, ?Z.lxor_spec, ?Z.land_spec;
    by rewrite (testbit_above a w n), (testbit_above b w n).
Qed.

(** ** The value of the chain *)

Lemma eval_instructions_app ir env l1 l2 :
  eval_instructions ir env (l1 ++ l2)
  = env' ← eval_instructions ir env l1; eval_instructions ir env' l2.
Proof.
  revert env. induction l1 as [|i l1 IH]; intros env; [done|].
  simpl. destruct (eval_instruction ir env i) as [env'|]; [|done].
  simpl. apply IH.
Qed.

Section ChainValue.
Context (ir : IRContext) (target : Instruction) (x y : Z).
Context (fresh : list Z) (W : nat) (sg : bool).
Context (fop : Z -> Z -> Z) (a b : Z) (env : gmap Z Z).
Hypothesis HW : (2 <= W)%nat.
Hypothesis Hlen : length fresh = (4 * W - 1)%nat.
Hypothesis Hnd : NoDup fresh.
Hypothesis Hty :
  type_mgr ir !! type_id target = Some (Integer (Z.of_nat W) sg).
Hypothesis Hop : bitwise_op (opcode target) = Some fop.
Hypothesis Hx : env !! x = Some a.
Hypothesis Hy : env !! y = Some b.
Hypothesis Hxf : x ∉ fresh.
Hypothesis Hyf : y ∉ fresh.
Hypothesis Hcf :
  forall k, (k < W)%nat -> index_constant ir (Z.of_nat k) ∉ fresh.
Hypothesis Hcv :
  forall k, (k < W)%nat ->
            env !! index_constant ir (Z.of_nat k) = Some (Z.of_nat k).

Let f := fun j => nth j fresh 0.
Let r := fop a b.
Let opx := IdOperand [x].
Let opy := IdOperand [y].

Lemma f_fresh j : (j < length fresh)%nat -> f j ∈ fresh.
Proof. intros Hj. apply list_elem_of_In, nth_In. done. Qed.

Lemma f_ne i j :
  (i < length fresh)%nat -> (j < length fresh)%nat -> i <> j -> f i <> f j.
Proof.
  intros Hi Hj Hne Heq. apply Hne.
  destruct (lookup_lt_is_Some_2 fresh i Hi) as [vi Hvi].
  destruct (lookup_lt_is_Some_2 fresh j Hj) as [vj Hvj].
  unfold f in Heq. rewrite !nth_lookup, Hvi, Hvj in Heq. simpl in Heq.
  subst vj. by apply (NoDup_lookup fresh i j vi).
Qed.

Lemma given_ne id j : id ∉ fresh -> (j < length fresh)%nat -> f j <> id.
Proof. intros Hid Hj Heq. apply Hid. rewrite <- Heq. by apply f_fresh. Qed.

Lemma eval_bit_extract env' id bid oid cid vb vo vc :
  env' !! bid = Some vb -> env' !! oid = Some vo -> env' !! cid = Some vc ->
  eval_instruction ir env'
    (bit_extract_inst target id (IdOperand [bid]) oid cid)
  = Some (<[id := truncate (Z.of_nat W) (bit_field_u_extract vb vo vc)]>
            env').
Proof.
  intros Hb Ho Hc. unfold eval_instruction. simpl. rewrite Hty.
  unfold instruction_value, operand_value. simpl.
  by rewrite Hb, Ho, Hc.
Qed.

Lemma eval_bitwise env' id e0 e1 v0 v1 :
  env' !! e0 = Some v0 -> env' !! e1 = Some v1 ->
  eval_instruction ir env' (bitwise_inst target id e0 e1)
  = Some (<[id := truncate (Z.of_nat W) (fop v0 v1)]> env').
Proof.
  intros H0 H1. unfold eval_instruction. simpl. rewrite Hty.
  unfold instruction_value, operand_value. simpl.
  destruct (opcode target); try discriminate; injection Hop as <-;
    simpl; by rewrite H0, H1.
Qed.

Lemma eval_bit_insert env' id bid iid oid cid vb vi vo vc :
  env' !! bid = Some vb -> env' !! iid = Some vi ->
  env' !! oid = Some vo -> env' !! cid = Some vc ->
  eval_instruction ir env' (bit_insert_inst target id bid iid oid cid)
  = Some (<[id := truncate (Z.of_nat W) (bit_field_insert vb vi vo vc)]>
            env').
Proof.
  intros Hb Hi Ho Hc. unfold eval_instruction. simpl. rewrite Hty.
  unfold instruction_value, operand_value. simpl.
  by rewrite Hb, Hi, Ho, Hc.
Qed.

Lemma eval_triple k envA :
  (k < W)%nat -> phase_A_done fresh env r k envA ->
  exists envA',
    eval_instructions ir envA (spec_triple ir target opx opy f k)
    = Some envA' /\ phase_A_done fresh env r (S k) envA'.
Proof.
  intros Hk [Hgiven Hbits].
  assert (H1 : (1 < W)%nat) by lia.
  assert (Hc1f := Hcf 1%nat H1). assert (Hc1v := Hcv 1%nat H1).
  assert (Hckf := Hcf k Hk). assert (Hckv := Hcv k Hk).
  unfold spec_triple. cbn [eval_instructions].
  rewrite (eval_bit_extract envA _ x _ _ a (Z.of_nat k) 1);
    [|by rewrite Hgiven..].
  cbn [mbind option_bind].
  rewrite (eval_bit_extract _ _ y _ _ b (Z.of_nat k) 1);
    [|rewrite lookup_insert_ne by (apply given_ne; [done|lia]);
      by rewrite Hgiven..].
  cbn [mbind option_bind].
  rewrite (eval_bitwise _ _ _ _
             (truncate (Z.of_nat W) (bit_field_u_extract a (Z.of_nat k) 1))
             (truncate (Z.of_nat W) (bit_field_u_extract b (Z.of_nat k) 1))).
  2: by rewrite lookup_insert_ne, lookup_insert_eq by (apply f_ne; lia).
  2: by rewrite lookup_insert_eq.
  cbn [mbind option_bind]. eexists. split; [reflexivity|]. split.
  - intros id Hid.
    rewrite !lookup_insert_ne by (apply given_ne; [done|lia]).
    by apply Hgiven.
  - intros j Hj. destruct (decide (j = k)) as [->|Hne].
    + rewrite lookup_insert_eq. f_equal.
      rewrite !extract_one_bit, !truncate_bit_value by lia.
      rewrite (bitwise_op_bit_value (opcode target)) by (done || lia).
      apply truncate_bit_value; lia.
    + rewrite !lookup_insert_ne by (apply f_ne; lia).
      apply Hbits. lia.
Qed.

Lemma eval_phase_A k :
  (k <= W)%nat ->
  exists envA,
    eval_instructions ir env (spec_phase_A ir target opx opy f k)
    = Some envA /\ phase_A_done fresh env r k envA.
Proof.
  induction k as [|k IH]; intros Hk.
  - exists env. split; [done|]. split; [done|]. lia.
  - destruct IH as (envA & HevalA & HdoneA); [lia|].
    destruct (eval_triple k envA) as (envA' & Heval' & Hdone'); [lia|done|].
    exists envA'. split; [|done].
    by rewrite spec_phase_A_S, eval_instructions_app, HevalA.
Qed.

Lemma eval_first_insert envA :
  phase_A_done fresh env r W envA ->
  exists envB,
    eval_instruction ir envA (spec_first_insert ir target f W) = Some envB /\
    phase_B_done fresh env r W 0 envB.
Proof.
  intros [Hgiven Hbits].
  assert (H1 : (1 < W)%nat) by lia.
  assert (Hc1f := Hcf 1%nat H1). assert (Hc1v := Hcv 1%nat H1).
  unfold spec_first_insert.
  rewrite (eval_bit_insert envA _ _ _ _ _
             (bit_value r 0) (bit_value r 1) 1 1);
    [|apply (Hbits 0%nat); lia|apply (Hbits 1%nat); lia
     |by rewrite Hgiven..].
  eexists. split; [reflexivity|]. split; [|split].
  - intros id Hid. rewrite lookup_insert_ne by (apply given_ne; [done|lia]).
    by apply Hgiven.
  - intros i Hi. rewrite lookup_insert_ne by (apply f_ne; lia).
    by apply Hbits.
  - rewrite Nat.add_0_r, lookup_insert_eq. f_equal.
    rewrite bit_value_0. apply (insert_next_bit _ r 1). lia.
Qed.

Lemma eval_next_insert j envB :
  (2 + j < W)%nat -> phase_B_done fresh env r W j envB ->
  exists envB',
    eval_instruction ir envB (spec_next_insert ir target f W (2 + j))
    = Some envB' /\
    phase_B_done fresh env r W (S j) envB'.
Proof.
  intros Hj (Hgiven & Hbits & Hlow).
  assert (H1 : (1 < W)%nat) by lia.
  assert (Hc1f := Hcf 1%nat H1). assert (Hc1v := Hcv 1%nat H1).
  assert (Hckf := Hcf _ Hj). assert (Hckv := Hcv _ Hj).
  unfold spec_next_insert.
  replace (3 * W + (2 + j) - 2)%nat with (3 * W + j)%nat by lia.
  replace (3 * W + (2 + j) - 1)%nat with (3 * W + S j)%nat by lia.
  rewrite (eval_bit_insert envB _ _ _ _ _
             (Z.land r (Z.ones (Z.of_nat (2 + j))))
             (bit_value r (Z.of_nat (2 + j))) (Z.of_nat (2 + j)) 1);
    [|done|by apply Hbits|by rewrite Hgiven..].
  eexists. split; [reflexivity|]. split; [|split].
  - intros id Hid. rewrite lookup_insert_ne by (apply given_ne; [done|lia]).
    by apply Hgiven.
  - intros i Hi. rewrite lookup_insert_ne by (apply f_ne; lia).
    by apply Hbits.
  - rewrite lookup_insert_eq. f_equal.
    replace (Z.of_nat (2 + S j)) with (Z.of_nat (2 + j) + 1) by lia.
    apply insert_next_bit. lia.
Qed.

Lemma eval_next_inserts j envB0 :
  (2 + j <= W)%nat -> phase_B_done fresh env r W 0 envB0 ->
  exists envB,
    eval_instructions ir envB0
      (map (spec_next_insert ir target f W) (seq 2 j)) = Some envB /\
    phase_B_done fresh env r W j envB.
Proof.
  intros Hj H0. induction j as [|j IH].
  - exists envB0. done.
  - destruct IH as (envB & HevalB & HdoneB); [lia|].
    destruct (eval_next_insert j envB) as (envB' & Heval' & Hdone');
      [lia|done|].
    exists envB'. split; [|done].
    rewrite seq_S, map_app, eval_instructions_app, HevalB.
    cbn [mbind option_bind map eval_instructions]. by rewrite Heval'.
Qed.

Lemma eval_spec_chain_done :
  exists env',
    eval_instructions ir env (spec_chain ir target opx opy fresh W)
    = Some env' /\
    phase_B_done fresh env r W (W - 2) env'.
Proof.
  destruct (eval_phase_A W) as (envA & HevalA & HdoneA); [lia|].
  destruct (eval_first_insert envA HdoneA) as (envB0 & Heval0 & Hdone0).
  destruct (eval_next_inserts (W - 2) envB0) as (envB & HevalB & HdoneB);
    [lia|done|].
  exists envB. split; [|exact HdoneB].
  unfold spec_chain, spec_phase_B. fold f.
  rewrite eval_instructions_app, HevalA. simpl. rewrite Heval0. simpl.
  exact HevalB.
Qed.

Hypothesis Ha : 0 <= a < 2 ^ Z.of_nat W.
Hypothesis Hb : 0 <= b < 2 ^ Z.of_nat W.

Lemma eval_spec_chain :
  exists env',
    eval_instructions ir env (spec_chain ir target opx opy fresh W)
    = Some env' /\
    env' !! f (4 * W - 2)%nat = Some (fop a b) /\
    (forall id, id ∉ fresh -> env' !! id = env !! id).
Proof.
  destruct (eval_phase_A W) as (envA & HevalA & HdoneA); [lia|].
  destruct (eval_first_insert envA HdoneA) as (envB0 & Heval0 & Hdone0).
  destruct (eval_next_inserts (W - 2) envB0) as (envB & HevalB & HdoneB);
    [lia|done|].
  exists envB. destruct HdoneB as (Hgiven & _ & Hlow).
  split; [|split; [|done]].
  - unfold spec_chain, spec_phase_B. fold f.
    rewrite eval_instructions_app, HevalA. simpl. rewrite Heval0. simpl.
    exact HevalB.
  - replace (4 * W - 2)%nat with (3 * W + (W - 2))%nat by lia.
    unfold f. rewrite Hlow. f_equal.
    replace (Z.of_nat (2 + (W - 2))) with (Z.of_nat W) by lia.
    apply (bitwise_op_in_range (opcode target)); (done || lia).
Qed.
End ChainValue.

Lemma eval_instructions_type_mgr ir ir' env l :
  type_mgr ir = type_mgr ir' ->
  eval_instructions ir env l = eval_instructions ir' env l.
Proof.
  intros Heq. revert env. induction l as [|i l IH]; intros env; [done|].
  simpl. unfold eval_instruction. rewrite Heq.
  destruct (type_mgr ir' !! type_id i) as [[]|]; try done.
  destruct (instruction_value env i); [|done]. simpl. apply IH.
Qed.

Lemma index_constant_value ir env i :
  index_constant ir i <> 0 -> env_has_constants ir env ->
  env !! index_constant ir i = Some i.
Proof.
  unfold index_constant, find_integer_constant. intros Hne Henv.
  destruct (List.find _ _) as [c|] eqn:Hfind; [|done].
  apply find_some in Hfind as [Hin Hc].
  unfold is_integer_constant in Hc. apply andb_true_iff in Hc as [_ Hw].
  apply bool_decide_eq_true_1 in Hw.
  apply Henv; [by apply list_elem_of_In | done].
Qed.

Lemma example_applicable :
  IsApplicable example_message example_state = Ok (true, example_state).
Proof. vm_compute. reflexivity. Qed.

Lemma example_binary_integer_target :
  binary_integer_target (ir_context example_state) example_message
    example_target 3 4 8.
Proof.
  split; [reflexivity|]. split; [reflexivity|].
  split; [by exists false|]. lia.
Qed.

Lemma example_env_has_constants :
  env_has_constants (ir_context example_state) example_env.
Proof.
  intros c v Hc Hw. simpl in Hc. unfold example_constants in Hc. simpl in Hc.
  repeat (apply elem_of_cons in Hc as [->|Hc];
          [simpl in Hw; injection Hw as <-; reflexivity|]).
  by apply not_elem_of_nil in Hc.
Qed.

Lemma example_fresh_ids_NoDup : NoDup (fresh_ids example_message).
Proof. apply (bool_decide_unpack _). vm_compute. exact I. Qed.

(** C1, as the code has it.  For a descriptor [IsApplicable] accepts
    whose fresh ids are pairwise distinct, which [IsApplicable] does not
    test, and a target with one of the three supported
    opcodes on operands that hold [a] and [b], values of the width [w] of
    its type: [Apply] returns, and the chain it has inserted, run in an
    environment that gives the operands and the index constants their
    values, ends with the result id of its last instruction holding
    [a op b]. *)
Theorem chain_computes_the_operation message_ s target x y w fop a b env :
  IsApplicable message_ s = Ok (true, s) ->
  binary_integer_target (ir_context s) message_ target x y w ->
  NoDup (fresh_ids message_) ->
  bitwise_op (opcode target) = Some fop ->
  env_has_constants (ir_context s) env ->
  env !! x = Some a ->
  env !! y = Some b ->
  0 <= a < 2 ^ w ->
  0 <= b < 2 ^ w ->
  exists s' pre post chain env',
    Apply message_ s = Ok (tt, s') /\
    module_insts (ir_context s) = pre ++ target :: post /\
    module_insts (ir_context s') = pre ++ chain ++ target :: post /\
    Z.of_nat (length chain) = 4 * w - 1 /\
    eval_instructions (ir_context s') env chain = Some env' /\
    env' !! result_id (List.last chain target) = Some (fop a b).
Proof.
  intros Happ Htgt Hnd Hfop Henv Hx Hy Ha Hb.
  destruct (Apply_of_applicable _ _ _ _ _ _ Happ Htgt)
    as (p & pre & post & Hdef & Hsplit & Hp & Hrid & Hlen & Hop & Hc & Hfr
         & Hrun).
  destruct Htgt as (_ & Hops & [sg Hty] & Hw).
  assert (HW : (2 <= Z.to_nat w)%nat) by lia.
  assert (Hwz : Z.of_nat (Z.to_nat w) = w) by lia.
  assert (Htarget : target ∈ module_insts (ir_context s)).
  { rewrite Hsplit. apply elem_of_app. right. by left. }
  assert (Hused : forall id, id ∈ ids_in_use (ir_context s) ->
                             id ∉ fresh_ids message_).
  { intros id Hid Hin. by apply (Hfr id Hin). }
  set (chain := spec_chain (ir_context s) target (IdOperand [x])
                  (IdOperand [y]) (fresh_ids message_) (Z.to_nat w)) in *.
  destruct (eval_spec_chain (ir_context s) target x y (fresh_ids message_)
              (Z.to_nat w) sg fop a b env) as (env' & Heval & Hlast & _);
    try done.
  - by rewrite Hwz.
  - apply Hused, (instruction_ids_in_use _ target); [done|].
    unfold instruction_ids. rewrite Hops. simpl.
    do 2 (apply elem_of_cons; right). by left.
  - apply Hused, (instruction_ids_in_use _ target); [done|].
    unfold instruction_ids. rewrite Hops. simpl.
    do 3 (apply elem_of_cons; right). by left.
  - intros k Hk. apply Hused, index_constant_in_use, Hc. lia.
  - intros k Hk. apply index_constant_value; [apply Hc; lia | done].
  - by rewrite Hwz.
  - by rewrite Hwz.
  - eexists _, pre, post, chain, env'. split; [exact Hrun|].
    split; [done|]. split; [by apply module_insts_applied|].
    split; [unfold chain; rewrite length_spec_chain by done; lia|].
    split.
    + rewrite <- Heval. apply eval_instructions_type_mgr.
      apply type_mgr_applied.
    + destruct (last_spec_chain (ir_context s) target (IdOperand [x])
                  (IdOperand [y]) (fresh_ids message_) (Z.to_nat w) HW Hlen)
        as [Hlast_id _].
      fold chain in Hlast_id. by rewrite Hlast_id.
Qed.

Lemma chain_computes_the_operation_witness :
  exists s' pre post chain env',
    Apply example_message example_state = Ok (tt, s') /\
    module_insts (ir_context example_state) = pre ++ example_target :: post /\
    module_insts (ir_context s') = pre ++ chain ++ example_target :: post /\
    Z.of_nat (length chain) = 4 * 8 - 1 /\
    eval_instructions (ir_context s') example_env chain = Some env' /\
    env' !! result_id (List.last chain example_target) = Some 212.
Proof.
  apply (chain_computes_the_operation example_message example_state
           example_target 3 4 8 Z.lxor 178 102 example_env).
  - exact example_applicable.
  - exact example_binary_integer_target.
  - exact example_fresh_ids_NoDup.
  - reflexivity.
  - exact example_env_has_constants.
  - reflexivity.
  - reflexivity.
  - lia.
  - lia.
Defined.

(** The example, run: the chain [Apply] inserts into the example module
    stands at positions 2 to 32 and leaves [0b11010100] in the id of its
    last instruction. *)
Example example_chain_value :
  match Apply example_message example_state with
  | Ok (_, s') =>
      env' ← eval_instructions (ir_context s') example_env
               (take 31 (drop 2 (module_insts (ir_context s'))));
      env' !! 130
  | Fault _ => None
  end = Some 212.
Proof. vm_compute. reflexivity. Qed.

(** C1 does not hold for every descriptor [IsApplicable] accepts.  The
    descriptor that gives the unused id 100 for all 31 ids is accepted,
    and all instructions of the chain [Apply] inserts for it have the
    result id 100: run on 178 and 102 the chain leaves 0 there, not
    [178 xor 102], which is 212. *)
Lemma chain_fails_on_repeated_fresh_ids :
  IsApplicable repeated_message example_state = Ok (true, example_state) /\
  binary_integer_target (ir_context example_state) repeated_message
    example_target 3 4 8 /\
  bitwise_op (opcode example_target) = Some Z.lxor /\
  env_has_constants (ir_context example_state) example_env /\
  example_env !! 3 = Some 178 /\
  example_env !! 4 = Some 102 /\
  Z.lxor 178 102 = 212 /\
  match Apply repeated_message example_state with
  | Ok (_, s') =>
      (env' ← eval_instructions (ir_context s') example_env
                (take 31 (drop 2 (module_insts (ir_context s'))));
       env' !! 100) = Some 0
  | Fault _ => False
  end /\
  ~ exists s' pre post chain env',
      Apply repeated_message example_state = Ok (tt, s') /\
      module_insts (ir_context example_state) = pre ++ example_target :: post /\
      module_insts (ir_context s') = pre ++ chain ++ example_target :: post /\
      Z.of_nat (length chain) = 4 * 8 - 1 /\
      eval_instructions (ir_context s') example_env chain = Some env' /\
      env' !! result_id (List.last chain example_target)
      = Some (Z.lxor 178 102).
Proof.
  split; [vm_compute; reflexivity|].
  split.
  { destruct example_binary_integer_target as (Ht & Ho & Hty & Hw).
    by repeat split. }
  split; [reflexivity|]. split; [exact example_env_has_constants|].
  split; [reflexivity|]. split; [reflexivity|]. split; [reflexivity|].
  split; [vm_compute; reflexivity|].
  intros (s' & pre & post & chain & env' & Hrun & Hsplit & Hnew & Hlen
          & Heval & Hlast).
  cbn [ir_context example_state example_ir module_insts] in Hsplit.
  unfold example_target in Hsplit.
  destruct pre as [|i1 [|i2 [|i3 [|i4 pre]]]]; cbn in Hsplit;
    try discriminate Hsplit.
  2: { injection Hsplit as _ _ _ _ Hsplit. by destruct pre. }
  injection Hsplit as <- <- <-.
  vm_compute in Hrun. injection Hrun as <-.
  cbn [ir_context module_insts app] in Hnew.
  injection Hnew as Hnew.
  apply (f_equal (take 31)) in Hnew.
  rewrite (take_app_length' chain) in Hnew by lia.
  cbn [take] in Hnew. subst chain.
  vm_compute in Heval. injection Heval as <-.
  vm_compute in Hlast. discriminate.
Qed.

(** A descriptor that repeats one unused id is accepted as well:
    [IsApplicable] asks of each id that the module does not use it, not
    that the ids differ from each other.  The instructions [Apply] then
    creates share that result id. *)
Example IsApplicable_accepts_repeated_fresh_ids :
  let message_ := mkMessage 5 (replicate 31 100) in
  IsApplicable message_ example_state = Ok (true, example_state) /\
  match Apply message_ example_state with
  | Ok (_, s') =>
      map result_id (take 31 (drop 2 (module_insts (ir_context s'))))
      = replicate 31 100
  | Fault _ => False
  end.
Proof. split; vm_compute; reflexivity. Qed.

Lemma example_id_bound_ok : id_bound_ok (ir_context example_state).
Proof.
  unfold id_bound_ok. apply Forall_forall.
  apply (bool_decide_unpack _). vm_compute. exact I.
Qed.

Lemma Apply_emits_the_chain_witness :
  exists s' pre post chain,
    Apply example_message example_state = Ok (tt, s') /\
    module_insts (ir_context s') = pre ++ chain ++ example_target :: post /\
    map result_id chain = fresh_ids example_message /\
    fresh_id s' = [].
Proof.
  destruct (Apply_emits_the_chain example_message example_state
              example_target 3 4 8 example_applicable
              example_binary_integer_target)
    as (s' & pre & post & Hrun & Hpre & Hnew & HA & HB & _ & Hids & Hcur).
  exists s', pre, post. eexists.
  split; [exact Hrun|]. split; [exact Hnew|]. split; [exact Hids|exact Hcur].
Defined.

Lemma Apply_records_the_synonym_witness :
  exists s',
    Apply example_message example_state = Ok (tt, s') /\
    synonym_facts (transformation_context s')
    = [(MakeDataDescriptor 130 [], MakeDataDescriptor 5 [])].
Proof.
  destruct (Apply_records_the_synonym example_message example_state
              example_target 3 4 8 example_applicable
              example_binary_integer_target)
    as (s' & pre & rest & last & Hrun & _ & _ & Hlast & _ & Hfacts & _).
  exists s'. split; [exact Hrun|]. rewrite Hfacts, Hlast. reflexivity.
Defined.

Lemma Apply_keeps_the_id_bound_witness :
  exists s',
    Apply example_message example_state = Ok (tt, s') /\
    id_bound_ok (ir_context s').
Proof.
  destruct (Apply_keeps_the_id_bound example_message example_state
              example_target 3 4 8 example_applicable
              example_binary_integer_target example_id_bound_ok)
    as (s' & pre & post & chain & events & Hrun & _ & _ & _ & _ & _ & Hok).
  exists s'. split; [exact Hrun | exact Hok].
Defined.

Lemma Apply_inserts_before_the_target_witness :
  exists s' pre post chain,
    Apply example_message example_state = Ok (tt, s') /\
    module_insts (ir_context example_state) = pre ++ example_target :: post /\
    module_insts (ir_context s') = pre ++ chain ++ example_target :: post /\
    Z.of_nat (length chain) = 31.
Proof.
  destruct (Apply_inserts_before_the_target example_message example_state
              example_target 3 4 8 example_applicable
              example_binary_integer_target)
    as (s' & pre & post & chain & Hrun & Hold & Hnew & Hlen & _).
  exists s', pre, post, chain. repeat split; assumption.
Defined.

Lemma Apply_types_the_chain_like_the_target_witness :
  exists s' pre post chain,
    Apply example_message example_state = Ok (tt, s') /\
    module_insts (ir_context s') = pre ++ chain ++ example_target :: post /\
    Forall (fun inst => type_id inst = 1) chain.
Proof.
  destruct (Apply_types_the_chain_like_the_target example_message
              example_state example_target 3 4 8 false example_applicable
              example_binary_integer_target eq_refl)
    as (s' & pre & post & chain & Hrun & _ & Hnew & _ & Hty).
  exists s', pre, post, chain. repeat split; [exact Hrun|exact Hnew|].
  eapply Forall_impl; [exact Hty|]. intros inst [Hid _]. exact Hid.
Defined.

(** * Further properties of the code *)

(** ** Where [IsApplicable] faults *)

Lemma bind_Ok_inv {A B} (c : M A) (k : A -> M B) s b s' :
  bind c k s = Ok (b, s') ->
  exists a s1, c s = Ok (a, s1) /\ k a s1 = Ok (b, s').
Proof.
  unfold bind. destruct (c s) as [[a s1]|f]; [|discriminate].
  intros H. eauto.
Qed.

Lemma target_of_Some ir message_ inst :
  target_of ir message_ = Some inst ->
  exists p,
    find_def (module_insts ir) (instruction_result_id message_) = Some p /\
    instruction_at (module_insts ir) p = Some inst.
Proof.
  unfold target_of. destruct (find_def _ _) as [p|]; [|discriminate].
  intros H. eauto.
Qed.

Lemma IsApplicable_verdict_unusable_type message_ s inst :
  target_of (ir_context s) message_ = Some inst ->
  supported_opcode (opcode inst) ->
  result_type_unusable (ir_context s) inst ->
  IsApplicable_verdict message_ s = Fault NullDereference.
Proof.
  intros Htgt Hop Hty.
  destruct (target_of_Some _ _ _ Htgt) as (p & Hdef & Hat).
  unfold IsApplicable_verdict.
  rewrite (run_bind _ _ s (Some p) s) by (unfold GetDef; by rewrite Hdef).
  rewrite (run_bind _ _ s inst s) by (unfold load; by rewrite Hat).
  rewrite unsupported_test, bool_decide_eq_false_2 by tauto.
  unfold bind at 1, GetType at 1.
  destruct (type_mgr (ir_context s) !! type_id inst) as [t|] eqn:Ht;
    [|reflexivity].
  destruct (Hty t Ht) as [Hv Hi].
  unfold bind at 1. simpl deref. unfold ret at 1.
  rewrite bool_decide_eq_false_2 by (rewrite Hv; by intros [? ?]).
  unfold bind at 1, GetType at 1. rewrite Ht.
  unfold bind at 1. simpl deref. unfold ret at 1.
  unfold bind at 1. by rewrite Hi.
Qed.

(** X1.  [IsApplicable] faults in one way only, by dereferencing a null
    pointer, and it does so exactly when the target is defined, has a
    supported opcode, and has a result type that is not declared or is
    neither a vector nor an integer.  It never reaches the assertion of
    [GetRequiredFreshIdCount] and never reads out of range. *)
Theorem IsApplicable_fault_iff message_ s f :
  IsApplicable message_ s = Fault f <->
  f = NullDereference /\
  exists inst,
    target_of (ir_context s) message_ = Some inst /\
    supported_opcode (opcode inst) /\
    result_type_unusable (ir_context s) inst.
Proof.
  assert (Hok : result_type_known (ir_context s) message_ ->
                forall f', IsApplicable message_ s <> Fault f').
  { intros Hknown f' Hf.
    destruct (IsApplicable_verdict_spec message_ s Hknown) as (v & Hv & _).
    unfold IsApplicable, bind in Hf. by rewrite Hv in Hf. }
  split.
  - intros Hf.
    destruct (target_of (ir_context s) message_) as [inst|] eqn:Htgt.
    2: { exfalso. apply (Hok ltac:(intros i Hi; congruence) f Hf). }
    destruct (decide (supported_opcode (opcode inst))) as [Hop|Hop].
    2: { exfalso. apply (Hok ltac:(intros i Hi; by simplify_eq) f Hf). }
    destruct (type_mgr (ir_context s) !! type_id inst) as [t|] eqn:Ht.
    + destruct (AsVector t) as [v|] eqn:Hv.
      { exfalso. eapply Hok; [|exact Hf]. intros i Hi _. simplify_eq.
        exists t. split; [done|]. left. by rewrite Hv. }
      destruct (AsInteger t) as [i|] eqn:Hi.
      { exfalso. eapply Hok; [|exact Hf]. intros i' Hi' _. simplify_eq.
        exists t. split; [done|]. right. by rewrite Hi. }
      assert (Hbad : result_type_unusable (ir_context s) inst).
      { intros t' Ht'. rewrite Ht in Ht'. by simplify_eq. }
      assert (Hrun := IsApplicable_verdict_unusable_type _ _ _ Htgt Hop Hbad).
      unfold IsApplicable, bind in Hf. rewrite Hrun in Hf.
      split; [congruence | by exists inst].
    + assert (Hbad : result_type_unusable (ir_context s) inst).
      { intros t' Ht'. rewrite Ht in Ht'. discriminate. }
      assert (Hrun := IsApplicable_verdict_unusable_type _ _ _ Htgt Hop Hbad).
      unfold IsApplicable, bind in Hf. rewrite Hrun in Hf.
      split; [congruence | by exists inst].
  - intros [-> (inst & Htgt & Hop & Hbad)].
    unfold IsApplicable, bind.
    by rewrite (IsApplicable_verdict_unusable_type _ _ _ Htgt Hop Hbad).
Qed.

Lemma IsApplicable_fault_iff_witness :
  IsApplicable float_message float_state = Fault NullDereference.
Proof.
  apply (IsApplicable_fault_iff float_message float_state NullDereference).
  split; [reflexivity|].
  exists (mkInstruction SpvOpBitwiseOr 1 5 [IdOperand [3]; IdOperand [4]]).
  split; [reflexivity|]. split; [by left|].
  intros t Ht. vm_compute in Ht. injection Ht as <-. done.
Defined.

(** ** The length of an accepted id sequence *)

Lemma required_count_mod_4 w : wrap32 (wrap32 (4 * w) - 1) mod 4 = 3.
Proof.
  unfold wrap32. change (2 ^ 32) with 4294967296.
  Z.div_mod_to_equations. lia.
Qed.

(** X2.  The count [IsApplicable] compares the length of the id sequence
    with is of the form [4 * w - 1] also after wrapping to 32 bits, so a
    sequence it accepts has a length that leaves 3 on division by 4; an
    empty sequence is never accepted. *)
Theorem IsApplicable_length_mod_4 message_ s s' :
  IsApplicable message_ s = Ok (true, s') ->
  Z.of_nat (length (fresh_ids message_)) mod 4 = 3 /\
  fresh_ids message_ <> [].
Proof.
  intros Happ.
  destruct (IsApplicable_true_inv _ _ _ Happ)
    as (p & target & w & sg & _ & _ & _ & _ & _ & Hlen & _).
  assert (Hmod : Z.of_nat (length (fresh_ids message_)) mod 4 = 3).
  { rewrite Hlen. apply required_count_mod_4. }
  split; [exact Hmod|]. intros Hnil. rewrite Hnil in Hmod. discriminate.
Qed.

Lemma IsApplicable_length_mod_4_witness :
  Z.of_nat (length (fresh_ids example_message)) mod 4 = 3 /\
  fresh_ids example_message <> [].
Proof.
  apply (IsApplicable_length_mod_4 example_message example_state
           example_state).
  vm_compute. reflexivity.
Defined.

(** ** Inverting a run that returned *)

Lemma for_range_Ok_inv {A} (I : nat -> A -> State -> Prop) n i0
    (body : Z -> A -> M A) acc s acc' s' :
  I 0%nat acc s ->
  (forall k acc s acc' s', (k < n)%nat -> I k acc s ->
     body (i0 + Z.of_nat k) acc s = Ok (acc', s') -> I (S k) acc' s') ->
  for_range n i0 body acc s = Ok (acc', s') ->
  I n acc' s'.
Proof.
  revert I i0 acc s. induction n as [|n IH]; intros I i0 acc s H0 Hstep Hrun.
  - cbn in Hrun. unfold ret in Hrun. by simplify_eq.
  - cbn [for_range] in Hrun.
    apply bind_Ok_inv in Hrun as (acc1 & s1 & Hbody & Hrest).
    apply (IH (fun k => I (S k)) (i0 + 1) acc1 s1); [| |exact Hrest].
    + apply (Hstep 0%nat acc s); [lia|exact H0|].
      by replace (i0 + Z.of_nat 0) with i0 by lia.
    + intros k a1 t1 a2 t2 Hk HI Hb.
      apply (Hstep (S k) a1 t1); [lia|exact HI|].
      by replace (i0 + Z.of_nat (S k)) with (i0 + 1 + Z.of_nat k) by lia.
Qed.

Lemma for_each_Ok_inv {A B} (I : nat -> A -> State -> Prop) (l : list B)
    (body : B -> A -> M A) acc s acc' s' :
  I 0%nat acc s ->
  (forall k x acc s acc' s', l !! k = Some x -> I k acc s ->
     body x acc s = Ok (acc', s') -> I (S k) acc' s') ->
  for_each l body acc s = Ok (acc', s') ->
  I (length l) acc' s'.
Proof.
  revert I acc s. induction l as [|x l IH]; intros I acc s H0 Hstep Hrun.
  - cbn in Hrun. unfold ret in Hrun. by simplify_eq.
  - cbn [for_each] in Hrun.
    apply bind_Ok_inv in Hrun as (acc1 & s1 & Hbody & Hrest).
    apply (IH (fun k => I (S k)) acc1 s1); [| |exact Hrest].
    + by apply (Hstep 0%nat x acc s).
    + intros k y a1 t1 a2 t2 Hk HI Hb. by apply (Hstep (S k) y a1 t1).
Qed.

(** ** What a run leaves in place *)

Lemma extends_refl s : extends s s.
Proof. unfold extends. repeat split; try done; lia. Qed.

Lemma extends_trans s1 s2 s3 : extends s1 s2 -> extends s2 s3 -> extends s1 s3.
Proof.
  intros (a1 & a2 & a3 & a4 & a5 & a6) (b1 & b2 & b3 & b4 & b5 & b6).
  unfold extends. repeat split; [congruence|congruence|lia|by etrans..].
Qed.

Lemma only_adds_reads {A} (c : M A) : reads c -> only_adds c.
Proof. intros H s a s' Hc. rewrite (H _ _ _ Hc). apply extends_refl. Qed.

Lemma only_adds_bind {A B} (c : M A) (k : A -> M B) :
  only_adds c -> (forall a, only_adds (k a)) -> only_adds (bind c k).
Proof.
  intros Hc Hk s b s' Hrun.
  apply bind_Ok_inv in Hrun as (a & s1 & H1 & H2).
  eapply extends_trans; [exact (Hc _ _ _ H1)|exact (Hk _ _ _ _ H2)].
Qed.

Lemma only_adds_for_range {A} n i (body : Z -> A -> M A) acc :
  (forall j acc, only_adds (body j acc)) -> only_adds (for_range n i body acc).
Proof.
  intros Hbody s acc' s' Hrun.
  eapply (for_range_Ok_inv (fun _ _ t => extends s t));
    [apply extends_refl| |exact Hrun].
  intros k a1 t1 a2 t2 _ HI Hb.
  eapply extends_trans; [exact HI|exact (Hbody _ _ _ _ _ Hb)].
Qed.

Lemma only_adds_for_each {A B} (l : list B) (body : B -> A -> M A) acc :
  (forall x acc, only_adds (body x acc)) -> only_adds (for_each l body acc).
Proof.
  intros Hbody s acc' s' Hrun.
  eapply (for_each_Ok_inv (fun _ _ t => extends s t));
    [apply extends_refl| |exact Hrun].
  intros k x a1 t1 a2 t2 _ HI Hb.
  eapply extends_trans; [exact HI|exact (Hbody _ _ _ _ _ Hb)].
Qed.

Lemma only_adds_at_index v i : only_adds (at_index v i).
Proof.
  intros s a s' H. unfold at_index in H.
  destruct (v !! Z.to_nat i); [|discriminate].
  unfold ret in H. simplify_eq. apply extends_refl.
Qed.

Lemma only_adds_assign_index v i x : only_adds (assign_index v i x).
Proof.
  intros s a s' H. unfold assign_index in H.
  case_bool_decide; [|discriminate].
  unfold ret in H. simplify_eq. apply extends_refl.
Qed.

Lemma only_adds_begin_fresh_ids message_ :
  only_adds (begin_fresh_ids message_).
Proof.
  intros s a s' H. unfold begin_fresh_ids in H. simplify_eq.
  unfold extends. cbn. repeat split; try done; lia.
Qed.

Lemma only_adds_next_fresh_id : only_adds next_fresh_id.
Proof.
  intros s a s' H. unfold next_fresh_id in H.
  destruct (fresh_id s); [discriminate|]. simplify_eq.
  unfold extends. cbn. repeat split; try done; lia.
Qed.

Lemma sublist_insert_before p new l : l `sublist_of` insert_before p new l.
Proof.
  unfold insert_before.
  rewrite <- (take_drop (length l - p) l) at 1.
  apply sublist_app; [done|]. by apply sublist_cons.
Qed.

Lemma only_adds_InsertBefore p new : only_adds (InsertBefore p new).
Proof.
  intros s a s' H. unfold InsertBefore in H. simplify_eq.
  unfold extends. cbn. repeat split; try done; try lia.
  - apply sublist_insert_before.
  - by apply prefix_app_r.
Qed.

Lemma only_adds_UpdateModuleIdBound id : only_adds (UpdateModuleIdBound id).
Proof.
  intros s a s' H. unfold UpdateModuleIdBound in H. simplify_eq.
  unfold extends. cbn. repeat split; try done; try lia.
  by apply prefix_app_r.
Qed.

Lemma only_adds_InvalidateAnalysesExceptFor preserved :
  only_adds (InvalidateAnalysesExceptFor preserved).
Proof.
  intros s a s' H. unfold InvalidateAnalysesExceptFor in H. simplify_eq.
  unfold extends. cbn. repeat split; try done; try lia.
  by apply prefix_app_r.
Qed.

Lemma only_adds_AddFactDataSynonym d1 d2 :
  only_adds (AddFactDataSynonym d1 d2).
Proof.
  intros s a s' H. unfold AddFactDataSynonym in H. simplify_eq.
  unfold extends. cbn. repeat split; try done; try lia;
    by apply prefix_app_r.
Qed.

Lemma only_adds_ret {A} (a : A) : only_adds (ret a).
Proof. apply only_adds_reads, reads_ret. Qed.

Lemma only_adds_fail {A} f : only_adds (@fail A f).
Proof. apply only_adds_reads, reads_fail. Qed.

Create HintDb only_adds discriminated.
#[local] Hint Resolve only_adds_ret only_adds_fail only_adds_at_index
  only_adds_assign_index only_adds_begin_fresh_ids only_adds_next_fresh_id
  only_adds_InsertBefore only_adds_UpdateModuleIdBound
  only_adds_InvalidateAnalysesExceptFor only_adds_AddFactDataSynonym
  : only_adds.

Ltac only_adds_step :=
  first
    [ solve [auto with only_adds]
    | solve [apply only_adds_reads; auto with reads]
    | apply only_adds_bind; [|intros ?]
    | apply only_adds_for_range; intros ? ?
    | apply only_adds_for_each; intros ? ? ].

Lemma only_adds_AddBitwiseSynonym message_ p :
  only_adds (AddBitwiseSynonym message_ p).
Proof. unfold AddBitwiseSynonym. repeat only_adds_step. Qed.


(** X3.  Whatever descriptor [Apply] is given, validated or not, a run
    that returns has only added to the module: the declared types and
    constants are the same, the id bound is no lower, every instruction
    that was there is still there, in the same order, and the facts and the
    log of calls begin with what they held before. *)
Theorem Apply_only_adds message_ s s' :
  Apply message_ s = Ok (tt, s') ->
  type_mgr (ir_context s') = type_mgr (ir_context s) /\
  constant_mgr (ir_context s') = constant_mgr (ir_context s) /\
  module_id_bound (ir_context s) <= module_id_bound (ir_context s') /\
  module_insts (ir_context s) `sublist_of` module_insts (ir_context s') /\
  synonym_facts (transformation_context s)
    `prefix_of` synonym_facts (transformation_context s') /\
  log s `prefix_of` log s'.
Proof.
  assert (Hadds : only_adds (Apply message_)).
  { unfold Apply. repeat only_adds_step.
    destruct (opcode _);
      auto using only_adds_AddBitwiseSynonym with only_adds. }
  intros Hrun. exact (Hadds s tt s' Hrun).
Qed.

Lemma Apply_only_adds_witness :
  match Apply example_message example_state with
  | Ok (_, s') =>
      type_mgr (ir_context s') = example_types /\
      constant_mgr (ir_context s') = example_constants /\
      18 <= module_id_bound (ir_context s') /\
      module_insts example_ir `sublist_of` module_insts (ir_context s') /\
      [] `prefix_of` synonym_facts (transformation_context s') /\
      [] `prefix_of` log s'
  | Fault _ => False
  end.
Proof.
  destruct (Apply example_message example_state) as [[[] s']|f] eqn:Hrun.
  - exact (Apply_only_adds example_message example_state s' Hrun).
  - vm_compute in Hrun. discriminate.
Defined.

(** X4.  Whatever descriptor [Apply] is given, a run that returns leaves
    no analysis valid, and the last call it made is the invalidation at the
    end of [Apply]. *)
Theorem Apply_invalidates_all_analyses message_ s s' :
  Apply message_ s = Ok (tt, s') ->
  valid_analyses (ir_context s') = [] /\
  exists events, log s' = events ++ [EvInvalidateAnalyses].
Proof.
  intros Hrun. unfold Apply in Hrun.
  apply bind_Ok_inv in Hrun as (bi & s1 & _ & Hrun).
  apply bind_Ok_inv in Hrun as (p & s2 & _ & Hrun).
  apply bind_Ok_inv in Hrun as (inst & s3 & _ & Hrun).
  apply bind_Ok_inv in Hrun as (u & s4 & _ & Hrun).
  unfold InvalidateAnalysesExceptFor in Hrun. simplify_eq. cbn. split.
  - apply filter_none_preserved.
  - by exists (log s4).
Qed.

Lemma Apply_invalidates_all_analyses_witness :
  match Apply example_message example_state with
  | Ok (_, s') =>
      valid_analyses (ir_context s') = [] /\
      exists events, log s' = events ++ [EvInvalidateAnalyses]
  | Fault _ => False
  end.
Proof.
  destruct (Apply example_message example_state) as [[[] s']|f] eqn:Hrun.
  - exact (Apply_invalidates_all_analyses example_message example_state s'
             Hrun).
  - vm_compute in Hrun. discriminate.
Defined.

(** ** The faults [Apply] can end in *)

Lemma never_ends_in_elim {A} f (c : M A) s :
  never_ends_in f c -> c s = Fault f -> False.
Proof. intros H. apply H. Qed.

Lemma never_ret {A} f (a : A) : never_ends_in f (ret a).
Proof. by intros s. Qed.

Lemma never_fail {A} f f' : f' <> f -> never_ends_in f (@fail A f').
Proof. intros Hne s. unfold fail. congruence. Qed.

Lemma never_bind {A B} f (c : M A) (k : A -> M B) :
  never_ends_in f c -> (forall a, never_ends_in f (k a)) ->
  never_ends_in f (bind c k).
Proof.
  intros Hc Hk s. unfold bind.
  destruct (c s) as [[a s1]|f'] eqn:Hcs; [apply Hk|].
  intros Heq. apply (Hc s). congruence.
Qed.

Lemma never_for_range {A} f n i (body : Z -> A -> M A) acc :
  (forall j acc, never_ends_in f (body j acc)) ->
  never_ends_in f (for_range n i body acc).
Proof.
  intros Hbody. revert i acc. induction n as [|n IH]; intros i acc.
  - apply never_ret.
  - cbn [for_range]. apply never_bind; [apply Hbody|]. intros a. apply IH.
Qed.

Lemma never_for_each {A B} f (l : list B) (body : B -> A -> M A) acc :
  (forall x acc, never_ends_in f (body x acc)) ->
  never_ends_in f (for_each l body acc).
Proof.
  intros Hbody. revert acc. induction l as [|x l IH]; intros acc.
  - apply never_ret.
  - cbn [for_each]. apply never_bind; [apply Hbody|]. intros a. apply IH.
Qed.

Lemma never_deref {A} f (o : option A) :
  f <> NullDereference -> never_ends_in f (deref o).
Proof.
  intros Hne. destruct o; [apply never_ret|]. by apply never_fail.
Qed.

Lemma never_at_index f v i : f <> OutOfRange -> never_ends_in f (at_index v i).
Proof.
  intros Hne. unfold at_index.
  destruct (v !! Z.to_nat i); [apply never_ret|]. by apply never_fail.
Qed.

Lemma never_assign_index f v i x :
  f <> OutOfRange -> never_ends_in f (assign_index v i x).
Proof.
  intros Hne. unfold assign_index.
  case_bool_decide; [apply never_ret|]. by apply never_fail.
Qed.

Lemma never_GetType f id : never_ends_in f (GetType id).
Proof. by intros s. Qed.

Lemma never_MaybeGetIntegerConstant f ws w sg irr :
  never_ends_in f (MaybeGetIntegerConstant ws w sg irr).
Proof. by intros s. Qed.

Lemma never_next_fresh_id f : f <> OutOfRange -> never_ends_in f next_fresh_id.
Proof.
  intros Hne s. unfold next_fresh_id. destruct (fresh_id s); congruence.
Qed.

Lemma never_InsertBefore f p new : never_ends_in f (InsertBefore p new).
Proof. by intros s. Qed.

Lemma never_UpdateModuleIdBound f id : never_ends_in f (UpdateModuleIdBound id).
Proof. by intros s. Qed.

Lemma never_InvalidateAnalysesExceptFor f preserved :
  never_ends_in f (InvalidateAnalysesExceptFor preserved).
Proof. by intros s. Qed.

Lemma never_AddFactDataSynonym f d1 d2 :
  never_ends_in f (AddFactDataSynonym d1 d2).
Proof. by intros s. Qed.

Create HintDb never discriminated.
#[local] Hint Resolve never_ret never_GetType never_MaybeGetIntegerConstant
  never_InsertBefore never_UpdateModuleIdBound
  never_InvalidateAnalysesExceptFor never_AddFactDataSynonym : never.

Ltac never_step :=
  first
    [ solve [auto with never]
    | solve [apply never_fail; discriminate]
    | solve [apply never_deref; discriminate]
    | solve [apply never_at_index; discriminate]
    | solve [apply never_assign_index; discriminate]
    | solve [apply never_next_fresh_id; discriminate]
    | apply never_bind; [|intros ?]
    | apply never_for_range; intros ? ?
    | apply never_for_each; intros ? ? ].

(** The part of [AddBitwiseSynonym] that creates the instructions does not
    dereference a null pointer and does not reach an assertion: once the
    width is known, all that can go wrong is a read out of range. *)
Lemma AddBitwiseSynonym_fault message_ p s f :
  AddBitwiseSynonym message_ p s = Fault f ->
  f <> AssertionFailure /\
  (f = NullDereference ->
   forall target,
     instruction_at (module_insts (ir_context s)) p = Some target ->
     forall w sg,
       type_mgr (ir_context s) !! type_id target <> Some (Integer w sg)).
Proof.
  intros Hf. split.
  - intros ->. revert Hf. apply never_ends_in_elim.
    unfold AddBitwiseSynonym. repeat never_step.
    + intros s1. unfold begin_fresh_ids. congruence.
    + intros s1. unfold load. destruct (instruction_at _ _); congruence.
  - intros -> target Hat w sg Hty.
    unfold AddBitwiseSynonym in Hf.
    rewrite (run_bind _ _ s tt
               (mkState (ir_context s) (transformation_context s)
                  (fresh_ids message_) (log s))) in Hf by reflexivity.
    rewrite (run_bind _ _ _ target _) in Hf
      by (unfold load; cbn; by rewrite Hat).
    rewrite (run_bind _ _ _ (Some (Integer w sg)) _) in Hf
      by (unfold GetType; cbn; by rewrite Hty).
    rewrite (run_bind _ _ _ (Integer w sg) _) in Hf by reflexivity.
    rewrite (run_bind _ _ _ (w, sg) _) in Hf by reflexivity.
    revert Hf. apply never_ends_in_elim. repeat never_step.
Qed.

Lemma AddBitwiseSynonym_not_integer message_ p s target :
  instruction_at (module_insts (ir_context s)) p = Some target ->
  (forall w sg,
      type_mgr (ir_context s) !! type_id target <> Some (Integer w sg)) ->
  AddBitwiseSynonym message_ p s = Fault NullDereference.
Proof.
  intros Hat Hty. unfold AddBitwiseSynonym.
  rewrite (run_bind _ _ s tt
             (mkState (ir_context s) (transformation_context s)
                (fresh_ids message_) (log s))) by reflexivity.
  rewrite (run_bind _ _ _ target _) by (unfold load; cbn; by rewrite Hat).
  unfold bind at 1, GetType at 1. cbn [ir_context].
  destruct (type_mgr (ir_context s) !! type_id target) as [t|] eqn:Ht;
    [|reflexivity].
  destruct t as [|w sg|w|e n]; try reflexivity.
  by destruct (Hty w sg).
Qed.

Lemma Apply_undefined message_ s :
  find_def (module_insts (ir_context s)) (instruction_result_id message_)
  = None ->
  Apply message_ s = Fault NullDereference.
Proof.
  intros Hdef. unfold Apply.
  rewrite (run_bind _ _ s None s) by (unfold GetDef; by rewrite Hdef).
  reflexivity.
Qed.

Lemma Apply_supported message_ s p inst :
  find_def (module_insts (ir_context s)) (instruction_result_id message_)
  = Some p ->
  instruction_at (module_insts (ir_context s)) p = Some inst ->
  supported_opcode (opcode inst) ->
  Apply message_ s
  = (AddBitwiseSynonym message_ p ;;
     InvalidateAnalysesExceptFor kAnalysisNone) s.
Proof.
  intros Hdef Hat Hop. unfold Apply.
  rewrite (run_bind _ _ s (Some p) s) by (unfold GetDef; by rewrite Hdef).
  rewrite (run_bind _ _ s p s) by reflexivity.
  rewrite (run_bind _ _ s inst s) by (unfold load; by rewrite Hat).
  by destruct Hop as [->|[->| ->]].
Qed.

Lemma Apply_unsupported message_ s p inst :
  find_def (module_insts (ir_context s)) (instruction_result_id message_)
  = Some p ->
  instruction_at (module_insts (ir_context s)) p = Some inst ->
  ~ supported_opcode (opcode inst) ->
  Apply message_ s = Fault AssertionFailure.
Proof.
  intros Hdef Hat Hop. unfold Apply.
  rewrite (run_bind _ _ s (Some p) s) by (unfold GetDef; by rewrite Hdef).
  rewrite (run_bind _ _ s p s) by reflexivity.
  rewrite (run_bind _ _ s inst s) by (unfold load; by rewrite Hat).
  unfold supported_opcode in Hop.
  destruct (opcode inst); try reflexivity; exfalso; apply Hop; auto.
Qed.

Lemma target_of_None ir message_ :
  target_of ir message_ = None <->
  find_def (module_insts ir) (instruction_result_id message_) = None.
Proof.
  unfold target_of.
  destruct (find_def _ _) as [p|] eqn:Hdef; [|done].
  destruct (find_def_instruction_at _ _ _ Hdef) as [inst ->]. done.
Qed.

(** X5.  [Apply] ends in its assertion, the [default] case of the switch
    on the opcode, exactly when the descriptor names an instruction whose
    opcode is not one of the three supported ones.  Nothing
    [AddBitwiseSynonym] does can fail an assertion. *)
Theorem Apply_assertion_failure_iff message_ s :
  Apply message_ s = Fault AssertionFailure <->
  exists inst,
    target_of (ir_context s) message_ = Some inst /\
    ~ supported_opcode (opcode inst).
Proof.
  split.
  - intros Hf.
    destruct (find_def (module_insts (ir_context s))
                (instruction_result_id message_)) as [p|] eqn:Hdef.
    2: { rewrite (Apply_undefined _ _ Hdef) in Hf. discriminate. }
    destruct (find_def_instruction_at _ _ _ Hdef) as [inst Hat].
    assert (Htgt : target_of (ir_context s) message_ = Some inst).
    { unfold target_of. by rewrite Hdef. }
    destruct (decide (supported_opcode (opcode inst))) as [Hop|Hop];
      [|by exists inst].
    exfalso. rewrite (Apply_supported _ _ _ _ Hdef Hat Hop) in Hf.
    unfold bind in Hf.
    destruct (AddBitwiseSynonym message_ p s) as [[u s1]|f] eqn:Hrun;
      [discriminate|].
    apply AddBitwiseSynonym_fault in Hrun as [Hne _]. congruence.
  - intros (inst & Htgt & Hop).
    destruct (target_of_Some _ _ _ Htgt) as (p & Hdef & Hat).
    exact (Apply_unsupported _ _ _ _ Hdef Hat Hop).
Qed.

Lemma Apply_assertion_failure_iff_witness :
  Apply (mkMessage 6 []) example_state = Fault AssertionFailure.
Proof.
  apply (Apply_assertion_failure_iff (mkMessage 6 []) example_state).
  exists (mkInstruction SpvOpIAdd 1 6 [IdOperand [5]; IdOperand [3]]).
  split; [reflexivity|].
  intros [H|[H|H]]; discriminate.
Defined.

(** X6.  [Apply] dereferences a null pointer in exactly two cases: the
    descriptor names no instruction of the module, so that [GetDef] gives
    null; or the target has a supported opcode and its result type is not
    declared or is not an integer, a vector included, so that [GetType] or
    [AsInteger] gives null in [AddBitwiseSynonym]. *)
Theorem Apply_null_dereference_iff message_ s :
  Apply message_ s = Fault NullDereference <->
  target_of (ir_context s) message_ = None \/
  exists inst,
    target_of (ir_context s) message_ = Some inst /\
    supported_opcode (opcode inst) /\
    forall w sg, type_mgr (ir_context s) !! type_id inst <> Some (Integer w sg).
Proof.
  split.
  - intros Hf.
    destruct (find_def (module_insts (ir_context s))
                (instruction_result_id message_)) as [p|] eqn:Hdef.
    2: { left. by apply target_of_None. }
    destruct (find_def_instruction_at _ _ _ Hdef) as [inst Hat].
    assert (Htgt : target_of (ir_context s) message_ = Some inst).
    { unfold target_of. by rewrite Hdef. }
    destruct (decide (supported_opcode (opcode inst))) as [Hop|Hop].
    2: { rewrite (Apply_unsupported _ _ _ _ Hdef Hat Hop) in Hf.
         discriminate. }
    right. exists inst. split; [exact Htgt|]. split; [exact Hop|].
    rewrite (Apply_supported _ _ _ _ Hdef Hat Hop) in Hf.
    unfold bind in Hf.
    destruct (AddBitwiseSynonym message_ p s) as [[u s1]|f] eqn:Hrun;
      [discriminate|].
    apply AddBitwiseSynonym_fault in Hrun as [_ Hnull].
    apply Hnull; [congruence|exact Hat].
  - intros [Hnone|(inst & Htgt & Hop & Hty)].
    + apply Apply_undefined. by apply target_of_None.
    + destruct (target_of_Some _ _ _ Htgt) as (p & Hdef & Hat).
      rewrite (Apply_supported _ _ _ _ Hdef Hat Hop). unfold bind.
      by rewrite (AddBitwiseSynonym_not_integer _ _ _ _ Hat Hty).
Qed.

Lemma Apply_null_dereference_iff_witness :
  Apply float_message float_state = Fault NullDereference.
Proof.
  apply (Apply_null_dereference_iff float_message float_state).
  right.
  exists (mkInstruction SpvOpBitwiseOr 1 5 [IdOperand [3]; IdOperand [4]]).
  split; [reflexivity|]. split; [by left|].
  intros w sg Ht. vm_compute in Ht. discriminate.
Defined.

(** ** Ids beyond the ones a run takes *)

Lemma ignores_surplus_elim {A} (c : M A) extra s a s' :
  ignores_surplus c -> c s = Ok (a, s') ->
  c (with_surplus extra s) = Ok (a, with_surplus extra s').
Proof. intros H. apply H. Qed.

Lemma ignores_ret {A} (a : A) : ignores_surplus (ret a).
Proof. intros extra s a' s' H. unfold ret in *. by simplify_eq. Qed.

Lemma ignores_fail {A} f : ignores_surplus (@fail A f).
Proof. intros extra s a s' H. discriminate. Qed.

Lemma ignores_bind {A B} (c : M A) (k : A -> M B) :
  ignores_surplus c -> (forall a, ignores_surplus (k a)) ->
  ignores_surplus (bind c k).
Proof.
  intros Hc Hk extra s b s' Hrun.
  apply bind_Ok_inv in Hrun as (a & s1 & H1 & H2).
  rewrite (run_bind _ _ _ _ _ (Hc extra _ _ _ H1)).
  exact (Hk a extra _ _ _ H2).
Qed.

Lemma ignores_for_range {A} n i (body : Z -> A -> M A) acc :
  (forall j acc, ignores_surplus (body j acc)) ->
  ignores_surplus (for_range n i body acc).
Proof.
  intros Hbody. revert i acc. induction n as [|n IH]; intros i acc.
  - apply ignores_ret.
  - cbn [for_range]. apply ignores_bind; [apply Hbody|]. intros a. apply IH.
Qed.

Lemma ignores_for_each {A B} (l : list B) (body : B -> A -> M A) acc :
  (forall x acc, ignores_surplus (body x acc)) ->
  ignores_surplus (for_each l body acc).
Proof.
  intros Hbody. revert acc. induction l as [|x l IH]; intros acc.
  - apply ignores_ret.
  - cbn [for_each]. apply ignores_bind; [apply Hbody|]. intros a. apply IH.
Qed.

Lemma ignores_deref {A} (o : option A) : ignores_surplus (deref o).
Proof. destruct o; [apply ignores_ret|apply ignores_fail]. Qed.

Lemma ignores_at_index v i : ignores_surplus (at_index v i).
Proof.
  unfold at_index. destruct (v !! Z.to_nat i);
    [apply ignores_ret|apply ignores_fail].
Qed.

Lemma ignores_assign_index v i x : ignores_surplus (assign_index v i x).
Proof.
  unfold assign_index. case_bool_decide;
    [apply ignores_ret|apply ignores_fail].
Qed.

Lemma ignores_load p : ignores_surplus (load p).
Proof.
  intros extra s a s' H. unfold load in *. cbn.
  destruct (instruction_at _ _); by simplify_eq.
Qed.

Lemma ignores_GetType id : ignores_surplus (GetType id).
Proof. intros extra s a s' H. unfold GetType in *. by simplify_eq. Qed.

Lemma ignores_MaybeGetIntegerConstant ws w sg irr :
  ignores_surplus (MaybeGetIntegerConstant ws w sg irr).
Proof.
  intros extra s a s' H. unfold MaybeGetIntegerConstant in *. by simplify_eq.
Qed.

Lemma ignores_next_fresh_id : ignores_surplus next_fresh_id.
Proof.
  intros extra s a s' H. unfold next_fresh_id in *. cbn.
  destruct (fresh_id s); by simplify_eq.
Qed.

Lemma ignores_InsertBefore p new : ignores_surplus (InsertBefore p new).
Proof. intros extra s a s' H. unfold InsertBefore in *. by simplify_eq. Qed.

Lemma ignores_UpdateModuleIdBound id :
  ignores_surplus (UpdateModuleIdBound id).
Proof.
  intros extra s a s' H. unfold UpdateModuleIdBound in *. by simplify_eq.
Qed.

Lemma ignores_InvalidateAnalysesExceptFor preserved :
  ignores_surplus (InvalidateAnalysesExceptFor preserved).
Proof.
  intros extra s a s' H. unfold InvalidateAnalysesExceptFor in *.
  by simplify_eq.
Qed.

Lemma ignores_AddFactDataSynonym d1 d2 :
  ignores_surplus (AddFactDataSynonym d1 d2).
Proof.
  intros extra s a s' H. unfold AddFactDataSynonym in *. by simplify_eq.
Qed.

Create HintDb ignores discriminated.
#[local] Hint Resolve ignores_ret ignores_fail ignores_deref ignores_at_index
  ignores_assign_index ignores_load ignores_GetType
  ignores_MaybeGetIntegerConstant ignores_next_fresh_id ignores_InsertBefore
  ignores_UpdateModuleIdBound ignores_InvalidateAnalysesExceptFor
  ignores_AddFactDataSynonym : ignores.

Ltac ignores_step :=
  first
    [ solve [auto with ignores]
    | apply ignores_bind; [|intros ?]
    | apply ignores_for_range; intros ? ?
    | apply ignores_for_each; intros ? ? ].

(** [AddBitwiseSynonym] on a descriptor with more ids than a run took does
    what that run did. *)
Lemma AddBitwiseSynonym_surplus id ids extra p s s' :
  AddBitwiseSynonym (mkMessage id ids) p s = Ok (tt, s') ->
  AddBitwiseSynonym (mkMessage id (ids ++ extra)) p s
  = Ok (tt, with_surplus extra s').
Proof.
  intros Hrun. unfold AddBitwiseSynonym in *.
  apply bind_Ok_inv in Hrun as ([] & s0 & Hbegin & Hrest).
  unfold begin_fresh_ids in Hbegin. cbn in Hbegin. simplify_eq.
  rewrite (run_bind _ _ s tt
             (with_surplus extra
                (mkState (ir_context s) (transformation_context s) ids
                   (log s)))) by reflexivity.
  revert Hrest. apply ignores_surplus_elim. repeat ignores_step.
Qed.

Lemma Apply_surplus id ids extra s s' :
  Apply (mkMessage id ids) s = Ok (tt, s') ->
  Apply (mkMessage id (ids ++ extra)) s = Ok (tt, with_surplus extra s').
Proof.
  intros Hrun. unfold Apply in *. cbn [instruction_result_id] in *.
  apply bind_Ok_inv in Hrun as (bi & s1 & H1 & Hrun).
  rewrite (run_bind _ _ _ _ _ H1).
  apply bind_Ok_inv in Hrun as (p & s2 & H2 & Hrun).
  rewrite (run_bind _ _ _ _ _ H2).
  apply bind_Ok_inv in Hrun as (inst & s3 & H3 & Hrun).
  rewrite (run_bind _ _ _ _ _ H3).
  apply bind_Ok_inv in Hrun as ([] & s4 & H4 & Hrun).
  assert (H4' : match opcode inst with
                | SpvOpBitwiseOr | SpvOpBitwiseXor | SpvOpBitwiseAnd =>
                    AddBitwiseSynonym (mkMessage id (ids ++ extra)) p
                | _ => fail AssertionFailure
                end s3 = Ok (tt, with_surplus extra s4)).
  { destruct (opcode inst); try discriminate;
      by apply AddBitwiseSynonym_surplus. }
  rewrite (run_bind _ _ _ _ _ H4').
  unfold InvalidateAnalysesExceptFor in *. by simplify_eq.
Qed.

Lemma Apply_run_surplus message_ s p target opx opy w sg :
  find_def (module_insts (ir_context s)) (instruction_result_id message_)
  = Some p ->
  instruction_at (module_insts (ir_context s)) p = Some target ->
  supported_opcode (opcode target) ->
  in_operands target = [opx; opy] ->
  type_mgr (ir_context s) !! type_id target = Some (Integer w sg) ->
  2 <= w ->
  4 * w - 1 <= Z.of_nat (length (fresh_ids message_)) ->
  let n := Z.to_nat (4 * w - 1) in
  let ids := take n (fresh_ids message_) in
  Apply message_ s
  = Ok (tt, with_surplus (drop n (fresh_ids message_))
              (applied (mkMessage (instruction_result_id message_) ids) p
                 target
                 (spec_chain (ir_context s) target opx opy ids (Z.to_nat w))
                 s)).
Proof.
  intros Hdef Hat Hop Hops Hty Hw Hlen n ids.
  destruct message_ as [id fresh]. cbn [fresh_ids instruction_result_id] in *.
  assert (Hlen_ids : length ids = n).
  { unfold ids. rewrite length_take. lia. }
  assert (Hrun1 := Apply_run (mkMessage id ids) s p target opx opy w sg
                     Hdef Hat Hop Hops Hty Hw ltac:(cbn; lia)).
  cbn [fresh_ids] in Hrun1.
  apply (Apply_surplus id ids (drop n fresh)) in Hrun1.
  unfold ids at 1 in Hrun1. by rewrite take_drop in Hrun1.
Qed.

(** X7.  What [Apply] needs in order to return is less than what
    [IsApplicable] asks for.  For a target with two operands, a supported
    opcode and an integer result type of a width of at least 2, [Apply]
    returns as soon as the descriptor holds at least [4 * w - 1] ids: it
    takes the first [4 * w - 1] of them for the chain and leaves the others
    in the iterator.  Neither the index constants nor the freshness of the
    ids play a part in that. *)
Theorem Apply_needs_no_validation message_ s target opx opy w sg :
  target_of (ir_context s) message_ = Some target ->
  supported_opcode (opcode target) ->
  in_operands target = [opx; opy] ->
  type_mgr (ir_context s) !! type_id target = Some (Integer w sg) ->
  2 <= w ->
  4 * w - 1 <= Z.of_nat (length (fresh_ids message_)) ->
  exists s' pre post,
    Apply message_ s = Ok (tt, s') /\
    module_insts (ir_context s) = pre ++ target :: post /\
    module_insts (ir_context s')
    = pre
      ++ spec_chain (ir_context s) target opx opy
           (take (Z.to_nat (4 * w - 1)) (fresh_ids message_)) (Z.to_nat w)
      ++ target :: post /\
    fresh_id s' = drop (Z.to_nat (4 * w - 1)) (fresh_ids message_).
Proof.
  intros Htgt Hop Hops Hty Hw Hlen.
  destruct (target_of_Some _ _ _ Htgt) as (p & Hdef & Hat).
  destruct (instruction_at_inv _ _ _ Hat) as (pre & post & Hsplit & Hp).
  assert (Hrun := Apply_run_surplus message_ s p target opx opy w sg
                    Hdef Hat Hop Hops Hty Hw Hlen).
  cbv zeta in Hrun.
  set (n := Z.to_nat (4 * w - 1)) in *.
  set (ids := take n (fresh_ids message_)) in *.
  assert (Hlen_ids : length ids = n).
  { unfold ids. rewrite length_take. lia. }
  assert (Hchain : length (spec_chain (ir_context s) target opx opy ids
                             (Z.to_nat w)) = n).
  { rewrite length_spec_chain; lia. }
  eexists _, pre, post. split; [exact Hrun|]. split; [exact Hsplit|].
  split.
  - cbn [with_surplus ir_context]. by apply module_insts_applied.
  - cbn [with_surplus fresh_id]. rewrite fresh_id_applied.
    cbn [fresh_ids]. rewrite Hchain, <- Hlen_ids, drop_all. done.
Qed.

Lemma Apply_needs_no_validation_witness :
  exists s' pre post,
    Apply (mkMessage 5 (replicate 40 7)) example_state = Ok (tt, s') /\
    module_insts (ir_context example_state) = pre ++ example_target :: post /\
    module_insts (ir_context s')
    = pre
      ++ spec_chain (ir_context example_state) example_target
           (IdOperand [3]) (IdOperand [4])
           (take (Z.to_nat (4 * 8 - 1)) (fresh_ids (mkMessage 5 (replicate 40 7))))
           (Z.to_nat 8)
      ++ example_target :: post /\
    fresh_id s'
    = drop (Z.to_nat (4 * 8 - 1)) (fresh_ids (mkMessage 5 (replicate 40 7))).
Proof.
  apply (Apply_needs_no_validation (mkMessage 5 (replicate 40 7))
           example_state example_target (IdOperand [3]) (IdOperand [4]) 8
           false).
  - reflexivity.
  - right; left; reflexivity.
  - reflexivity.
  - reflexivity.
  - lia.
  - vm_compute. discriminate.
Defined.

(** ** What a run that returned has taken *)

Lemma at_index_Ok v i s x s' :
  at_index v i s = Ok (x, s') -> v !! Z.to_nat i = Some x /\ s' = s.
Proof.
  unfold at_index. destruct (v !! Z.to_nat i); [|discriminate].
  unfold ret. intros H. by simplify_eq.
Qed.

Lemma assign_index_Ok v i x s v' s' :
  assign_index v i x s = Ok (v', s') -> length v' = length v /\ s' = s.
Proof.
  unfold assign_index. case_bool_decide; [|discriminate].
  unfold ret. intros Hr. simplify_eq. by rewrite length_insert.
Qed.

Lemma deref_Ok {A} (o : option A) s a s' :
  deref o s = Ok (a, s') -> o = Some a /\ s' = s.
Proof. destruct o; [|discriminate]. unfold deref, ret. intros H. by simplify_eq. Qed.

Lemma load_Ok p s inst s' :
  load p s = Ok (inst, s') ->
  instruction_at (module_insts (ir_context s)) p = Some inst /\ s' = s.
Proof.
  unfold load. destruct (instruction_at _ _); [|discriminate].
  intros H. by simplify_eq.
Qed.

Lemma MaybeGetIntegerConstant_Ok ws w sg irr s c s' :
  MaybeGetIntegerConstant ws w sg irr s = Ok (c, s') -> s' = s.
Proof. unfold MaybeGetIntegerConstant. intros H. by simplify_eq. Qed.

(** Creating one instruction takes one id. *)
Lemma emit_Ok {A} p (mk : Z -> Instruction) (k : Z -> M A) s a s' :
  bind next_fresh_id
    (fun id => bind (InsertBefore p (mk id))
       (fun _ => bind (UpdateModuleIdBound (result_id (mk id)))
          (fun _ => k id))) s = Ok (a, s') ->
  exists id s1,
    length (fresh_id s) = S (length (fresh_id s1)) /\ k id s1 = Ok (a, s').
Proof.
  intros H.
  apply bind_Ok_inv in H as (id & t1 & H1 & H).
  apply bind_Ok_inv in H as (u1 & t2 & H2 & H).
  apply bind_Ok_inv in H as (u2 & t3 & H3 & H).
  exists id, t3. split; [|exact H].
  unfold next_fresh_id in H1. destruct (fresh_id s) as [|f fs] eqn:Hfs;
    [discriminate|].
  unfold InsertBefore in H2. unfold UpdateModuleIdBound in H3.
  by simplify_eq.
Qed.

Lemma emit_ret_Ok {A B} p (mk : Z -> Instruction) (r : Z -> B)
    (k : B -> M A) s a s' :
  bind next_fresh_id
    (fun id => bind (bind (InsertBefore p (mk id))
                       (fun _ => bind (UpdateModuleIdBound (result_id (mk id)))
                                   (fun _ => ret (r id)))) k) s
  = Ok (a, s') ->
  exists id s1,
    length (fresh_id s) = S (length (fresh_id s1)) /\ k (r id) s1 = Ok (a, s').
Proof.
  intros H.
  apply bind_Ok_inv in H as (id & t1 & H1 & H).
  apply bind_Ok_inv in H as (b & t4 & H2 & H).
  apply bind_Ok_inv in H2 as (u1 & t2 & H2 & H3).
  apply bind_Ok_inv in H3 as (u2 & t3 & H3 & H4).
  unfold ret in H4. injection H4 as <- <-.
  exists id, t3. split; [|exact H].
  unfold next_fresh_id in H1. destruct (fresh_id s) as [|f fs] eqn:Hfs;
    [discriminate|].
  unfold InsertBefore in H2. unfold UpdateModuleIdBound in H3.
  by simplify_eq.
Qed.

Lemma for_each_takes {B} (l : list B) (body : B -> list Z -> M (list Z))
    acc s acc' s' :
  (forall x a t a' t',
      body x a t = Ok (a', t') ->
      length a' = S (length a) /\
      length (fresh_id t) = S (length (fresh_id t'))) ->
  for_each l body acc s = Ok (acc', s') ->
  length acc' = (length acc + length l)%nat /\
  length (fresh_id s) = (length l + length (fresh_id s'))%nat.
Proof.
  intros Hbody Hrun.
  apply (for_each_Ok_inv
           (fun k a t => length a = (length acc + k)%nat /\
                         length (fresh_id s)
                         = (k + length (fresh_id t))%nat)
           l body acc s acc' s');
    [cbv beta; lia| |exact Hrun].
  cbv beta. intros k x a t a' t' _ [Ha Ht] Hb.
  destruct (Hbody _ _ _ _ _ Hb) as [Ha' Ht']. lia.
Qed.

(** What [AddBitwiseSynonym] has read and taken when it returns. *)
Lemma AddBitwiseSynonym_Ok message_ p s s' :
  AddBitwiseSynonym message_ p s = Ok (tt, s') ->
  exists target w sg,
    instruction_at (module_insts (ir_context s)) p = Some target /\
    type_mgr (ir_context s) !! type_id target = Some (Integer w sg) /\
    2 <= w /\
    (2 <= length (in_operands target))%nat /\
    Z.of_nat (length (fresh_ids message_))
    = (Z.of_nat (length (in_operands target)) + 2) * w - 1
      + Z.of_nat (length (fresh_id s')).
Proof.
  intros H. unfold AddBitwiseSynonym in H.
  apply bind_Ok_inv in H as ([] & s0 & H0 & H).
  unfold begin_fresh_ids in H0. injection H0 as <-.
  apply bind_Ok_inv in H as (target & s1 & H1 & H).
  apply load_Ok in H1 as [Hat ->]. cbn [ir_context] in Hat.
  apply bind_Ok_inv in H as (oty & s1 & H1 & H).
  unfold GetType in H1. injection H1 as <- <-. cbn [ir_context] in H.
  apply bind_Ok_inv in H as (ty & s1 & H1 & H).
  apply deref_Ok in H1 as [Hty ->].
  apply bind_Ok_inv in H as ([w sg] & s1 & H1 & H).
  apply deref_Ok in H1 as [Hint ->].
  destruct ty as [|w' sg'|w'|e n]; try discriminate. injection Hint as -> ->.
  cbn [fst] in H.
  apply bind_Ok_inv in H as (count & s1 & H1 & H).
  apply MaybeGetIntegerConstant_Ok in H1 as ->.
  apply bind_Ok_inv in H as (bitwise_ids & sA & HA & H).
  set (W := Z.to_nat w) in *. set (n := length (in_operands target)).
  set (fresh := fresh_ids message_) in *.
  eapply (for_range_Ok_inv
            (fun k acc t =>
               length acc = W /\
               length fresh = (k * (n + 1) + length (fresh_id t))%nat /\
               ((0 < k)%nat -> (2 <= n)%nat))) in HA.
  2: { cbn [fresh_id]. rewrite length_replicate. lia. }
  2: { intros k acc t acc' t' _ (Hacc & Hfr & _) Hb.
       apply bind_Ok_inv in Hb as (offset & t1 & G1 & Hb).
       apply MaybeGetIntegerConstant_Ok in G1 as ->.
       apply bind_Ok_inv in Hb as (ids & t1 & G1 & Hb).
       apply for_each_takes in G1 as [Hids Ht1].
       2: { intros x a0 t0 a' t0' Hx.
            apply emit_Ok in Hx as (id & t2 & Hfr2 & Hx).
            unfold ret in Hx. simplify_eq.
            rewrite length_app. cbn. lia. }
       apply bind_Ok_inv in Hb as (e0 & t2 & G2 & Hb).
       apply at_index_Ok in G2 as [_ ->].
       apply bind_Ok_inv in Hb as (e1 & t2 & G2 & Hb).
       apply at_index_Ok in G2 as [He1 ->].
       apply lookup_lt_Some in He1. cbn in Hids.
       change (Z.to_nat 1) with 1%nat in He1.
       apply emit_Ok in Hb as (id & t2 & Hfr2 & Hb).
       apply assign_index_Ok in Hb as [Hlen ->].
       fold n in Hids, Ht1. split; [lia|]. split; [lia|]. intros _. lia. }
  destruct HA as (HlenA & HfrA & Hn).
  apply bind_Ok_inv in H as (offset & s1 & H1 & H).
  apply MaybeGetIntegerConstant_Ok in H1 as ->.
  apply bind_Ok_inv in H as (b0 & s1 & H1 & H).
  apply at_index_Ok in H1 as [_ ->].
  apply bind_Ok_inv in H as (b1 & s1 & H1 & H).
  apply at_index_Ok in H1 as [Hb1 ->].
  apply lookup_lt_Some in Hb1. change (Z.to_nat 1) with 1%nat in Hb1.
  apply emit_Ok in H as (id & sB & HfrB & H).
  apply bind_Ok_inv in H as (bit_insert & sC & HC & H).
  eapply (for_range_Ok_inv
            (fun k (_ : Instruction) t =>
               length (fresh_id sB) = (k + length (fresh_id t))%nat)) in HC.
  2: { lia. }
  2: { intros k acc t acc' t' _ Hfr Hb.
       apply bind_Ok_inv in Hb as (offset' & t1 & G1 & Hb).
       apply MaybeGetIntegerConstant_Ok in G1 as ->.
       apply bind_Ok_inv in Hb as (bi & t1 & G1 & Hb).
       apply at_index_Ok in G1 as [_ ->].
       apply emit_Ok in Hb as (id' & t1 & Hfr1 & Hb).
       unfold ret in Hb. simplify_eq. lia. }
  apply bind_Ok_inv in H as (u & sD & HD & H).
  unfold InvalidateAnalysesExceptFor in HD. unfold AddFactDataSynonym in H.
  simplify_eq. cbn [fresh_id].
  exists target, w, sg. split; [exact Hat|]. split; [exact Hty|].
  assert (Hw : 2 <= w) by lia.
  split; [exact Hw|]. split; [apply Hn; lia|].
  apply (f_equal Z.of_nat) in HfrA.
  rewrite Nat2Z.inj_add, Nat2Z.inj_mul, Z2Nat.id in HfrA by lia.
  fold n. nia.
Qed.

(** X8.  A run of [Apply] that returns has found a target with a
    supported opcode, an integer result type of a width [w] of at least 2
    and [n >= 2] operands, and has taken [(n + 2) * w - 1] ids from the
    descriptor: [n] extracts and one bitwise instruction per bit, and
    [w - 1] inserts.  For a target with two operands that is the count
    [4 * w - 1] of [GetRequiredFreshIdCount]. *)
Theorem Apply_returns_only_if message_ s s' :
  Apply message_ s = Ok (tt, s') ->
  exists target w sg,
    target_of (ir_context s) message_ = Some target /\
    supported_opcode (opcode target) /\
    type_mgr (ir_context s) !! type_id target = Some (Integer w sg) /\
    2 <= w /\
    (2 <= length (in_operands target))%nat /\
    Z.of_nat (length (fresh_ids message_))
    = (Z.of_nat (length (in_operands target)) + 2) * w - 1
      + Z.of_nat (length (fresh_id s')).
Proof.
  intros Hrun.
  destruct (find_def (module_insts (ir_context s))
              (instruction_result_id message_)) as [p|] eqn:Hdef.
  2: { rewrite (Apply_undefined _ _ Hdef) in Hrun. discriminate. }
  destruct (find_def_instruction_at _ _ _ Hdef) as [inst Hat].
  destruct (decide (supported_opcode (opcode inst))) as [Hop|Hop].
  2: { rewrite (Apply_unsupported _ _ _ _ Hdef Hat Hop) in Hrun.
       discriminate. }
  rewrite (Apply_supported _ _ _ _ Hdef Hat Hop) in Hrun.
  apply bind_Ok_inv in Hrun as ([] & s1 & H1 & Hrun).
  apply AddBitwiseSynonym_Ok in H1
    as (target & w & sg & Hat' & Hty & Hw & Hn & Hlen).
  rewrite Hat in Hat'. injection Hat' as <-.
  unfold InvalidateAnalysesExceptFor in Hrun. simplify_eq. cbn [fresh_id].
  exists inst, w, sg. split.
  { unfold target_of. by rewrite Hdef. }
  done.
Qed.

Lemma Apply_returns_only_if_witness :
  match Apply example_message example_state with
  | Ok (_, s') =>
      exists target w sg,
        target_of (ir_context example_state) example_message = Some target /\
        supported_opcode (opcode target) /\
        type_mgr (ir_context example_state) !! type_id target
        = Some (Integer w sg) /\
        2 <= w /\
        (2 <= length (in_operands target))%nat /\
        Z.of_nat (length (fresh_ids example_message))
        = (Z.of_nat (length (in_operands target)) + 2) * w - 1
          + Z.of_nat (length (fresh_id s'))
  | Fault _ => False
  end.
Proof.
  destruct (Apply example_message example_state) as [[[] s']|f] eqn:Hrun.
  - exact (Apply_returns_only_if example_message example_state s' Hrun).
  - vm_compute in Hrun. discriminate.
Defined.

(** ** When [Apply] reads out of range *)

(** X9.  With X5 and X6 this settles every outcome of [Apply] on a target
    with two operands.  It reads out of range, in the vector
    [bitwise_ids] or past the end of the ids of the descriptor, exactly
    when the opcode is supported, the result type is an integer, and the
    width is below 2 or the descriptor holds fewer than [4 * w - 1]
    ids. *)
Theorem Apply_out_of_range_iff message_ s target opx opy :
  target_of (ir_context s) message_ = Some target ->
  in_operands target = [opx; opy] ->
  (Apply message_ s = Fault OutOfRange <->
   supported_opcode (opcode target) /\
   exists w sg,
     type_mgr (ir_context s) !! type_id target = Some (Integer w sg) /\
     (w < 2 \/ Z.of_nat (length (fresh_ids message_)) < 4 * w - 1)).
Proof.
  intros Htgt Hops.
  destruct (target_of_Some _ _ _ Htgt) as (p & Hdef & Hat).
  split.
  - intros Hf.
    destruct (decide (supported_opcode (opcode target))) as [Hop|Hop].
    2: { rewrite (Apply_unsupported _ _ _ _ Hdef Hat Hop) in Hf.
         discriminate. }
    split; [exact Hop|].
    destruct (type_mgr (ir_context s) !! type_id target) as [t|] eqn:Hty.
    2: { rewrite (Apply_supported _ _ _ _ Hdef Hat Hop) in Hf.
         unfold bind in Hf.
         rewrite (AddBitwiseSynonym_not_integer _ _ _ _ Hat) in Hf
           by (intros w sg; by rewrite Hty).
         discriminate. }
    assert (Hni : (exists w sg, t = Integer w sg) \/
                  forall w sg, t <> Integer w sg).
    { destruct t; eauto. }
    destruct Hni as [(w & sg & ->)|Hni].
    2: { rewrite (Apply_supported _ _ _ _ Hdef Hat Hop) in Hf.
         unfold bind in Hf.
         rewrite (AddBitwiseSynonym_not_integer _ _ _ _ Hat) in Hf.
         - discriminate.
         - intros w sg Heq. rewrite Hty in Heq. apply (Hni w sg).
           congruence. }
    exists w, sg. split; [done|].
    destruct (decide (w < 2)) as [Hw|Hw]; [by left|]. right.
    destruct (decide (Z.of_nat (length (fresh_ids message_)) < 4 * w - 1))
      as [Hlen|Hlen]; [done|].
    rewrite (Apply_run_surplus message_ s p target opx opy w sg Hdef Hat Hop
               Hops Hty ltac:(lia) ltac:(lia)) in Hf.
    discriminate.
  - intros (Hop & w & sg & Hty & Hshort).
    rewrite (Apply_supported _ _ _ _ Hdef Hat Hop). unfold bind.
    destruct (AddBitwiseSynonym message_ p s) as [[[] s1]|f] eqn:Hrun.
    + exfalso.
      apply AddBitwiseSynonym_Ok in Hrun
        as (target' & w' & sg' & Hat' & Hty' & Hw & Hn & Hlen).
      rewrite Hat in Hat'. injection Hat' as <-.
      rewrite Hty in Hty'. injection Hty' as <- <-.
      rewrite Hops in Hlen. cbn [length] in Hlen. lia.
    + apply AddBitwiseSynonym_fault in Hrun as [Hna Hnull].
      destruct f; [|done|done].
      exfalso. exact (Hnull eq_refl target Hat w sg Hty).
Qed.

Lemma Apply_out_of_range_iff_witness :
  Apply (mkMessage 5 (replicate 30 7)) example_state = Fault OutOfRange <->
  supported_opcode (opcode example_target) /\
  exists w sg,
    type_mgr (ir_context example_state) !! type_id example_target
    = Some (Integer w sg) /\
    (w < 2 \/
     Z.of_nat (length (fresh_ids (mkMessage 5 (replicate 30 7)))) < 4 * w - 1).
Proof.
  apply (Apply_out_of_range_iff (mkMessage 5 (replicate 30 7)) example_state
           example_target (IdOperand [3]) (IdOperand [4])); reflexivity.
Defined.

(** ** Applying a second time *)

Lemma find_def_app_None l1 l2 id :
  (forall i, i ∈ l1 -> result_id i <> id) ->
  find_def (l1 ++ l2) id = find_def l2 id.
Proof.
  induction l1 as [|i l1 IH]; intros Hne; [done|].
  assert (Hlen : forall n, find_def (l1 ++ l2) id = n ->
                           find_def ((i :: l1) ++ l2) id = n).
  { intros n <-. cbn. rewrite bool_decide_eq_false_2; [done|].
    apply Hne. by left. }
  apply Hlen, IH. intros j Hj. apply Hne. by right.
Qed.

Lemma find_def_prefix_ne pre t post id :
  find_def (pre ++ t :: post) id = Some (S (length post)) ->
  forall i, i ∈ pre -> result_id i <> id.
Proof.
  induction pre as [|i0 pre IH]; intros Hdef i Hi.
  - by apply elem_of_nil in Hi.
  - cbn [app find_def] in Hdef. case_bool_decide as Heq.
    + injection Hdef as Hlen. cbn in Hlen. rewrite length_app in Hlen.
      cbn in Hlen. lia.
    + apply elem_of_cons in Hi as [->|Hi]; [done|]. by apply IH.
Qed.

Lemma find_integer_constant_ext ir ir' ws w sg :
  type_mgr ir = type_mgr ir' -> constant_mgr ir = constant_mgr ir' ->
  find_integer_constant ir ws w sg = find_integer_constant ir' ws w sg.
Proof.
  intros Ht Hc. unfold find_integer_constant, is_integer_constant.
  by rewrite Ht, Hc.
Qed.

(** X10.  A descriptor that was applied cannot be applied again.  After
    [Apply], the target is still the instruction [GetDef] finds for the
    id of the descriptor, the result type, the index constants and the
    number of ids are as before, so that the first five tests of
    [IsApplicable] pass again; the last one fails, because the ids of the
    descriptor are now the result ids of the chain. *)
Theorem Apply_cannot_be_repeated message_ s target x y w :
  IsApplicable message_ s = Ok (true, s) ->
  binary_integer_target (ir_context s) message_ target x y w ->
  exists s',
    Apply message_ s = Ok (tt, s') /\
    target_of (ir_context s') message_ = Some target /\
    IsApplicable_verdict message_ s' = Ok (Some NonFreshId, s') /\
    IsApplicable message_ s' = Ok (false, s').
Proof.
  intros Happ Hbin.
  destruct (Apply_of_applicable _ _ _ _ _ _ Happ Hbin)
    as (p & pre & post & Hdef & Hsplit & Hp & Hrid & Hlen & Hop & Hc & Hfr
        & Hrun).
  destruct Hbin as (Htgt & Hops & [sg Hty] & Hw).
  set (W := Z.to_nat w) in *.
  set (chain := spec_chain (ir_context s) target (IdOperand [x])
                  (IdOperand [y]) (fresh_ids message_) W) in *.
  set (s' := applied message_ p target chain s) in *.
  assert (HW : (2 <= W)%nat) by lia.
  assert (Hinsts : module_insts (ir_context s') = pre ++ chain ++ target :: post)
    by (by apply module_insts_applied).
  assert (Htypes : type_mgr (ir_context s') = type_mgr (ir_context s))
    by apply type_mgr_applied.
  assert (Hconsts : constant_mgr (ir_context s') = constant_mgr (ir_context s))
    by apply constant_mgr_applied.
  assert (Hids : map result_id chain = fresh_ids message_)
    by (by apply result_ids_spec_chain).
  assert (Htarget_used :
            instruction_result_id message_ ∈ ids_in_use (ir_context s)).
  { apply (instruction_ids_in_use _ target).
    - rewrite Hsplit. apply elem_of_app. right. by left.
    - rewrite <- Hrid. by left. }
  assert (Hdef' : find_def (module_insts (ir_context s'))
                    (instruction_result_id message_) = Some p).
  { rewrite Hinsts, find_def_app_None.
    2: { apply (find_def_prefix_ne pre target post). by rewrite <- Hsplit, <- Hp. }
    rewrite find_def_app_None.
    2: { intros i Hi Heq. apply (Hfr (result_id i)); [|by rewrite Heq].
         rewrite <- Hids. apply list_elem_of_In, in_map.
         by apply list_elem_of_In. }
    cbn. by rewrite bool_decide_eq_true_2, Hp. }
  assert (Hat' : instruction_at (module_insts (ir_context s')) p = Some target).
  { rewrite Hinsts, Hp, app_assoc. apply instruction_at_split. }
  assert (Htgt' : target_of (ir_context s') message_ = Some target).
  { unfold target_of. by rewrite Hdef'. }
  assert (Hty' : type_mgr (ir_context s') !! type_id target
                 = Some (Integer w sg)) by (by rewrite Htypes).
  assert (Hfails : fails_check s' message_ NonFreshId).
  { assert (Hsome : exists id, id ∈ fresh_ids message_).
    { destruct (fresh_ids message_) as [|id rest]; [cbn in Hlen; lia|].
      exists id. by left. }
    destruct Hsome as [id Hid_in].
    exists id. split; [exact Hid_in|].
    unfold IsFreshId. rewrite bool_decide_eq_false_2; [done|].
    intros Hnot. apply Hnot.
    assert (Hin : id ∈ map result_id chain) by (by rewrite Hids).
    apply list_elem_of_In, in_map_iff in Hin as (inst & Hid & Hin).
    apply (instruction_ids_in_use _ inst).
    - rewrite Hinsts. apply elem_of_app. right. apply elem_of_app. left.
      by apply list_elem_of_In.
    - rewrite <- Hid. by left. }
  assert (Hfirst : first_failure s' message_ NonFreshId).
  { split; [exact Hfails|]. intros r Hr.
    destruct r; cbn in Hr; try lia; cbn [fails_check].
    - by rewrite Hdef'.
    - intros (inst & Hi & Hn). rewrite Htgt' in Hi. injection Hi as <-.
      contradiction.
    - intros (inst & e & n & Hi & Hv). rewrite Htgt' in Hi.
      injection Hi as <-. rewrite Hty' in Hv. discriminate.
    - intros (inst & w' & sg' & i & Hi & Hv & Hrange & Hmiss).
      rewrite Htgt' in Hi. injection Hi as <-.
      rewrite Hty' in Hv. injection Hv as <- <-.
      unfold MaybeGetIntegerConstant in Hmiss. injection Hmiss as Hmiss.
      rewrite (find_integer_constant_ext _ (ir_context s)) in Hmiss by done.
      by apply (Hc i).
    - intros (p' & n & Hd & Hn & Hne). rewrite Hdef' in Hd.
      injection Hd as <-.
      rewrite (GetRequiredFreshIdCount_supported s' p target w sg Hat' Hop
                 Hty') in Hn.
      rewrite wrap32_required in Hn by lia. injection Hn as <-. lia. }
  assert (Hknown : result_type_known (ir_context s') message_).
  { intros inst Hi _. rewrite Htgt' in Hi. simplify_eq.
    exists (Integer w sg). split; [exact Hty'|]. right. by eexists. }
  destruct (IsApplicable_verdict_spec message_ s' Hknown) as (v & Hv & Hspec).
  assert (Hverdict : v = Some NonFreshId).
  { destruct v as [r|].
    - f_equal. exact (first_failure_unique _ _ _ _ Hspec Hfirst).
    - destruct (Hspec _ Hfails). }
  subst v. exists s'. split; [exact Hrun|]. split; [exact Htgt'|].
  split; [exact Hv|]. unfold IsApplicable, bind. by rewrite Hv.
Qed.

Lemma Apply_cannot_be_repeated_witness :
  exists s',
    Apply example_message example_state = Ok (tt, s') /\
    target_of (ir_context s') example_message = Some example_target /\
    IsApplicable_verdict example_message s' = Ok (Some NonFreshId, s') /\
    IsApplicable example_message s' = Ok (false, s').
Proof.
  exact (Apply_cannot_be_repeated example_message example_state
           example_target 3 4 8 example_applicable
           example_binary_integer_target).
Defined.

(** ** The value of every bit *)

Lemma bit_value_b2z v k : 0 <= k -> bit_value v k = Z.b2z (Z.testbit v k).
Proof.
  intros Hk. unfold bit_value.
  rewrite Z.testbit_spec', Z.land_ones, Z.shiftr_div_pow2 by lia.
  reflexivity.
Qed.

(** X11.  Run from an environment that gives the operands of the target
    the values [a] and [b], whatever they are, the chain of a validated
    descriptor with pairwise distinct ids leaves bit [k] of [a op b] in
    the id of the [k]-th one-bit instruction, [fresh_ids[3 * k + 2]], and
    the low [w] bits of [a op b] in the id of the last insert.  It changes
    the value of no id other than the ids of the descriptor. *)
Theorem chain_computes_each_bit message_ s target x y w fop a b env :
  IsApplicable message_ s = Ok (true, s) ->
  binary_integer_target (ir_context s) message_ target x y w ->
  NoDup (fresh_ids message_) ->
  bitwise_op (opcode target) = Some fop ->
  env_has_constants (ir_context s) env ->
  env !! x = Some a ->
  env !! y = Some b ->
  exists s' pre post chain env',
    Apply message_ s = Ok (tt, s') /\
    module_insts (ir_context s') = pre ++ chain ++ target :: post /\
    eval_instructions (ir_context s') env chain = Some env' /\
    (forall k, (k < Z.to_nat w)%nat ->
               env' !! nth (3 * k + 2)%nat (fresh_ids message_) 0
               = Some (Z.b2z (Z.testbit (fop a b) (Z.of_nat k)))) /\
    env' !! result_id (List.last chain target) = Some (fop a b mod 2 ^ w) /\
    (forall id, id ∉ fresh_ids message_ -> env' !! id = env !! id).
Proof.
  intros Happ Htgt Hnd Hfop Henv Hx Hy.
  destruct (Apply_of_applicable _ _ _ _ _ _ Happ Htgt)
    as (p & pre & post & Hdef & Hsplit & Hp & Hrid & Hlen & Hop & Hc & Hfr
         & Hrun).
  destruct Htgt as (_ & Hops & [sg Hty] & Hw).
  assert (HW : (2 <= Z.to_nat w)%nat) by lia.
  assert (Hwz : Z.of_nat (Z.to_nat w) = w) by lia.
  assert (Htarget : target ∈ module_insts (ir_context s)).
  { rewrite Hsplit. apply elem_of_app. right. by left. }
  assert (Hused : forall id, id ∈ ids_in_use (ir_context s) ->
                             id ∉ fresh_ids message_).
  { intros id Hid Hin. by apply (Hfr id Hin). }
  set (chain := spec_chain (ir_context s) target (IdOperand [x])
                  (IdOperand [y]) (fresh_ids message_) (Z.to_nat w)) in *.
  destruct (eval_spec_chain_done (ir_context s) target x y
              (fresh_ids message_) (Z.to_nat w) sg fop a b env)
    as (env' & Heval & Hgiven & Hbits & Hlow);
    try done.
  - by rewrite Hwz.
  - apply Hused, (instruction_ids_in_use _ target); [done|].
    unfold instruction_ids. rewrite Hops. simpl.
    do 2 (apply elem_of_cons; right). by left.
  - apply Hused, (instruction_ids_in_use _ target); [done|].
    unfold instruction_ids. rewrite Hops. simpl.
    do 3 (apply elem_of_cons; right). by left.
  - intros k Hk. apply Hused, index_constant_in_use, Hc. lia.
  - intros k Hk. apply index_constant_value; [apply Hc; lia | done].
  - eexists _, pre, post, chain, env'. split; [exact Hrun|].
    split; [by apply module_insts_applied|].
    split.
    { rewrite <- Heval. apply eval_instructions_type_mgr.
      apply type_mgr_applied. }
    split.
    { intros k Hk. rewrite (Hbits k Hk). f_equal.
      apply bit_value_b2z. lia. }
    split; [|exact Hgiven].
    destruct (last_spec_chain (ir_context s) target (IdOperand [x])
                (IdOperand [y]) (fresh_ids message_) (Z.to_nat w) HW Hlen)
      as [Hlast_id _].
    fold chain in Hlast_id. rewrite Hlast_id.
    replace (4 * Z.to_nat w - 2)%nat
      with (3 * Z.to_nat w + (Z.to_nat w - 2))%nat by lia.
    rewrite Hlow. f_equal.
    replace (Z.of_nat (2 + (Z.to_nat w - 2))) with w by lia.
    apply Z.land_ones. lia.
Qed.

Lemma chain_computes_each_bit_witness :
  exists s' pre post chain env',
    Apply example_message example_state = Ok (tt, s') /\
    module_insts (ir_context s') = pre ++ chain ++ example_target :: post /\
    eval_instructions (ir_context s') example_env chain = Some env' /\
    (forall k, (k < Z.to_nat 8)%nat ->
               env' !! nth (3 * k + 2)%nat (fresh_ids example_message) 0
               = Some (Z.b2z (Z.testbit (Z.lxor 178 102) (Z.of_nat k)))) /\
    env' !! result_id (List.last chain example_target)
    = Some (Z.lxor 178 102 mod 2 ^ 8) /\
    (forall id, id ∉ fresh_ids example_message ->
                env' !! id = example_env !! id).
Proof.
  apply (chain_computes_each_bit example_message example_state example_target
           3 4 8 Z.lxor 178 102 example_env).
  - exact example_applicable.
  - exact example_binary_integer_target.
  - exact example_fresh_ids_NoDup.
  - reflexivity.
  - exact example_env_has_constants.
  - reflexivity.
  - reflexivity.
Defined.

(** ** Every outcome of [GetRequiredFreshIdCount] *)

Lemma wrap32_twice w : wrap32 (wrap32 (4 * w) - 1) = (4 * w - 1) mod 2 ^ 32.
Proof. unfold wrap32. apply Zminus_mod_idemp_l. Qed.

(** X12.  [GetRequiredFreshIdCount] changes nothing, and what it does is
    settled by the instruction it is given.  For a supported opcode and an
    integer result type of width [w] it returns [4 * w - 1] modulo
    [2 ^ 32], whatever [w] is; for an unsupported opcode it ends in its
    assertion; and it dereferences a null pointer when its argument is
    null or the result type is not an integer.  It never reads out of
    range. *)
Theorem GetRequiredFreshIdCount_outcome p s :
  match GetRequiredFreshIdCount p s with
  | Ok (n, s') =>
      s' = s /\
      exists inst w sg,
        instruction_at (module_insts (ir_context s)) p = Some inst /\
        supported_opcode (opcode inst) /\
        type_mgr (ir_context s) !! type_id inst = Some (Integer w sg) /\
        n = (4 * w - 1) mod 2 ^ 32
  | Fault AssertionFailure =>
      exists inst,
        instruction_at (module_insts (ir_context s)) p = Some inst /\
        ~ supported_opcode (opcode inst)
  | Fault NullDereference =>
      instruction_at (module_insts (ir_context s)) p = None \/
      exists inst,
        instruction_at (module_insts (ir_context s)) p = Some inst /\
        supported_opcode (opcode inst) /\
        forall w sg,
          type_mgr (ir_context s) !! type_id inst <> Some (Integer w sg)
  | Fault OutOfRange => False
  end.
Proof.
  unfold GetRequiredFreshIdCount, bind at 1, load.
  destruct (instruction_at (module_insts (ir_context s)) p) as [inst|] eqn:Hat;
    [|by left].
  destruct (decide (supported_opcode (opcode inst))) as [Hop|Hop].
  - assert (Hrun :
      match opcode inst with
      | SpvOpBitwiseOr | SpvOpBitwiseXor | SpvOpBitwiseAnd =>
          ty <- GetType (type_id inst) ;;
          ty <- deref ty ;;
          int <- deref (AsInteger ty) ;;
          ret (wrap32 (wrap32 (4 * fst int) - 1))
      | _ => fail AssertionFailure
      end s
      = (ty <- GetType (type_id inst) ;;
         ty <- deref ty ;;
         int <- deref (AsInteger ty) ;;
         ret (wrap32 (wrap32 (4 * fst int) - 1))) s).
    { by destruct Hop as [->|[->| ->]]. }
    rewrite Hrun. unfold bind, GetType.
    destruct (type_mgr (ir_context s) !! type_id inst) as [t|] eqn:Hty; cbn.
    2: { right. exists inst. split; [done|]. split; [done|].
         intros w sg. rewrite Hty. discriminate. }
    destruct t as [|w sg|w|e n]; cbn.
    2: { split; [done|]. exists inst, w, sg. split; [done|].
         split; [done|]. split; [done|]. apply wrap32_twice. }
    all: right; exists inst; split; [done|]; split; [done|];
      intros w' sg'; rewrite Hty; discriminate.
  - assert (Hrun :
      match opcode inst with
      | SpvOpBitwiseOr | SpvOpBitwiseXor | SpvOpBitwiseAnd =>
          ty <- GetType (type_id inst) ;;
          ty <- deref ty ;;
          int <- deref (AsInteger ty) ;;
          ret (wrap32 (wrap32 (4 * fst int) - 1))
      | _ => fail AssertionFailure
      end s = Fault AssertionFailure).
    { unfold supported_opcode in Hop.
      destruct (opcode inst); try reflexivity; exfalso; apply Hop; auto. }
    rewrite Hrun. by exists inst.
Qed.

(** ** The id bound and the order of the calls *)

Lemma bound_after_cons b id ids :
  bound_after b (id :: ids) = bound_after (Z.max b (id + 1)) ids.
Proof. reflexivity. Qed.

Lemma bound_after_least b ids B :
  b <= B -> (forall id, id ∈ ids -> id < B) -> bound_after b ids <= B.
Proof.
  revert b. induction ids as [|id ids IH]; intros b Hb Hids; [done|].
  rewrite bound_after_cons. apply IH.
  - assert (id < B) by (apply Hids; by left). lia.
  - intros id' Hid'. apply Hids. by right.
Qed.

Lemma last_result_id (l : list Instruction) d :
  l <> [] -> result_id (List.last l d) = List.last (map result_id l) 0.
Proof.
  intros Hne. destruct (exists_last Hne) as (l' & i & ->).
  rewrite map_app. cbn [map]. by rewrite !last_last.
Qed.

(** X14.  [Apply] on a validated descriptor raises the id bound to the
    least value that is no lower than the old bound and lies above every
    id of the descriptor: it is not raised further than that. *)
Theorem Apply_raises_the_bound_to_the_least message_ s target x y w :
  IsApplicable message_ s = Ok (true, s) ->
  binary_integer_target (ir_context s) message_ target x y w ->
  exists s',
    Apply message_ s = Ok (tt, s') /\
    module_id_bound (ir_context s) <= module_id_bound (ir_context s') /\
    (forall id, id ∈ fresh_ids message_ ->
                id < module_id_bound (ir_context s')) /\
    (forall B, module_id_bound (ir_context s) <= B ->
               (forall id, id ∈ fresh_ids message_ -> id < B) ->
               module_id_bound (ir_context s') <= B).
Proof.
  intros Happ Hbin.
  destruct (Apply_of_applicable _ _ _ _ _ _ Happ Hbin)
    as (p & pre & post & Hdef & Hsplit & Hp & Hrid & Hlen & Hop & Hc & Hfr
        & Hrun).
  destruct Hbin as (Htgt & Hops & [sg Hty] & Hw).
  assert (HW : (2 <= Z.to_nat w)%nat) by lia.
  eexists. split; [exact Hrun|].
  rewrite module_id_bound_applied, result_ids_spec_chain by done.
  split; [apply bound_after_ge|]. split.
  - intros id Hid. by apply bound_after_gt.
  - intros B HB Hids. by apply bound_after_least.
Qed.

Lemma Apply_raises_the_bound_to_the_least_witness :
  exists s',
    Apply example_message example_state = Ok (tt, s') /\
    module_id_bound (ir_context example_state)
    <= module_id_bound (ir_context s') /\
    (forall id, id ∈ fresh_ids example_message ->
                id < module_id_bound (ir_context s')) /\
    (forall B, module_id_bound (ir_context example_state) <= B ->
               (forall id, id ∈ fresh_ids example_message -> id < B) ->
               module_id_bound (ir_context s') <= B).
Proof.
  exact (Apply_raises_the_bound_to_the_least example_message example_state
           example_target 3 4 8 example_applicable
           example_binary_integer_target).
Defined.

(** X15.  The calls [Apply] makes on a validated descriptor, in order:
    for each instruction of the chain an [InsertBefore] followed by the
    [UpdateModuleIdBound] for its result id; then, once all instructions
    are in place, an invalidation of the analyses; then the one synonym
    fact; and last the invalidation at the end of [Apply].  There are
    [2 * (4 * w - 1) + 3] calls in all. *)
Theorem Apply_makes_these_calls message_ s target x y w :
  IsApplicable message_ s = Ok (true, s) ->
  binary_integer_target (ir_context s) message_ target x y w ->
  exists s' chain,
    Apply message_ s = Ok (tt, s') /\
    map result_id chain = fresh_ids message_ /\
    log s'
    = log s
      ++ emit_log (module_id_bound (ir_context s)) chain
      ++ [EvInvalidateAnalyses;
          EvAddFactDataSynonym
            (MakeDataDescriptor (List.last (fresh_ids message_) 0) [])
            (MakeDataDescriptor (instruction_result_id message_) []);
          EvInvalidateAnalyses] /\
    Z.of_nat (length (log s')) = Z.of_nat (length (log s)) + 2 * (4 * w - 1) + 3.
Proof.
  intros Happ Hbin.
  destruct (Apply_of_applicable _ _ _ _ _ _ Happ Hbin)
    as (p & pre & post & Hdef & Hsplit & Hp & Hrid & Hlen & Hop & Hc & Hfr
        & Hrun).
  destruct Hbin as (Htgt & Hops & [sg Hty] & Hw).
  assert (HW : (2 <= Z.to_nat w)%nat) by lia.
  set (chain := spec_chain (ir_context s) target (IdOperand [x])
                  (IdOperand [y]) (fresh_ids message_) (Z.to_nat w)) in *.
  assert (Hids : map result_id chain = fresh_ids message_)
    by (by apply result_ids_spec_chain).
  assert (Hlast : result_id (List.last chain target)
                  = List.last (fresh_ids message_) 0).
  { assert (Hne : chain <> []).
    { intros Hnil. rewrite Hnil in Hids. cbn in Hids.
      rewrite <- Hids in Hlen. cbn in Hlen. lia. }
    rewrite <- Hids. by apply last_result_id. }
  assert (Hlog := log_applied message_ s p target chain).
  rewrite Hlast, Hrid in Hlog.
  eexists _, chain. split; [exact Hrun|]. split; [exact Hids|].
  split; [exact Hlog|].
  rewrite Hlog, !length_app.
  assert (Hemit : forall b l, length (emit_log b l) = (2 * length l)%nat).
  { intros b l. revert b. induction l as [|i l IH]; intros b; [done|].
    cbn [emit_log length]. rewrite IH. lia. }
  rewrite Hemit. cbn [length].
  assert (Hclen : length chain = (4 * Z.to_nat w - 1)%nat).
  { by rewrite <- (length_map result_id), Hids. }
  lia.
Qed.

Lemma Apply_makes_these_calls_witness :
  exists s' chain,
    Apply example_message example_state = Ok (tt, s') /\
    map result_id chain = fresh_ids example_message /\
    log s'
    = log example_state
      ++ emit_log (module_id_bound (ir_context example_state)) chain
      ++ [EvInvalidateAnalyses;
          EvAddFactDataSynonym
            (MakeDataDescriptor (List.last (fresh_ids example_message) 0) [])
            (MakeDataDescriptor (instruction_result_id example_message) []);
          EvInvalidateAnalyses] /\
    Z.of_nat (length (log s'))
    = Z.of_nat (length (log example_state)) + 2 * (4 * 8 - 1) + 3.
Proof.
  exact (Apply_makes_these_calls example_message example_state
           example_target 3 4 8 example_applicable
           example_binary_integer_target).
Defined.
